(** * LPML: lexer, parser and HTML generator

    A shallow embedding of the LPML compiler pipeline (packages [tokens],
    [lexer], [ast], [parser] and [generator], and the program [main])
    together with the properties of the pipeline that the specification
    states and further properties that the code shows.

    Conventions of the embedding.
    - A Go [string] is a [string] of 8-bit [ascii] bytes; [byte] is [ascii].
    - Go [int] counters (positions, lines, columns, indentation, brace depth)
      are [nat]: they start at 0 or 1 and only ever move by one.
    - A Go method on a pointer receiver becomes a function that takes the
      receiver state and returns the new state next to its result.
    - Every [for] loop and every unbounded recursion takes a [fuel] argument
      and answers [None] when the fuel runs out, so that termination of the
      Go code is a theorem about the model and never an artefact of it.
      A slice expression that would panic answers [None] as well: a result
      [Some] says that the Go code returned.
    - A Go [map[string]T] is a [gmap string T]. *)

From Stdlib Require Import Ascii String DecimalString.
From stdpp Require Import gmap strings list fin_maps.

#[local] Set Warnings "-register-all".

(** ** Bytes and the [strings]/[fmt] helpers the code calls *)

Definition NUL : ascii := "000"%char.
Definition LF : ascii := "010"%char.
Definition TAB : ascii := "009"%char.
Definition CR : ascii := "013"%char.
Definition SPACE : ascii := " "%char.
Definition DQUOTE : ascii := "034"%char.

(** The one-character string holding a double quote. *)
Definition dq : string := String DQUOTE EmptyString.

(** [ch >= lo && ch <= hi] on bytes. *)
Definition byteBetween (lo hi ch : ascii) : bool :=
  (nat_of_ascii lo <=? nat_of_ascii ch)%nat && (nat_of_ascii ch <=? nat_of_ascii hi)%nat.

(** [string(ch)] for a byte [ch]. *)
Definition stringOfByte (ch : ascii) : string := String ch EmptyString.

(** [s[i]], with the NUL byte standing for "out of range" where the code
    guards the access with a bounds test that yields 0. *)
Definition byteAt (s : string) (i : nat) : ascii :=
  match String.get i s with
  | Some c => c
  | None => NUL
  end.

(** [s[lo:hi]], which panics unless [lo <= hi <= len(s)]: [None] is the
    panic. *)
Definition slice (s : string) (lo hi : nat) : option string :=
  if (lo <=? hi)%nat && (hi <=? String.length s)%nat
  then Some (String.substring lo (hi - lo) s)
  else None.

(** [strings.Repeat(s, n)]. *)
Fixpoint Repeat (s : string) (n : nat) : string :=
  match n with
  | O => EmptyString
  | S k => s +:+ Repeat s k
  end.

(** [strings.Join(parts, sep)]. *)
Definition Join (parts : list string) (sep : string) : string :=
  String.concat sep parts.

(** [strings.Contains(s, substr)]. *)
Fixpoint Contains (s substr : string) : bool :=
  if String.prefix substr s then true
  else match s with
       | EmptyString => false
       | String _ rest => Contains rest substr
       end.

(** [strings.HasSuffix(s, suffix)]. *)
Definition HasSuffix (s suffix : string) : bool :=
  (String.length suffix <=? String.length s)%nat &&
  String.eqb (String.substring (String.length s - String.length suffix)
                               (String.length suffix) s) suffix.

(** [strings.TrimSuffix(s, suffix)]. *)
Definition TrimSuffix (s suffix : string) : string :=
  if HasSuffix s suffix
  then String.substring 0 (String.length s - String.length suffix) s
  else s.

(** [strings.ReplaceAll(s, old, new)] for a non-empty [old]: the matches are
    taken leftmost first and do not overlap.  [skip] counts the bytes of a
    match that are still to be dropped. *)
Fixpoint replaceFrom (skip : nat) (s old new : string) : string :=
  match s with
  | EmptyString => EmptyString
  | String c rest =>
      match skip with
      | S k => replaceFrom k rest old new
      | O =>
          if String.prefix old s
          then new +:+ replaceFrom (String.length old - 1) rest old new
          else String c (replaceFrom 0 rest old new)
      end
  end.

Definition ReplaceAll (s old new : string) : string := replaceFrom 0 s old new.

(** [%d] of a non-negative [int]. *)
Definition showInt (n : nat) : string := NilZero.string_of_uint (Nat.to_uint n).

(** ** Package [tokens] *)

Module tokens.

(** [TokenType] is a Go string type; its values in the program are the
    constants below and the empty string, the zero value that only a
    [Token] which was never assigned carries ([NOTYPE]). *)
Inductive TokenType : Set :=
  | NOTYPE
  | ILLEGAL | EOF
  | LBRACKET | RBRACKET | LBRACE | RBRACE | EQUALS | DOLLAR | COMMA | NEWLINE
  | STRING | NUMBER | IDENT | CODEBLOCK
  | TOP_OF_PAGE_START | TOP_OF_PAGE_END
  | MID_PAGE_START | MID_PAGE_END
  | BOTTOM_OF_PAGE_START | BOTTOM_OF_PAGE_END
  | DIVIDE_START | P_START | H_START | LINK_START | IMG_START | LIST_START
  | LIST_ORD_START | LIST_UNORD_START | ITEM_START | TABLE_START | ROW_START
  | CELL_START | FORM_START | INPUT_START | BTN_START | BOLD_START
  | ITALIC_START | CODE_START
  | DIVIDE_END | P_END | H_END | LINK_END | IMG_END | LIST_END
  | LIST_ORD_END | LIST_UNORD_END | ITEM_END | TABLE_END | ROW_END
  | CELL_END | FORM_END | INPUT_END | BTN_END | BOLD_END
  | ITALIC_END | CODE_END.

#[global] Instance TokenType_eq_dec : EqDecision TokenType.
Proof. solve_decision. Defined.

(** The string a [TokenType] constant is defined as (what [%s] prints). *)
Definition typeString (t : TokenType) : string :=
  match t with
  | NOTYPE => EmptyString
  | ILLEGAL => "ILLEGAL" | EOF => "EOF"
  | LBRACKET => "[" | RBRACKET => "]" | LBRACE => "{" | RBRACE => "}"
  | EQUALS => "=" | DOLLAR => "$" | COMMA => "," | NEWLINE => "NEWLINE"
  | STRING => "STRING" | NUMBER => "NUMBER" | IDENT => "IDENT"
  | CODEBLOCK => "CODEBLOCK"
  | TOP_OF_PAGE_START => "TOP_OF_PAGE_START"
  | TOP_OF_PAGE_END => "TOP_OF_PAGE_END"
  | MID_PAGE_START => "MID_PAGE_START" | MID_PAGE_END => "MID_PAGE_END"
  | BOTTOM_OF_PAGE_START => "BOTTOM_OF_PAGE_START"
  | BOTTOM_OF_PAGE_END => "BOTTOM_OF_PAGE_END"
  | DIVIDE_START => "DIVIDE_START" | P_START => "P_START"
  | H_START => "H_START" | LINK_START => "LINK_START"
  | IMG_START => "IMG_START" | LIST_START => "LIST_START"
  | LIST_ORD_START => "LIST_ORD_START"
  | LIST_UNORD_START => "LIST_UNORD_START"
  | ITEM_START => "ITEM_START" | TABLE_START => "TABLE_START"
  | ROW_START => "ROW_START" | CELL_START => "CELL_START"
  | FORM_START => "FORM_START" | INPUT_START => "INPUT_START"
  | BTN_START => "BTN_START" | BOLD_START => "BOLD_START"
  | ITALIC_START => "ITALIC_START" | CODE_START => "CODE_START"
  | DIVIDE_END => "DIVIDE_END" | P_END => "P_END" | H_END => "H_END"
  | LINK_END => "LINK_END" | IMG_END => "IMG_END" | LIST_END => "LIST_END"
  | LIST_ORD_END => "LIST_ORD_END" | LIST_UNORD_END => "LIST_UNORD_END"
  | ITEM_END => "ITEM_END" | TABLE_END => "TABLE_END" | ROW_END => "ROW_END"
  | CELL_END => "CELL_END" | FORM_END => "FORM_END"
  | INPUT_END => "INPUT_END" | BTN_END => "BTN_END" | BOLD_END => "BOLD_END"
  | ITALIC_END => "ITALIC_END" | CODE_END => "CODE_END"
  end.

(** [Token]; the field [Type] is spelled [Type_]. *)
Record Token : Set := mkToken {
  Type_ : TokenType;
  Literal : string;
  Line : nat;
  Column : nat
}.

(** The zero value of [Token]. *)
Definition zeroToken : Token := mkToken NOTYPE EmptyString 0 0.

(** The map [keywords], in the order of the source. *)
Definition keywords : list (string * TokenType) :=
  [ ("top-of-page-start", TOP_OF_PAGE_START);
    ("top-of-page-end", TOP_OF_PAGE_END);
    ("mid-page-start", MID_PAGE_START);
    ("mid-page-end", MID_PAGE_END);
    ("bottom-of-page-start", BOTTOM_OF_PAGE_START);
    ("bottom-of-page-end", BOTTOM_OF_PAGE_END);
    ("divide-start", DIVIDE_START);
    ("p-start", P_START);
    ("h-start", H_START);
    ("link-start", LINK_START);
    ("img-start", IMG_START);
    ("list-start", LIST_START);
    ("lst-ord", LIST_ORD_START);
    ("lst-unord", LIST_UNORD_START);
    ("item-start", ITEM_START);
    ("table-start", TABLE_START);
    ("row-start", ROW_START);
    ("cell-start", CELL_START);
    ("form-start", FORM_START);
    ("input-start", INPUT_START);
    ("btn-start", BTN_START);
    ("bold-start", BOLD_START);
    ("italic-start", ITALIC_START);
    ("code-start", CODE_START);
    ("divide-end", DIVIDE_END);
    ("p-end", P_END);
    ("h-end", H_END);
    ("link-end", LINK_END);
    ("img-end", IMG_END);
    ("list-end", LIST_END);
    ("lst-end", LIST_ORD_END);
    ("item-end", ITEM_END);
    ("table-end", TABLE_END);
    ("row-end", ROW_END);
    ("cell-end", CELL_END);
    ("form-end", FORM_END);
    ("input-end", INPUT_END);
    ("btn-end", BTN_END);
    ("bold-end", BOLD_END);
    ("italic-end", ITALIC_END);
    ("code-end", CODE_END) ].

(** [keywords[ident]]: the keys of the literal are pairwise distinct, so the
    first entry with the key is the only one. *)
Fixpoint lookupKeyword (table : list (string * TokenType)) (ident : string)
  : option TokenType :=
  match table with
  | [] => None
  | (k, t) :: rest => if String.eqb k ident then Some t else lookupKeyword rest ident
  end.

Definition LookUpIdent (ident : string) : TokenType :=
  match lookupKeyword keywords ident with
  | Some tok => tok
  | None => IDENT
  end.

Definition IsOpeningTag (t : TokenType) : bool :=
  match t with
  | TOP_OF_PAGE_START | MID_PAGE_START | BOTTOM_OF_PAGE_START
  | DIVIDE_START | P_START | H_START | LINK_START | IMG_START
  | LIST_START | LIST_ORD_START | LIST_UNORD_START | ITEM_START
  | TABLE_START | ROW_START | CELL_START
  | FORM_START | INPUT_START | BTN_START | BOLD_START | ITALIC_START
  | CODE_START => true
  | _ => false
  end.

Definition IsClosingTag (t : TokenType) : bool :=
  match t with
  | TOP_OF_PAGE_END | MID_PAGE_END | BOTTOM_OF_PAGE_END
  | DIVIDE_END | P_END | H_END | LINK_END | IMG_END
  | LIST_END | LIST_ORD_END | LIST_UNORD_END | ITEM_END
  | TABLE_END | ROW_END | CELL_END
  | FORM_END | INPUT_END | BTN_END | BOLD_END | ITALIC_END
  | CODE_END => true
  | _ => false
  end.

Definition GetMatchingClose (open : TokenType) : TokenType :=
  match open with
  | TOP_OF_PAGE_START => TOP_OF_PAGE_END
  | MID_PAGE_START => MID_PAGE_END
  | BOTTOM_OF_PAGE_START => BOTTOM_OF_PAGE_END
  | DIVIDE_START => DIVIDE_END
  | P_START => P_END
  | H_START => H_END
  | LINK_START => LINK_END
  | IMG_START => IMG_END
  | LIST_START => LIST_END
  | LIST_ORD_START => LIST_ORD_END
  | LIST_UNORD_START => LIST_UNORD_END
  | ITEM_START => ITEM_END
  | TABLE_START => TABLE_END
  | ROW_START => ROW_END
  | CELL_START => CELL_END
  | FORM_START => FORM_END
  | INPUT_START => INPUT_END
  | BTN_START => BTN_END
  | BOLD_START => BOLD_END
  | ITALIC_START => ITALIC_END
  | CODE_START => CODE_END
  | _ => ILLEGAL
  end.

End tokens.

(** ** Package [lexer] *)

Module lexer.
Import tokens.

Record Lexer : Set := mkLexer {
  input : string;
  position : nat;
  readPosition : nat;
  ch : ascii;
  line : nat;
  column : nat
}.

Definition readChar (l : Lexer) : Lexer :=
  let c := if (String.length (input l) <=? readPosition l)%nat
           then NUL
           else byteAt (input l) (readPosition l) in
  if Ascii.eqb c LF
  then mkLexer (input l) (readPosition l) (readPosition l + 1) c (line l + 1) 0
  else mkLexer (input l) (readPosition l) (readPosition l + 1) c (line l) (column l + 1).

Definition New (input : string) : Lexer :=
  readChar (mkLexer input 0 0 NUL 1 0).

Definition peekChar (l : Lexer) : ascii :=
  if (String.length (input l) <=? readPosition l)%nat
  then NUL
  else byteAt (input l) (readPosition l).

Definition isLetter (ch : ascii) : bool :=
  byteBetween "a" "z" ch || byteBetween "A" "Z" ch.

Definition isDigit (ch : ascii) : bool := byteBetween "0" "9" ch.

Definition isTagChar (ch : ascii) : bool :=
  isLetter ch || isDigit ch || Ascii.eqb ch "-" || Ascii.eqb ch "_".

Definition newToken (tokenType : TokenType) (ch : ascii) (line col : nat) : Token :=
  mkToken tokenType (stringOfByte ch) line col.

(** The loop [for cond(l.ch) { l.readChar() }]. *)
Fixpoint readWhile (cond : ascii → bool) (fuel : nat) (l : Lexer) : option Lexer :=
  match fuel with
  | O => None
  | S f => if cond (ch l) then readWhile cond f (readChar l) else Some l
  end.

Definition isSpace (c : ascii) : bool :=
  Ascii.eqb c SPACE || Ascii.eqb c TAB || Ascii.eqb c CR || Ascii.eqb c LF.

Definition skipWhitespace (fuel : nat) (l : Lexer) : option Lexer :=
  readWhile isSpace fuel l.

Definition isArrayStart (l : Lexer) : bool :=
  let next := peekChar l in
  isDigit next || Ascii.eqb next "$" || Ascii.eqb next DQUOTE || Ascii.eqb next "]"
  || Ascii.eqb next SPACE || Ascii.eqb next LF || Ascii.eqb next TAB.

Definition readNumber (fuel : nat) (l : Lexer) : option (string * Lexer) :=
  let position0 := position l in
  l' ← readWhile (λ c, isDigit c || Ascii.eqb c ".") fuel l;
  lit ← slice (input l') position0 (position l');
  Some (lit, l').

(** [trimTrailingWhitespace]: [end] starts at [len(s)] and only goes down, so
    [s[end-1]] and [s[:end]] are in range. *)
Definition trimTrailingWhitespace (s : string) : string :=
  let fix go (end_ : nat) : nat :=
    match end_ with
    | O => O
    | S e =>
        let c := byteAt s e in
        if Ascii.eqb c SPACE || Ascii.eqb c TAB || Ascii.eqb c LF || Ascii.eqb c CR
        then go e
        else end_
    end in
  String.substring 0 (go (String.length s)) s.

(** The loop of [readCodeBlock] that looks for the matching closing brace. *)
Fixpoint readBraces (fuel : nat) (braceCount : nat) (l : Lexer) : option Lexer :=
  match fuel with
  | O => None
  | S f =>
      if (0 <? braceCount)%nat && negb (Ascii.eqb (ch l) NUL) then
        if Ascii.eqb (ch l) "{" then readBraces f (braceCount + 1) (readChar l)
        else if Ascii.eqb (ch l) "}" then
          let braceCount := braceCount - 1 in
          if (braceCount =? 0)%nat then Some l
          else readBraces f braceCount (readChar l)
        else readBraces f braceCount (readChar l)
      else Some l
  end.

Definition readCodeBlock (fuel : nat) (l : Lexer) : option (Token * Lexer) :=
  let line0 := line l in
  let col := column l in
  let l := readChar l in
  l ← readWhile (λ c, Ascii.eqb c SPACE || Ascii.eqb c TAB || Ascii.eqb c LF || Ascii.eqb c CR)
                fuel l;
  let position0 := position l in
  l ← readBraces fuel 1 l;
  content ← slice (input l) position0 (position l);
  let content := trimTrailingWhitespace content in
  let l := if Ascii.eqb (ch l) "}" then readChar l else l in
  Some (mkToken CODEBLOCK content line0 col, l).

Definition readTagName (fuel : nat) (l : Lexer) : option (string * Lexer) :=
  let position0 := position l in
  l' ← readWhile isTagChar fuel l;
  name ← slice (input l') position0 (position l');
  Some (name, l').

Definition readTag (fuel : nat) (l : Lexer) : option (Token * Lexer) :=
  let line0 := line l in
  let col := column l in
  let l := readChar l in
  '(tagName, l) ← readTagName fuel l;
  l ← readWhile (λ c, negb (Ascii.eqb c "]") && negb (Ascii.eqb c NUL)) fuel l;
  let l := if Ascii.eqb (ch l) "]" then readChar l else l in
  let tokType := LookUpIdent tagName in
  Some (mkToken tokType tagName line0 col, l).

Definition readIdentifier (fuel : nat) (l : Lexer) : option (string * Lexer) :=
  let position0 := position l in
  l' ← readWhile (λ c, isLetter c || isDigit c || Ascii.eqb c "_") fuel l;
  name ← slice (input l') position0 (position l');
  Some (name, l').

Definition readString (fuel : nat) (l : Lexer) : option (string * Lexer) :=
  let l := readChar l in
  let position0 := position l in
  l ← readWhile (λ c, negb (Ascii.eqb c DQUOTE) && negb (Ascii.eqb c NUL)) fuel l;
  str ← slice (input l) position0 (position l);
  let l := if Ascii.eqb (ch l) DQUOTE then readChar l else l in
  Some (str, l).

Definition readVariableReference (fuel : nat) (l : Lexer) : option (Token * Lexer) :=
  let line0 := line l in
  let col := column l in
  let l := readChar l in
  '(varName, l) ← readIdentifier fuel l;
  Some (mkToken DOLLAR varName line0 col, l).

(** The [switch l.ch] of [NextToken], which runs once the whitespace is
    skipped. *)
Definition scanToken (fuel : nat) (l : Lexer) : option (Token * Lexer) :=
  let c := ch l in
  if Ascii.eqb c "[" then
    if isArrayStart l
    then Some (newToken LBRACKET c (line l) (column l), readChar l)
    else readTag fuel l
  else if Ascii.eqb c "]" then
    Some (newToken RBRACKET c (line l) (column l), readChar l)
  else if Ascii.eqb c "=" then
    Some (newToken EQUALS c (line l) (column l), readChar l)
  else if Ascii.eqb c "," then
    Some (newToken COMMA c (line l) (column l), readChar l)
  else if Ascii.eqb c "{" then readCodeBlock fuel l
  else if Ascii.eqb c "$" then readVariableReference fuel l
  else if Ascii.eqb c DQUOTE then
    '(lit, l) ← readString fuel l;
    Some (mkToken STRING lit (line l) (column l), l)
  else if Ascii.eqb c LF then
    Some (newToken NEWLINE c (line l) (column l), readChar l)
  else if Ascii.eqb c NUL then
    Some (mkToken EOF EmptyString (line l) (column l), l)
  else if isDigit c then
    let line0 := line l in
    let col := column l in
    '(lit, l) ← readNumber fuel l;
    Some (mkToken NUMBER lit line0 col, l)
  else if isLetter c || Ascii.eqb c "_" then
    let line0 := line l in
    let col := column l in
    '(lit, l) ← readIdentifier fuel l;
    Some (mkToken IDENT lit line0 col, l)
  else
    Some (newToken ILLEGAL c (line l) (column l), readChar l).

Definition NextToken (fuel : nat) (l : Lexer) : option (Token * Lexer) :=
  l ← skipWhitespace fuel l;
  scanToken fuel l.

End lexer.

(** ** Package [ast] *)

Module ast.
Import tokens.

(** The implementations of the interface [Value]. *)
Inductive Value : Type :=
  | StringValue (tok : Token) (val : string)
  | NumberValue (tok : Token) (val : string)
  | VariableRef (tok : Token) (name : string)
  | ArrayValue (tok : Token) (values : list Value)
  | CodeBlockValue (tok : Token) (content : string).

(** [Element], over the type of its child nodes. *)
Record ElementOf (N : Type) : Type := mkElement {
  ElemToken : Token;
  TagType : string;
  Properties : gmap string Value;
  Children : list N
}.
Arguments mkElement {N}.
Arguments ElemToken {N}.
Arguments TagType {N}.
Arguments Properties {N}.
Arguments Children {N}.

(** The interface [Node] as the slices [Children] hold it: a [*Element], or
    any other implementation of the interface ([NodeOther]), which the type
    assertions on [Element] pointers reject. *)
Inductive Node : Type :=
  | NodeElement (e : ElementOf Node)
  | NodeOther.

Abbreviation Element := (ElementOf Node).

(** Induction on a node with the hypothesis for every child of an element. *)
Fixpoint Node_nested_ind (P : Node → Prop)
    (Hother : P NodeOther)
    (Helem : ∀ e : ElementOf Node, Forall P (Children e) → P (NodeElement e))
    (node : Node) : P node :=
  match node with
  | NodeOther => Hother
  | NodeElement e =>
      Helem e ((fix children (cs : list Node) : Forall P cs :=
                  match cs with
                  | [] => @List.Forall_nil _ P
                  | c :: rest =>
                      @List.Forall_cons _ P c rest (Node_nested_ind P Hother Helem c)
                                        (children rest)
                  end) (Children e))
  end.

Record PageSection : Type := mkPageSection {
  SecToken : Token;
  SecType : string;
  SecChildren : list Node
}.

Record Document : Type := mkDocument {
  Sections : list PageSection
}.

Definition GetTagName (t : TokenType) : string :=
  match t with
  | DIVIDE_START | DIVIDE_END => "divide"
  | P_START | P_END => "p"
  | H_START | H_END => "h"
  | LINK_START | LINK_END => "link"
  | IMG_START | IMG_END => "img"
  | LIST_START | LIST_END => "list"
  | LIST_ORD_START | LIST_ORD_END => "lst-ord"
  | LIST_UNORD_START | LIST_UNORD_END => "lst-unord"
  | ITEM_START | ITEM_END => "item"
  | TABLE_START | TABLE_END => "table"
  | ROW_START | ROW_END => "row"
  | CELL_START | CELL_END => "cell"
  | FORM_START | FORM_END => "form"
  | INPUT_START | INPUT_END => "input"
  | BTN_START | BTN_END => "btn"
  | BOLD_START | BOLD_END => "bold"
  | ITALIC_START | ITALIC_END => "italic"
  | CODE_START | CODE_END => "code"
  | TOP_OF_PAGE_START | TOP_OF_PAGE_END => "top-of-page"
  | MID_PAGE_START | MID_PAGE_END => "mid-page"
  | BOTTOM_OF_PAGE_START | BOTTOM_OF_PAGE_END => "bottom-of-page"
  | _ => EmptyString
  end.

Definition GetSectionType (t : TokenType) : string :=
  match t with
  | TOP_OF_PAGE_START => "top"
  | MID_PAGE_START => "mid"
  | BOTTOM_OF_PAGE_START => "bottom"
  | _ => EmptyString
  end.

Definition IsPageSection (t : TokenType) : bool :=
  match t with
  | TOP_OF_PAGE_START | MID_PAGE_START | BOTTOM_OF_PAGE_START => true
  | _ => false
  end.

End ast.

(** ** Package [parser] *)

Module parser.
Import tokens ast.

Record Parser : Type := mkParser {
  l : lexer.Lexer;
  curToken : Token;
  peekToken : Token;
  errors : list string
}.

Definition addError (msg : string) (p : Parser) : Parser :=
  mkParser (l p) (curToken p) (peekToken p) (errors p ++ [msg]).

Definition isMatchingClose (open close : TokenType) : bool :=
  if (bool_decide (open = LIST_ORD_START) || bool_decide (open = LIST_UNORD_START))
     && (bool_decide (close = LIST_ORD_END) || bool_decide (close = LIST_UNORD_END))
  then true
  else bool_decide (close = GetMatchingClose open).

Section WithLexerFuel.

(** The fuel handed to every loop of the lexer. *)
Variable lf : nat.

Definition nextToken (p : Parser) : option Parser :=
  '(tok, l') ← lexer.NextToken lf (l p);
  Some (mkParser l' (peekToken p) tok (errors p)).

Definition New (l : lexer.Lexer) : option Parser :=
  p ← nextToken (mkParser l zeroToken zeroToken []);
  nextToken p.

(** The loop of [parseArray]; [values] is [arr.Values]. *)
Fixpoint parseArrayLoop (fuel : nat) (p : Parser) (values : list Value)
  : option (list Value * Parser) :=
  match fuel with
  | O => None
  | S f =>
      if bool_decide (Type_ (curToken p) ≠ RBRACKET)
         && bool_decide (Type_ (curToken p) ≠ EOF) then
        match Type_ (curToken p) with
        | STRING =>
            let val := StringValue (curToken p) (Literal (curToken p)) in
            p ← nextToken p;
            parseArrayLoop f p (values ++ [val])
        | NUMBER =>
            let val := NumberValue (curToken p) (Literal (curToken p)) in
            p ← nextToken p;
            parseArrayLoop f p (values ++ [val])
        | DOLLAR =>
            let val := VariableRef (curToken p) (Literal (curToken p)) in
            p ← nextToken p;
            parseArrayLoop f p (values ++ [val])
        | COMMA =>
            p ← nextToken p;
            parseArrayLoop f p values
        | _ =>
            p ← nextToken p;
            parseArrayLoop f p values
        end
      else Some (values, p)
  end.

Definition parseArray (fuel : nat) (p : Parser) : option (Value * Parser) :=
  let tok := curToken p in
  p ← nextToken p;
  '(values, p) ← parseArrayLoop fuel p [];
  p ← (if bool_decide (Type_ (curToken p) = RBRACKET) then nextToken p else Some p);
  Some (ArrayValue tok values, p).

(** [parseValue]; the result [None] is the Go [nil]. *)
Definition parseValue (fuel : nat) (propName : string) (p : Parser)
  : option (option Value * Parser) :=
  match Type_ (curToken p) with
  | STRING =>
      let value := StringValue (curToken p) (Literal (curToken p)) in
      p ← nextToken p;
      Some (Some value, p)
  | NUMBER =>
      let value := NumberValue (curToken p) (Literal (curToken p)) in
      p ← nextToken p;
      Some (Some value, p)
  | DOLLAR =>
      let value := VariableRef (curToken p) (Literal (curToken p)) in
      p ← nextToken p;
      Some (Some value, p)
  | LBRACKET =>
      '(arr, p) ← parseArray fuel p;
      Some (Some arr, p)
  | CODEBLOCK =>
      let value := CodeBlockValue (curToken p) (Literal (curToken p)) in
      p ← nextToken p;
      Some (Some value, p)
  | _ =>
      Some (None,
            addError ("expected value for property " +:+ propName +:+ ", got "
                      +:+ typeString (Type_ (curToken p))) p)
  end.

(** [elem.Properties[name] = value] *)
Definition setProperty (elem : Element) (name : string) (value : Value) : Element :=
  mkElement (ElemToken elem) (TagType elem) (<[name := value]> (Properties elem))
            (Children elem).

(** [elem.Children = append(elem.Children, child)] *)
Definition appendChild (elem : Element) (child : Element) : Element :=
  mkElement (ElemToken elem) (TagType elem) (Properties elem)
            (Children elem ++ [NodeElement child]).

Definition parseProperty (fuel : nat) (elem : Element) (p : Parser)
  : option (Element * Parser) :=
  let propName := Literal (curToken p) in
  p ← nextToken p;
  if bool_decide (Type_ (curToken p) ≠ EQUALS) then
    Some (elem,
          addError ("expected '=' after property name " +:+ propName +:+ ", got "
                    +:+ typeString (Type_ (curToken p))) p)
  else
    p ← nextToken p;
    '(value, p) ← parseValue fuel propName p;
    match value with
    | Some v => Some (setProperty elem propName v, p)
    | None => Some (elem, p)
    end.

(** [parseElement] and the loop in its body; the result [None] of
    [parseElement] is the Go [nil]. *)
Fixpoint parseElement (fuel : nat) (p : Parser) : option (option Element * Parser) :=
  match fuel with
  | O => None
  | S f =>
      if negb (IsOpeningTag (Type_ (curToken p))) then
        p ← nextToken p;
        Some (None, p)
      else
        let elem := mkElement (curToken p) (GetTagName (Type_ (curToken p))) ∅ [] in
        let openingType := Type_ (curToken p) in
        p ← nextToken p;
        '(elem, p) ← parseElementLoop f openingType elem p;
        if isMatchingClose openingType (Type_ (curToken p)) then
          p ← nextToken p;
          Some (Some elem, p)
        else
          Some (Some elem,
                addError ("expected closing tag for element " +:+ TagType elem
                          +:+ " at line " +:+ showInt (Line (ElemToken elem))) p)
  end
with parseElementLoop (fuel : nat) (openingType : TokenType) (elem : Element) (p : Parser)
  : option (Element * Parser) :=
  match fuel with
  | O => None
  | S f =>
      if negb (isMatchingClose openingType (Type_ (curToken p)))
         && bool_decide (Type_ (curToken p) ≠ EOF) then
        if bool_decide (Type_ (curToken p) = IDENT) then
          '(elem, p) ← parseProperty f elem p;
          parseElementLoop f openingType elem p
        else if IsOpeningTag (Type_ (curToken p)) then
          '(child, p) ← parseElement f p;
          let elem := match child with
                      | Some c => appendChild elem c
                      | None => elem
                      end in
          parseElementLoop f openingType elem p
        else
          p ← nextToken p;
          parseElementLoop f openingType elem p
      else Some (elem, p)
  end.

(** The loop of [parsePageSection]; [children] is [section.Children]. *)
Fixpoint parseSectionLoop (fuel : nat) (closingTag : TokenType) (children : list Node)
    (p : Parser) : option (list Node * Parser) :=
  match fuel with
  | O => None
  | S f =>
      if bool_decide (Type_ (curToken p) ≠ closingTag)
         && bool_decide (Type_ (curToken p) ≠ EOF) then
        '(child, p) ← parseElement f p;
        let children := match child with
                        | Some c => children ++ [NodeElement c]
                        | None => children
                        end in
        parseSectionLoop f closingTag children p
      else Some (children, p)
  end.

Definition parsePageSection (fuel : nat) (p : Parser) : option (PageSection * Parser) :=
  let tok := curToken p in
  let type := GetSectionType (Type_ (curToken p)) in
  let closingTag := GetMatchingClose (Type_ (curToken p)) in
  p ← nextToken p;
  '(children, p) ← parseSectionLoop fuel closingTag [] p;
  if bool_decide (Type_ (curToken p) = closingTag) then
    p ← nextToken p;
    Some (mkPageSection tok type children, p)
  else
    Some (mkPageSection tok type children,
          addError ("expected closing tag for section " +:+ type) p).

(** The loop of [ParseDocument]; [sections] is [doc.Sections]. *)
Fixpoint parseDocumentLoop (fuel : nat) (sections : list PageSection) (p : Parser)
  : option (list PageSection * Parser) :=
  match fuel with
  | O => None
  | S f =>
      if bool_decide (Type_ (curToken p) ≠ EOF) then
        if IsPageSection (Type_ (curToken p)) then
          '(section, p) ← parsePageSection f p;
          parseDocumentLoop f (sections ++ [section]) p
        else
          p ← nextToken p;
          parseDocumentLoop f sections p
      else Some (sections, p)
  end.

Definition ParseDocument (fuel : nat) (p : Parser) : option (Document * Parser) :=
  '(sections, p) ← parseDocumentLoop fuel [] p;
  Some (mkDocument sections, p).

End WithLexerFuel.

(** [p.Errors()] *)
Definition Errors (p : Parser) : list string := errors p.

End parser.

(** ** Package [generator] *)

Module generator.
Import tokens ast.

(** The line feed as a string. *)
Definition nl : string := String LF EmptyString.

Record Generator : Type := mkGenerator {
  labels : gmap string Element;
  indent : nat
}.

Definition New : Generator := mkGenerator ∅ 0.

(** [g.labels[name] = elem] *)
Definition setLabel (g : Generator) (name : string) (elem : Element) : Generator :=
  mkGenerator (<[name := elem]> (labels g)) (indent g).

(** [g.indent = n], [g.indent++] and [g.indent--] *)
Definition setIndent (g : Generator) (n : nat) : Generator := mkGenerator (labels g) n.
Definition incIndent (g : Generator) : Generator := setIndent g (indent g + 1).
Definition decIndent (g : Generator) : Generator := setIndent g (indent g - 1).

Fixpoint collectElementLabels (node : Node) (g : Generator) : Generator :=
  match node with
  | NodeOther => g
  | NodeElement elem =>
      let g := match Properties elem !! "label" with
               | Some (StringValue _ v) => setLabel g v elem
               | _ => g
               end in
      fold_left (λ g child, collectElementLabels child g) (Children elem) g
  end.

Definition collectLabels (doc : Document) (g : Generator) : Generator :=
  fold_left (λ g section,
               fold_left (λ g child, collectElementLabels child g)
                         (SecChildren section) g)
            (Sections doc) g.

(** [resolveValue].  The call [g.getStringProp(refElem, "contains")] of the
    variable-reference case is written out (see [getStringProp] below); it and
    the calls on the items of an array are the recursive calls, and each
    takes one unit of [fuel]. *)
Fixpoint resolveValue (fuel : nat) (g : Generator) (val : Value) : option string :=
  match val with
  | StringValue _ v => Some v
  | NumberValue _ v => Some v
  | VariableRef _ name =>
      match labels g !! name with
      | Some refElem =>
          match fuel with
          | O => None
          | S f =>
              match Properties refElem !! "contains" with
              | Some val => resolveValue f g val
              | None => Some EmptyString
              end
          end
      | None => Some ("$" +:+ name)
      end
  | ArrayValue _ values =>
      match fuel with
      | O => None
      | S f =>
          parts ← mapM (resolveValue f g) values;
          Some (Join parts ", ")
      end
  | CodeBlockValue _ _ => Some EmptyString
  end.

Definition getStringProp (fuel : nat) (g : Generator) (elem : Element) (name : string)
  : option string :=
  match Properties elem !! name with
  | Some val => resolveValue fuel g val
  | None => Some EmptyString
  end.

(** One round of the loop of [applyFormatting]. *)
Definition wrapFormat (content format : string) : string :=
  if String.eqb format "bold" then "<strong>" +:+ content +:+ "</strong>"
  else if String.eqb format "italic" then "<em>" +:+ content +:+ "</em>"
  else if String.eqb format "underline" then "<u>" +:+ content +:+ "</u>"
  else if String.eqb format "strike" then "<s>" +:+ content +:+ "</s>"
  else if String.eqb format "code" then "<code>" +:+ content +:+ "</code>"
  else if String.eqb format "mark" then "<mark>" +:+ content +:+ "</mark>"
  else content.

Fixpoint applyFormattingLoop (fuel : nat) (g : Generator) (items : list Value)
    (content : string) : option string :=
  match items with
  | [] => Some content
  | item :: rest =>
      format ← resolveValue fuel g item;
      applyFormattingLoop fuel g rest (wrapFormat content format)
  end.

Definition applyFormatting (fuel : nat) (g : Generator) (elem : Element) (content : string)
  : option string :=
  match Properties elem !! "format_with" with
  | Some (ArrayValue _ values) => applyFormattingLoop fuel g values content
  | _ => Some content
  end.

Definition resolveFontSize (size : string) : string :=
  if String.eqb size "tiny" then "10px"
  else if String.eqb size "small" then "12px"
  else if String.eqb size "normal" then "16px"
  else if String.eqb size "medium" then "20px"
  else if String.eqb size "large" then "24px"
  else if String.eqb size "huge" then "32px"
  else if String.eqb size "giant" then "48px"
  else size.

Definition resolveSpacing (spacing : string) : string :=
  if String.eqb spacing "none" then "0"
  else if String.eqb spacing "tiny" then "4px"
  else if String.eqb spacing "small" then "8px"
  else if String.eqb spacing "medium" then "16px"
  else if String.eqb spacing "large" then "24px"
  else if String.eqb spacing "huge" then "32px"
  else spacing.

Definition resolveBorder (border : string) : string :=
  if String.eqb border "thin" then "1px solid #ccc"
  else if String.eqb border "medium" then "2px solid #999"
  else if String.eqb border "thick" then "3px solid #333"
  else if String.eqb border "none" then "none"
  else border.

Definition resolveRounded (rounded : string) : string :=
  if String.eqb rounded "none" then "0"
  else if String.eqb rounded "small" then "4px"
  else if String.eqb rounded "medium" then "8px"
  else if String.eqb rounded "large" then "16px"
  else if String.eqb rounded "full" then "9999px"
  else if String.eqb rounded "circle" then "50%"
  else rounded.

Definition resolveShadow (shadow : string) : string :=
  if String.eqb shadow "none" then "none"
  else if String.eqb shadow "small"
  then "0 1px 3px rgba(0,0,0,0.12), 0 1px 2px rgba(0,0,0,0.24)"
  else if String.eqb shadow "medium"
  then "0 3px 6px rgba(0,0,0,0.15), 0 2px 4px rgba(0,0,0,0.12)"
  else if String.eqb shadow "large"
  then "0 10px 20px rgba(0,0,0,0.15), 0 3px 6px rgba(0,0,0,0.10)"
  else if String.eqb shadow "huge"
  then "0 15px 25px rgba(0,0,0,0.15), 0 5px 10px rgba(0,0,0,0.05)"
  else shadow.

(** [if v != "" { styles = append(styles, decl(v)) }] *)
Definition addStyle (styles : list string) (v : string) (decl : string → string)
  : list string :=
  if String.eqb v EmptyString then styles else styles ++ [decl v].

(** The slice [styles] that [buildStyleAttr] fills, as it stands before the
    final test of its length. *)
Definition buildStyles (fuel : nat) (g : Generator) (elem : Element)
  : option (list string) :=
  let styles := [] in
  v ← getStringProp fuel g elem "text_color";
  let styles := addStyle styles v (λ v, "color: " +:+ v) in
  v ← getStringProp fuel g elem "color";
  let styles := addStyle styles v (λ v, "color: " +:+ v) in
  v ← getStringProp fuel g elem "bg_color";
  let styles := addStyle styles v (λ v, "background-color: " +:+ v) in
  v ← getStringProp fuel g elem "background";
  let styles := addStyle styles v
                  (λ v, if Contains v "gradient" || Contains v "url("
                        then "background: " +:+ v
                        else "background-color: " +:+ v) in
  v ← getStringProp fuel g elem "text_size";
  let styles := addStyle styles v (λ v, "font-size: " +:+ resolveFontSize v) in
  v ← getStringProp fuel g elem "font";
  let styles := addStyle styles v (λ v, "font-family: " +:+ v) in
  v ← getStringProp fuel g elem "align";
  let styles := addStyle styles v (λ v, "text-align: " +:+ v) in
  v ← getStringProp fuel g elem "padding";
  let styles := addStyle styles v (λ v, "padding: " +:+ resolveSpacing v) in
  v ← getStringProp fuel g elem "margin";
  let styles := addStyle styles v (λ v, "margin: " +:+ resolveSpacing v) in
  v ← getStringProp fuel g elem "border";
  let styles := addStyle styles v (λ v, "border: " +:+ resolveBorder v) in
  v ← getStringProp fuel g elem "rounded";
  let styles := addStyle styles v (λ v, "border-radius: " +:+ resolveRounded v) in
  v ← getStringProp fuel g elem "shadow";
  let styles := addStyle styles v (λ v, "box-shadow: " +:+ resolveShadow v) in
  v ← getStringProp fuel g elem "width";
  let styles := addStyle styles v (λ v, "width: " +:+ v) in
  v ← getStringProp fuel g elem "height";
  let styles := addStyle styles v (λ v, "height: " +:+ v) in
  v ← getStringProp fuel g elem "line_spacing";
  let styles := addStyle styles v (λ v, "line-height: " +:+ v) in
  v ← getStringProp fuel g elem "display";
  let styles := addStyle styles v (λ v, "display: " +:+ v) in
  v ← getStringProp fuel g elem "center_content";
  let styles := if String.eqb v "true"
                then styles ++ ["display: flex"; "justify-content: center";
                                "align-items: center"]
                else styles in
  Some styles.

Definition buildStyleAttr (fuel : nat) (g : Generator) (elem : Element) : option string :=
  styles ← buildStyles fuel g elem;
  if (length styles =? 0)%nat then Some EmptyString
  else Some (" style=" +:+ dq +:+ Join styles "; " +:+ ";" +:+ dq).

(** [idAttr := ""; if id != "" { idAttr = fmt.Sprintf(" id=\"%s\"", id) }] *)
Definition idAttrOf (id : string) : string :=
  if String.eqb id EmptyString then EmptyString else " id=" +:+ dq +:+ id +:+ dq.

Definition escapeHTML (s : string) : string :=
  let s := ReplaceAll s "&" "&amp;" in
  let s := ReplaceAll s "<" "&lt;" in
  let s := ReplaceAll s ">" "&gt;" in
  let s := ReplaceAll s dq "&quot;" in
  s.

Section Render.

(** The fuel of [resolveValue]. *)
Variable fuel : nat.

(** [generateNode], which the renderers of the container elements call on
    their children. *)
Variable generateNode : Node → Generator → option (string * Generator).

(** [for _, child := range children { sb.WriteString(g.generateNode(child)) }] *)
Fixpoint generateChildren (children : list Node) (g : Generator)
  : option (string * Generator) :=
  match children with
  | [] => Some (EmptyString, g)
  | child :: rest =>
      '(s, g) ← generateNode child g;
      '(s', g) ← generateChildren rest g;
      Some (s +:+ s', g)
  end.

Definition generateDiv (elem : Element) (indent : string) (g : Generator)
  : option (string * Generator) :=
  id ← getStringProp fuel g elem "label";
  class ← getStringProp fuel g elem "class";
  styleAttr ← buildStyleAttr fuel g elem;
  let open := indent +:+ "<div"
              +:+ (if String.eqb id EmptyString then EmptyString
                   else " id=" +:+ dq +:+ id +:+ dq)
              +:+ (if String.eqb class EmptyString then EmptyString
                   else " class=" +:+ dq +:+ class +:+ dq)
              +:+ styleAttr +:+ ">" +:+ nl in
  let g := incIndent g in
  '(body, g) ← generateChildren (Children elem) g;
  let g := decIndent g in
  Some (open +:+ body +:+ indent +:+ "</div>" +:+ nl, g).

Definition generateParagraph (elem : Element) (indent : string) (g : Generator)
  : option string :=
  content ← getStringProp fuel g elem "contains";
  id ← getStringProp fuel g elem "label";
  content ← applyFormatting fuel g elem content;
  let idAttr := idAttrOf id in
  styleAttr ← buildStyleAttr fuel g elem;
  Some (indent +:+ "<p" +:+ idAttr +:+ styleAttr +:+ ">" +:+ content +:+ "</p>" +:+ nl).

Definition generateHeading (elem : Element) (indent : string) (g : Generator)
  : option string :=
  content ← getStringProp fuel g elem "contains";
  id ← getStringProp fuel g elem "label";
  size ← getStringProp fuel g elem "size";
  level ← getStringProp fuel g elem "level";
  content ← applyFormatting fuel g elem content;
  let level := if String.eqb level EmptyString then "1" else level in
  styleAttr ← buildStyleAttr fuel g elem;
  let styleAttr :=
    if negb (String.eqb size EmptyString) && String.eqb styleAttr EmptyString then
      " style=" +:+ dq +:+ "font-size: " +:+ size +:+ ";" +:+ dq
    else if negb (String.eqb size EmptyString) then
      let styleAttr := TrimSuffix styleAttr dq in
      styleAttr +:+ ("; font-size: " +:+ size +:+ ";" +:+ dq)
    else styleAttr in
  let idAttr := idAttrOf id in
  Some (indent +:+ "<h" +:+ level +:+ idAttr +:+ styleAttr +:+ ">" +:+ content
        +:+ "</h" +:+ level +:+ ">" +:+ nl).

Definition generateLink (elem : Element) (indent : string) (g : Generator)
  : option string :=
  content ← getStringProp fuel g elem "contains";
  href ← getStringProp fuel g elem "link_url";
  href ← (if String.eqb href EmptyString then getStringProp fuel g elem "href"
          else Some href);
  id ← getStringProp fuel g elem "label";
  let idAttr := idAttrOf id in
  Some (indent +:+ "<a href=" +:+ dq +:+ href +:+ dq +:+ idAttr +:+ ">" +:+ content
        +:+ "</a>" +:+ nl).

Definition generateImage (elem : Element) (indent : string) (g : Generator)
  : option string :=
  src ← getStringProp fuel g elem "src";
  alt ← getStringProp fuel g elem "alt";
  id ← getStringProp fuel g elem "label";
  let idAttr := idAttrOf id in
  Some (indent +:+ "<img src=" +:+ dq +:+ src +:+ dq +:+ " alt=" +:+ dq +:+ alt +:+ dq
        +:+ idAttr +:+ ">" +:+ nl).

(** The loop of [generateList] over the values of the property [items]. *)
Fixpoint generateItems (g : Generator) (childIndent : string) (items : list Value)
  : option string :=
  match items with
  | [] => Some EmptyString
  | item :: rest =>
      itemContent ← resolveValue fuel g item;
      s ← generateItems g childIndent rest;
      Some (childIndent +:+ "<li>" +:+ itemContent +:+ "</li>" +:+ nl +:+ s)
  end.

Definition generateList (elem : Element) (indent : string) (ordered : bool) (g : Generator)
  : option (string * Generator) :=
  let tag := if ordered then "ol" else "ul" in
  listType ← getStringProp fuel g elem "type";
  let tag := if String.eqb listType "ordered" then "ol"
             else if String.eqb listType "unordered" then "ul"
             else tag in
  id ← getStringProp fuel g elem "label";
  let idAttr := idAttrOf id in
  let open := indent +:+ "<" +:+ tag +:+ idAttr +:+ ">" +:+ nl in
  let g := incIndent g in
  let childIndent := Repeat "  " (generator.indent g) in
  items ← match Properties elem !! "items" with
          | Some (ArrayValue _ values) => generateItems g childIndent values
          | _ => Some EmptyString
          end;
  '(body, g) ← generateChildren (Children elem) g;
  let g := decIndent g in
  Some (open +:+ items +:+ body +:+ indent +:+ "</" +:+ tag +:+ ">" +:+ nl, g).

Definition generateListItem (elem : Element) (indent : string) (g : Generator)
  : option string :=
  content ← getStringProp fuel g elem "contains";
  Some (indent +:+ "<li>" +:+ content +:+ "</li>" +:+ nl).

Definition generateTable (elem : Element) (indent : string) (g : Generator)
  : option (string * Generator) :=
  id ← getStringProp fuel g elem "label";
  let idAttr := idAttrOf id in
  let open := indent +:+ "<table" +:+ idAttr +:+ ">" +:+ nl in
  let g := incIndent g in
  '(body, g) ← generateChildren (Children elem) g;
  let g := decIndent g in
  Some (open +:+ body +:+ indent +:+ "</table>" +:+ nl, g).

Definition generateRow (elem : Element) (indent : string) (g : Generator)
  : option (string * Generator) :=
  let open := indent +:+ "<tr>" +:+ nl in
  let g := incIndent g in
  '(body, g) ← generateChildren (Children elem) g;
  let g := decIndent g in
  Some (open +:+ body +:+ indent +:+ "</tr>" +:+ nl, g).

Definition generateCell (elem : Element) (indent : string) (g : Generator)
  : option string :=
  content ← getStringProp fuel g elem "contains";
  Some (indent +:+ "<td>" +:+ content +:+ "</td>" +:+ nl).

Definition generateForm (elem : Element) (indent : string) (g : Generator)
  : option (string * Generator) :=
  action ← getStringProp fuel g elem "action";
  id ← getStringProp fuel g elem "label";
  let idAttr := idAttrOf id in
  let open := indent +:+ "<form action=" +:+ dq +:+ action +:+ dq +:+ idAttr
              +:+ ">" +:+ nl in
  let g := incIndent g in
  '(body, g) ← generateChildren (Children elem) g;
  let g := decIndent g in
  Some (open +:+ body +:+ indent +:+ "</form>" +:+ nl, g).

Definition generateInput (elem : Element) (indent : string) (g : Generator)
  : option string :=
  inputType ← getStringProp fuel g elem "type";
  name ← getStringProp fuel g elem "name";
  id ← getStringProp fuel g elem "label";
  let idAttr := idAttrOf id in
  let inputType := if String.eqb inputType EmptyString then "text" else inputType in
  Some (indent +:+ "<input type=" +:+ dq +:+ inputType +:+ dq +:+ " name=" +:+ dq
        +:+ name +:+ dq +:+ idAttr +:+ ">" +:+ nl).

Definition generateButton (elem : Element) (indent : string) (g : Generator)
  : option string :=
  content ← getStringProp fuel g elem "contains";
  id ← getStringProp fuel g elem "label";
  let idAttr := idAttrOf id in
  Some (indent +:+ "<button" +:+ idAttr +:+ ">" +:+ content +:+ "</button>" +:+ nl).

Definition generateBold (elem : Element) (indent : string) (g : Generator)
  : option string :=
  content ← getStringProp fuel g elem "contains";
  Some (indent +:+ "<strong>" +:+ content +:+ "</strong>" +:+ nl).

Definition generateItalic (elem : Element) (indent : string) (g : Generator)
  : option string :=
  content ← getStringProp fuel g elem "contains";
  Some (indent +:+ "<em>" +:+ content +:+ "</em>" +:+ nl).

Definition generateCode (elem : Element) (indent : string) (g : Generator)
  : option string :=
  linkedFile ← getStringProp fuel g elem "linked_file";
  fileType ← getStringProp fuel g elem "file_type";
  let codeContent := match Properties elem !! "syntax" with
                     | Some (CodeBlockValue _ content) => content
                     | _ => EmptyString
                     end in
  let langClass := if String.eqb fileType EmptyString then EmptyString
                   else " class=" +:+ dq +:+ "language-" +:+ fileType +:+ dq in
  Some (indent +:+ "<pre><code" +:+ langClass +:+ ">"
        +:+ (if String.eqb linkedFile EmptyString then EmptyString
             else "/* File: " +:+ linkedFile +:+ " */" +:+ nl)
        +:+ (if String.eqb codeContent EmptyString then EmptyString
             else escapeHTML codeContent)
        +:+ "</code></pre>" +:+ nl).

(** A renderer that leaves the generator as it found it. *)
Definition pure (r : option string) (g : Generator) : option (string * Generator) :=
  s ← r; Some (s, g).

Definition generateElement (elem : Element) (g : Generator)
  : option (string * Generator) :=
  let indent := Repeat "  " (generator.indent g) in
  let tag := TagType elem in
  if String.eqb tag "divide" then generateDiv elem indent g
  else if String.eqb tag "p" then pure (generateParagraph elem indent g) g
  else if String.eqb tag "h" then pure (generateHeading elem indent g) g
  else if String.eqb tag "link" then pure (generateLink elem indent g) g
  else if String.eqb tag "img" then pure (generateImage elem indent g) g
  else if String.eqb tag "list" then generateList elem indent false g
  else if String.eqb tag "olist" then generateList elem indent true g
  else if String.eqb tag "lst-ord" then generateList elem indent true g
  else if String.eqb tag "lst-unord" then generateList elem indent false g
  else if String.eqb tag "item" then pure (generateListItem elem indent g) g
  else if String.eqb tag "table" then generateTable elem indent g
  else if String.eqb tag "row" then generateRow elem indent g
  else if String.eqb tag "cell" then pure (generateCell elem indent g) g
  else if String.eqb tag "form" then generateForm elem indent g
  else if String.eqb tag "input" then pure (generateInput elem indent g) g
  else if String.eqb tag "btn" then pure (generateButton elem indent g) g
  else if String.eqb tag "bold" then pure (generateBold elem indent g) g
  else if String.eqb tag "italic" then pure (generateItalic elem indent g) g
  else if String.eqb tag "code" then pure (generateCode elem indent g) g
  else Some (EmptyString, g).

End Render.

Fixpoint generateNode (fuel : nat) (node : Node) (g : Generator) {struct node}
  : option (string * Generator) :=
  match node with
  | NodeOther => Some (EmptyString, g)
  | NodeElement elem => generateElement fuel (generateNode fuel) elem g
  end.

Definition generateSection (fuel : nat) (section : PageSection) (g : Generator)
  : option (string * Generator) :=
  let className := SecType section +:+ "-of-page" in
  let className := if String.eqb (SecType section) "mid" then "mid-page" else className in
  let open := "  <div class=" +:+ dq +:+ className +:+ dq +:+ ">" +:+ nl in
  let g := setIndent g 2 in
  '(body, g) ← generateChildren (generateNode fuel) (SecChildren section) g;
  Some (open +:+ body +:+ "  </div>" +:+ nl, g).

(** [for _, section := range doc.Sections { sb.WriteString(g.generateSection(section)) }] *)
Fixpoint generateSections (fuel : nat) (sections : list PageSection) (g : Generator)
  : option (string * Generator) :=
  match sections with
  | [] => Some (EmptyString, g)
  | section :: rest =>
      '(s, g) ← generateSection fuel section g;
      '(s', g) ← generateSections fuel rest g;
      Some (s +:+ s', g)
  end.

Definition Generate (fuel : nat) (doc : Document) (g : Generator)
  : option (string * Generator) :=
  let g := collectLabels doc g in
  '(body, g) ← generateSections fuel (Sections doc) g;
  Some ("<!DOCTYPE html>" +:+ nl
        +:+ "<html>" +:+ nl
        +:+ "<head>" +:+ nl
        +:+ "  <title>LPML Document</title>" +:+ nl
        +:+ "  <style>" +:+ nl
        +:+ "    .top-of-page { }" +:+ nl
        +:+ "    .mid-page { }" +:+ nl
        +:+ "    .bottom-of-page { }" +:+ nl
        +:+ "  </style>" +:+ nl
        +:+ "</head>" +:+ nl
        +:+ "<body>" +:+ nl
        +:+ body
        +:+ "</body>" +:+ nl
        +:+ "</html>" +:+ nl, g).

End generator.

(** ** Program [main] *)

Module main.
Import tokens ast.

(** What a run of [main] ends with: the usage text and exit status 1, one
    of the two fatal errors, the parsing errors and exit status 1, or the
    call of [os.WriteFile] with the name of the output file and the HTML. *)
Inductive Outcome : Type :=
  | Usage
  | InvalidFileType
  | ReadFailed
  | ParsingErrors (errs : list string)
  | WriteFile (outputFile html : string).

Definition checkFileType (filename : string) : bool := HasSuffix filename ".lpml".

(** [main], with [args] for [os.Args] and [readFile] for [os.ReadFile]; what
    it prints is left out.  [lf] and [fuel] bound the loops of the lexer and
    of the parser, [gfuel] the recursion of [resolveValue]. *)
Definition main (lf fuel gfuel : nat) (args : list string)
    (readFile : string → option string) : option Outcome :=
  if (length args <? 2)%nat then Some Usage
  else
    let inputFile := nth 1 args EmptyString in
    if negb (checkFileType inputFile) then Some InvalidFileType
    else
      let outputFile := TrimSuffix inputFile ".lpml" +:+ ".html" in
      let outputFile := if (3 <=? length args)%nat then nth 2 args EmptyString
                        else outputFile in
      match readFile inputFile with
      | None => Some ReadFailed
      | Some content =>
          let l := lexer.New content in
          p ← parser.New lf l;
          '(doc, p) ← parser.ParseDocument lf fuel p;
          if (0 <? length (parser.Errors p))%nat
          then Some (ParsingErrors (parser.Errors p))
          else
            let gen := generator.New in
            '(html, _) ← generator.Generate gfuel doc gen;
            Some (WriteFile outputFile html)
      end.

End main.

(** ** Definitions that follow the words of the specification

    Each definition of this module restates a rule of the specification so
    that the code above can be compared with it. *)

Module Spec.
Import tokens ast.

(** "Whitespace (spaces, tabs, carriage returns, and newlines)". *)
Definition whitespace (c : ascii) : bool :=
  Ascii.eqb c SPACE || Ascii.eqb c TAB || Ascii.eqb c CR || Ascii.eqb c LF.

(** "a [ character starts an array literal if and only if the immediately
    following character is a digit, $, a double quote, ], or whitespace". *)
Definition arrayStart (next : ascii) : bool :=
  lexer.isDigit next || Ascii.eqb next "$" || Ascii.eqb next DQUOTE
  || Ascii.eqb next "]" || whitespace next.

(** "bold->strong, italic->em, underline->u, strike->s, code->code,
    mark->mark; unrecognized format names are ignored". *)
Definition formatTag (name : string) : option string :=
  if String.eqb name "bold" then Some "strong"
  else if String.eqb name "italic" then Some "em"
  else if String.eqb name "underline" then Some "u"
  else if String.eqb name "strike" then Some "s"
  else if String.eqb name "code" then Some "code"
  else if String.eqb name "mark" then Some "mark"
  else None.

(** One layer of inline markup around [inner]. *)
Definition layer (name inner : string) : string :=
  match formatTag name with
  | Some tag => "<" +:+ tag +:+ ">" +:+ inner +:+ "</" +:+ tag +:+ ">"
  | None => inner
  end.

(** The nesting of layers, the outermost layer first. *)
Fixpoint nest (outerFirst : list string) (content : string) : string :=
  match outerFirst with
  | [] => content
  | name :: inner => layer name (nest inner content)
  end.

(** The elements of a subtree in depth-first order, a parent before its
    children. *)
Fixpoint elementsOf (node : Node) : list Element :=
  match node with
  | NodeOther => []
  | NodeElement elem => elem :: concat (map elementsOf (Children elem))
  end.

(** The elements of a document in the order of the traversal. *)
Definition docElements (doc : Document) : list Element :=
  concat (map (λ section, concat (map elementsOf (SecChildren section)))
              (Sections doc)).

(** An element "declaring label = name". *)
Definition declares (name : string) (elem : Element) : bool :=
  match Properties elem !! "label" with
  | Some (StringValue _ v) => String.eqb v name
  | _ => false
  end.

(** The last element of a list that satisfies [f]. *)
Fixpoint findLast {A} (f : A → bool) (xs : list A) : option A :=
  match xs with
  | [] => None
  | x :: rest =>
      match findLast f rest with
      | Some y => Some y
      | None => if f x then Some x else None
      end
  end.

(** What a lookup finds once the elements [visited] have been registered on
    top of a registry in which the lookup found [before]: "overwriting any
    prior entry for that name". *)
Definition registered (name : string) (visited : list Element) (before : option Element)
  : option Element :=
  match findLast (declares name) visited with
  | Some e => Some e
  | None => before
  end.

(** The "fixed, ordered list of recognized style property names". *)
Definition styleProperties : list string :=
  [ "text_color"; "color"; "bg_color"; "background"; "text_size"; "font";
    "align"; "padding"; "margin"; "border"; "rounded"; "shadow"; "width";
    "height"; "line_spacing"; "display"; "center_content" ].

(** The escaping of one byte: "the characters &, <, > and double quote". *)
Definition escapeByte (c : ascii) : string :=
  if Ascii.eqb c "&" then "&amp;"
  else if Ascii.eqb c "<" then "&lt;"
  else if Ascii.eqb c ">" then "&gt;"
  else if Ascii.eqb c DQUOTE then "&quot;"
  else String c EmptyString.

(** A string rewritten byte by byte. *)
Fixpoint mapBytes (f : ascii → string) (s : string) : string :=
  match s with
  | EmptyString => EmptyString
  | String c rest => f c +:+ mapBytes f rest
  end.

Definition escapeBytes (s : string) : string := mapBytes escapeByte s.

(** C2 as the specification words it: the abandoned property attempt has consumed
    the property name and the unexpected token, so the parser stands where
    two calls of [nextToken] lead, with the element as it was. *)
Definition consumesNameAndUnexpected (lf fuel : nat) (elem : Element)
    (p : parser.Parser) : Prop :=
  ∃ p1 p2 r,
    parser.nextToken lf p = Some p1
    ∧ parser.nextToken lf p1 = Some p2
    ∧ parser.parseProperty lf fuel elem p = Some (elem, r)
    ∧ parser.curToken r = parser.curToken p2
    ∧ parser.peekToken r = parser.peekToken p2
    ∧ parser.l r = parser.l p2.

(** The bytes the lexer has not read yet, the current one included; none
    once the current byte is NUL, where every loop of the lexer stops. *)
Definition bytesLeft (l : lexer.Lexer) : nat :=
  if Ascii.eqb (lexer.ch l) NUL then 0
  else S (String.length (lexer.input l) - lexer.readPosition l).

(** A token that is still to be consumed: any token but EOF. *)
Definition pending (t : Token) : nat :=
  if bool_decide (Type_ t = EOF) then 0 else 1.

(** What the parser has still to consume: its two buffered tokens and the
    bytes behind them. *)
Definition workLeft (p : parser.Parser) : nat :=
  pending (parser.curToken p) + pending (parser.peekToken p)
  + bytesLeft (parser.l p).

(** "a format_with array property, when present on a text-bearing element,
    wraps the already-resolved content string in nested inline tags, one
    layer per recognized format name, applied in array order": the output
    [out] of the element holds its [contains] text in the layers of its
    formats, the first entry of the array innermost. *)
Definition formatted (fuel : nat) (g : generator.Generator) (elem : Element)
    (out : string) : Prop :=
  ∃ tok values names content,
    Properties elem !! "format_with" = Some (ArrayValue tok values)
    ∧ mapM (generator.resolveValue fuel g) values = Some names
    ∧ generator.getStringProp fuel g elem "contains" = Some content
    ∧ Contains out (nest (rev names) content) = true.


End Spec.

(** ** Sample inputs *)

Module Samples.
Import tokens ast.

(** A bracket followed by a Windows line ending: [ CR LF 1 ]. *)
Definition crlfArray : string :=
  "[" +:+ String CR (String LF EmptyString) +:+ "1]".

(** A property name that is followed by another property. *)
Definition missingEquals : string :=
  "[mid-page-start] [p-start] a b = " +:+ dq +:+ "x" +:+ dq
  +:+ " [p-end] [mid-page-end]".

(** A paragraph whose text refers to its own label. *)
Definition selfReference : string :=
  "[mid-page-start] [p-start] label = " +:+ dq +:+ "a" +:+ dq
  +:+ " contains = $a [p-end] [mid-page-end]".

(** The document that [selfReference] parses to. *)
Definition selfReferenceParagraph : Element :=
  mkElement (mkToken P_START "p-start" 1 18) "p"
    (<["contains" := VariableRef (mkToken DOLLAR "a" 1 51) "a"]>
       (<["label" := StringValue (mkToken STRING "a" 1 39) "a"]> ∅))
    [].

Definition selfReferenceDocument : Document :=
  mkDocument
    [ mkPageSection (mkToken MID_PAGE_START "mid-page-start" 1 1) "mid"
        [NodeElement selfReferenceParagraph] ].


(** Lexing and parsing with the same fuel for every loop. *)
Definition parse (fuel : nat) (src : string) : option (Document * parser.Parser) :=
  p ← parser.New fuel (lexer.New src);
  parser.ParseDocument fuel fuel p.

(** The parser on [src] after [k] further calls of [nextToken]. *)
Fixpoint advance (fuel k : nat) (p : parser.Parser) : option parser.Parser :=
  match k with
  | O => Some p
  | S k' => p ← parser.nextToken fuel p; advance fuel k' p
  end.

Definition parserAt (fuel : nat) (src : string) (k : nat) : option parser.Parser :=
  p ← parser.New fuel (lexer.New src);
  advance fuel k p.

(** A parser that has read nothing. *)
Definition idle : parser.Parser :=
  parser.mkParser (lexer.New EmptyString) zeroToken zeroToken [].

(** The parser on [missingEquals] with the property name [a] as its current
    token (and [b] as the next), and one token further. *)
Definition atName : parser.Parser :=
  Eval vm_compute in default idle (parserAt 50 missingEquals 2).

Definition afterName : parser.Parser :=
  Eval vm_compute in default idle (parserAt 50 missingEquals 3).

(** The paragraph element as [parseElement] has it when it meets [a]. *)
Definition emptyParagraph : Element :=
  mkElement (mkToken P_START "p-start" 1 18) "p" ∅ [].

(** A paragraph with the text X and the formats bold and mark. *)
Definition boldMarkParagraph : Element :=
  mkElement zeroToken "p"
    (<["format_with" := ArrayValue zeroToken
                          [StringValue zeroToken "bold"; StringValue zeroToken "mark"]]>
       (<["contains" := StringValue zeroToken "X"]> ∅))
    [].

(** A heading with a size and a colour. *)
Definition sizedHeading : Element :=
  mkElement zeroToken "h"
    (<["size" := StringValue zeroToken "20px"]>
       (<["color" := StringValue zeroToken "red"]>
          (<["contains" := StringValue zeroToken "Title"]> ∅)))
    [].

(** A heading with a label and two paragraphs that refer to labels, the
    second to one that no element declares. *)
Definition linked : string :=
  "[top-of-page-start] [h-start] label = " +:+ dq +:+ "t" +:+ dq
  +:+ " contains = " +:+ dq +:+ "Title" +:+ dq +:+ " [h-end] [top-of-page-end]"
  +:+ "[mid-page-start] [divide-start] [p-start] contains = $t [p-end]"
  +:+ " [p-start] contains = $u [p-end] [divide-end] [mid-page-end]".

(** The document of an input, empty when the input does not parse. *)
Definition documentOf (src : string) : Document :=
  match parse 200 src with
  | Some (doc, _) => doc
  | None => mkDocument []
  end.

(** A paragraph and a code block whose texts hold markup characters. *)
Definition markupParagraph : Element :=
  mkElement zeroToken "p"
    (<["contains" := StringValue zeroToken "a <b> & c"]> ∅) [].

Definition markupCode : Element :=
  mkElement zeroToken "code"
    (<["syntax" := CodeBlockValue zeroToken "a <b> & c"]> ∅) [].

(** A button with the text X and the format bold. *)
Definition boldButton : Element :=
  mkElement zeroToken "btn"
    (<["format_with" := ArrayValue zeroToken [StringValue zeroToken "bold"]]>
       (<["contains" := StringValue zeroToken "X"]> ∅))
    [].

(** A heading without a level and a link with an [href], their texts that
    of [markupParagraph]. *)
Definition markupHeading : Element :=
  mkElement zeroToken "h"
    (<["contains" := StringValue zeroToken "a <b> & c"]> ∅) [].

Definition markupLink : Element :=
  mkElement zeroToken "link"
    (<["href" := StringValue zeroToken "x"]>
       (<["contains" := StringValue zeroToken "a <b> & c"]> ∅))
    [].

End Samples.

Import tokens ast.

(** ** Measures of progress *)

(** The lexer as [New] and [readChar] leave it: the read position is one
    past the position, the position is within the input or at its end, and
    the current byte is the byte at the position (NUL at the end). *)
Definition wellFormed (l : lexer.Lexer) : Prop :=
  lexer.readPosition l = S (lexer.position l)
  ∧ lexer.position l ≤ String.length (lexer.input l)
  ∧ lexer.ch l = byteAt (lexer.input l) (lexer.position l).

(** The lexer [l'] comes after [l] on the same input: it is well formed and
    at the same or a later position, with no more bytes left. *)
Definition follows (l l' : lexer.Lexer) : Prop :=
  wellFormed l'
  ∧ lexer.input l' = lexer.input l
  ∧ lexer.position l ≤ lexer.position l'
  ∧ Spec.bytesLeft l' ≤ Spec.bytesLeft l.

(** What a call that reads one token from the lexer [l] gives: a token and a
    well-formed lexer, with the token paid for by the bytes read; the
    end-of-input token comes with a lexer whose current byte is NUL. *)
Definition scanned (l : lexer.Lexer) (r : option (Token * lexer.Lexer)) : Prop :=
  ∃ tok l', r = Some (tok, l')
            ∧ wellFormed l'
            ∧ Spec.pending tok + Spec.bytesLeft l' ≤ Spec.bytesLeft l
            ∧ (Type_ tok = EOF → lexer.ch l' = NUL).

(** The lexer of [p] is well formed and has fuel [lf] for all the bytes it
    has left. *)
Definition fuelled (lf : nat) (p : parser.Parser) : Prop :=
  wellFormed (parser.l p) ∧ Spec.bytesLeft (parser.l p) < lf.

(** The parser [p'] is no further from the end of the input than [p]. *)
Definition advanced (p p' : parser.Parser) : Prop :=
  Spec.workLeft p' ≤ Spec.workLeft p
  ∧ Spec.bytesLeft (parser.l p') ≤ Spec.bytesLeft (parser.l p)
  ∧ wellFormed (parser.l p').

(** The parser [p'] is nearer to the end of the input than [p]: at least one
    token was consumed on the way. *)
Definition consumed (p p' : parser.Parser) : Prop :=
  Spec.workLeft p' < Spec.workLeft p
  ∧ Spec.bytesLeft (parser.l p') ≤ Spec.bytesLeft (parser.l p)
  ∧ wellFormed (parser.l p').

(** The result [r'] extends [r]: where the run with less fuel returns, the
    run with more fuel returns the same. *)
Definition below {A} (r r' : option A) : Prop := ∀ a, r = Some a → r' = Some a.

(** ** Notions for the properties of the lexer *)

(** The lexer [l'] is reached from [l] by calls of [readChar], each on a
    current byte other than NUL. *)
Inductive reads (l : lexer.Lexer) : lexer.Lexer → Prop :=
  | reads_here : reads l l
  | reads_next l' : reads l l' → lexer.ch l' ≠ NUL → reads l (lexer.readChar l').

(** The types of the tokens that the [switch] of [NextToken] gives, by the
    current byte. *)
Definition typeAt (c : ascii) (t : TokenType) : Prop :=
  if Ascii.eqb c "[" then t = LBRACKET ∨ t = IDENT ∨ IsOpeningTag t = true
                          ∨ (IsClosingTag t = true ∧ t ≠ LIST_UNORD_END)
  else if Ascii.eqb c "]" then t = RBRACKET
  else if Ascii.eqb c "=" then t = EQUALS
  else if Ascii.eqb c "," then t = COMMA
  else if Ascii.eqb c "{" then t = CODEBLOCK
  else if Ascii.eqb c "$" then t = DOLLAR
  else if Ascii.eqb c DQUOTE then t = STRING
  else if Ascii.eqb c LF then t = NEWLINE
  else if Ascii.eqb c NUL then t = EOF
  else if lexer.isDigit c then t = NUMBER
  else if lexer.isLetter c || Ascii.eqb c "_" then t = IDENT
  else t = ILLEGAL.

(** The bytes the lexer has read, the current one last; the byte read at
    the end of the input is NUL. *)
Definition bytesRead (l : lexer.Lexer) : list ascii :=
  map (byteAt (lexer.input l)) (seq 0 (S (lexer.position l))).

(** The line and the column of the lexer are those of its current byte:
    the line is one more than the number of newlines read, and the column
    is the number of bytes read after the last newline. *)
Definition located (l : lexer.Lexer) : Prop :=
  lexer.line l = S (length (filter (λ c, c = LF) (bytesRead l)))
  ∧ ∃ above rest,
      bytesRead l = above ++ rest
      ∧ (LF ∉ rest)
      ∧ (above = [] ∨ last above = Some LF)
      ∧ lexer.column l = length rest.

(** The lexer stands in its input between [pre], the bytes before the
    current one, and [rest], which the current byte begins. *)
Definition standsAt (l : lexer.Lexer) (pre rest : string) : Prop :=
  wellFormed l
  ∧ lexer.input l = pre +:+ rest
  ∧ lexer.position l = String.length pre.

(** Every byte of [s] passes the test [f]. *)
Fixpoint allBytes (f : ascii → bool) (s : string) : bool :=
  match s with
  | EmptyString => true
  | String c rest => f c && allBytes f rest
  end.

(** The bytes that [trimTrailingWhitespace] drops and that [readCodeBlock]
    skips behind the opening brace. *)
Definition isBlank (c : ascii) : bool :=
  Ascii.eqb c SPACE || Ascii.eqb c TAB || Ascii.eqb c LF || Ascii.eqb c CR.

(** The last byte of [s] is not blank, or [s] is empty. *)
Definition endsUnblank (s : string) : Prop :=
  s = EmptyString ∨ isBlank (byteAt s (String.length s - 1)) = false.

(** The count of open braces after the bytes of [body], when the loop of
    [readCodeBlock] enters them with [count] open braces; [None] when the
    loop stops inside [body], at a NUL byte or at the brace that closes the
    block. *)
Fixpoint openAfter (count : nat) (body : string) : option nat :=
  match body with
  | EmptyString => Some count
  | String c rest =>
      if Ascii.eqb c NUL then None
      else if Ascii.eqb c "{" then openAfter (count + 1) rest
      else if Ascii.eqb c "}" then
        if (count - 1 =? 0)%nat then None else openAfter (count - 1) rest
      else openAfter count rest
  end.

(** ** Notions for the properties of the parser *)

(** A value that is a string, a number or a variable reference. *)
Definition scalar (v : Value) : Prop :=
  match v with
  | StringValue _ _ | NumberValue _ _ | VariableRef _ _ => True
  | _ => False
  end.

(** A value as [parseValue] builds it: a scalar, a code block, or an array
    of scalars. *)
Definition flat (v : Value) : Prop :=
  match v with
  | ArrayValue _ values => Forall scalar values
  | _ => True
  end.

(** An element as [parseElement] builds it, with its subtree: its token is
    an opening tag, its tag name is the name of that tag, its property
    values are flat, and its children are such elements. *)
Inductive parsedNode : Node → Prop :=
  | parsed_element (e : Element) :
      IsOpeningTag (Type_ (ElemToken e)) = true
      → TagType e = GetTagName (Type_ (ElemToken e))
      → map_Forall (λ _ v, flat v) (Properties e)
      → Forall parsedNode (Children e)
      → parsedNode (NodeElement e).

(** A section as [parsePageSection] builds it. *)
Definition parsedSection (s : PageSection) : Prop :=
  IsPageSection (Type_ (SecToken s)) = true
  ∧ SecType s = GetSectionType (Type_ (SecToken s))
  ∧ Forall parsedNode (SecChildren s).

(** The element that the loop of [parseElement] fills. *)
Definition filling (e : Element) : Prop :=
  IsOpeningTag (Type_ (ElemToken e)) = true
  ∧ TagType e = GetTagName (Type_ (ElemToken e))
  ∧ map_Forall (λ _ v, flat v) (Properties e)
  ∧ Forall parsedNode (Children e).

(** A parser over an input without an opening bracket, before any error:
    neither of its two tokens opens a page section. *)
Definition tagless (p : parser.Parser) : Prop :=
  wellFormed (parser.l p)
  ∧ allBytes (λ c, negb (Ascii.eqb c "[")) (lexer.input (parser.l p)) = true
  ∧ IsPageSection (Type_ (parser.curToken p)) = false
  ∧ IsPageSection (Type_ (parser.peekToken p)) = false
  ∧ parser.errors p = [].



(** ** Notions for the properties of the generator *)

(** How deep [resolveValue] goes into a value before it follows a label:
    one level for an array and one for a variable reference. *)
Fixpoint height (v : Value) : nat :=
  match v with
  | ArrayValue _ values => S (foldr (λ x n, height x `max` n) 0 values)
  | VariableRef _ _ => 1
  | _ => 0
  end.

(** A value that holds no variable reference. *)
Fixpoint literal (v : Value) : bool :=
  match v with
  | VariableRef _ _ => false
  | ArrayValue _ values => forallb literal values
  | _ => true
  end.

(** The texts that the labels of a registry stand for hold no variable
    reference and are at most [h] deep. *)
Definition quiet (h : nat) (labels : gmap string Element) : Prop :=
  ∀ name e c,
    labels !! name = Some e → Properties e !! "contains" = Some c
    → literal c = true ∧ height c ≤ h.

(** The property values of an element are at most [H] deep. *)
Definition shallow (H : nat) (e : Element) : Prop :=
  map_Forall (λ _ v, height v ≤ H) (Properties e).

(** Every element of the subtree of [node] is shallow. *)
Definition shallowNode (H : nat) (node : Node) : Prop :=
  Forall (shallow H) (Spec.elementsOf node).

(** Every element of [doc] is shallow. *)
Definition shallowDoc (H : nat) (doc : Document) : bool :=
  forallb (λ e : Element,
             forallb (λ kv : string * Value, (height kv.2 <=? H)%nat)
                     (map_to_list (Properties e)))
          (Spec.docElements doc).

(** The texts of the elements of [doc] that carry a string label hold no
    variable reference and are at most [h] deep. *)
Definition quietLabels (h : nat) (doc : Document) : bool :=
  forallb (λ e : Element,
             match Properties e !! "label", Properties e !! "contains" with
             | Some (StringValue _ _), Some c => literal c && (height c <=? h)%nat
             | _, _ => true
             end)
          (Spec.docElements doc).

(** The texts of the elements of [doc] that carry a string label hold no
    variable reference. *)
Definition literalTexts (doc : Document) : bool :=
  forallb (λ e : Element,
             match Properties e !! "label", Properties e !! "contains" with
             | Some (StringValue _ _), Some c => literal c
             | _, _ => true
             end)
          (Spec.docElements doc).

(** A byte that [escapeHTML] rewrites. *)
Definition isMarkup (c : ascii) : bool :=
  Ascii.eqb c "&" || Ascii.eqb c "<" || Ascii.eqb c ">" || Ascii.eqb c DQUOTE.

(** The level and the style attribute of a heading, as [generateHeading]
    computes them from the properties [level] and [size] and from the style
    attribute of [buildStyleAttr]. *)
Definition headingLevel (level : string) : string :=
  if String.eqb level EmptyString then "1" else level.

Definition headingStyleAttr (size styleAttr : string) : string :=
  if negb (String.eqb size EmptyString) && String.eqb styleAttr EmptyString then
    " style=" +:+ dq +:+ "font-size: " +:+ size +:+ ";" +:+ dq
  else if negb (String.eqb size EmptyString) then
    TrimSuffix styleAttr dq +:+ ("; font-size: " +:+ size +:+ ";" +:+ dq)
  else styleAttr.

(** The tag of a list, as [generateList] chooses it from the property
    [type] and from the tag of the element. *)
Definition listTag (listType : string) (ordered : bool) : string :=
  if String.eqb listType "ordered" then "ol"
  else if String.eqb listType "unordered" then "ul"
  else if ordered then "ol" else "ul".

(** ** Inputs of the examples *)

Module Cases.

(** An array with a comma, an identifier and a variable reference in it. *)
Definition arrayInput : string := "[1, x $b] y".

(** The parser on [arrayInput], at the opening bracket. *)
Definition atArray : parser.Parser :=
  Eval vm_compute in
    default Samples.idle (parser.New 30 (lexer.New arrayInput)).

(** The parser on [Samples.linked], at its first token. *)
Definition linkedParser : parser.Parser :=
  Eval vm_compute in
    default Samples.idle (parser.New 200 (lexer.New Samples.linked)).

(** The arguments of a run on the file [page.lpml], and a file system in
    which every file reads as [Samples.linked]. *)
Definition pageArgs : list string := ["lpml"; "page.lpml"].

Definition linkedFile (_ : string) : option string := Some Samples.linked.

(** A paragraph that is not closed, and the parser at its opening tag. *)
Definition unclosed : string := "[p-start] x = 1".

Definition unclosedParser : parser.Parser :=
  Eval vm_compute in
    default Samples.idle (parser.New 30 (lexer.New unclosed)).

End Cases.

(** ** Proof steps *)

(** The next [bind] of the hypothesis [H]: its computation succeeded. *)
Ltac bind_in H :=
  match type of H with
  | mbind _ ?x = Some _ =>
      let E := fresh "E" in
      destruct x eqn:E; [cbn [mbind option_bind] in H | discriminate H]
  end.

(** Goals about lexers along a run: one is well formed, or has fewer bytes
    left than another, by what [follows] says on the way. *)
Ltac lexer_steps :=
  unfold follows in *; intuition (congruence || lia).

(** Goals about [fuelled], [advanced] and [consumed] are linear arithmetic
    over what is left of the parsers in sight. *)
Ltac measure :=
  unfold consumed, advanced, fuelled, Spec.workLeft, parser.addError in *;
  cbn [parser.l parser.curToken parser.peekToken] in *; intuition lia.

(** One bind of the hypothesis [H], its pair taken apart. *)
Ltac bind_pair H :=
  bind_in H;
  try match type of H with
      | context [let '(_, _) := ?x in _] => destruct x
      end.

(** The result of a renderer that leaves the generator as it is, from the
    equation [H] of its output. *)
Ltac rendered H :=
  rewrite H; unfold generator.pure; cbn [mbind option_bind]; reflexivity.

(** * Properties *)

(** ** Tag matching *)

Lemma lookupKeyword_in table ident t :
  lookupKeyword table ident = Some t → (ident, t) ∈ table.
Proof.
  induction table as [|[k t'] rest IH]; simpl; [done|].
  destruct (String.eqb_spec k ident) as [->|_].
  - intros [= ->]. left.
  - intros H. right. auto.
Qed.

Lemma LookUpIdent_cases ident :
  LookUpIdent ident = IDENT ∨ (ident, LookUpIdent ident) ∈ keywords.
Proof.
  unfold LookUpIdent.
  destruct (lookupKeyword keywords ident) eqn:E; [right|by left].
  by apply lookupKeyword_in.
Qed.


Lemma LookUpIdent_not_unord_end ident : LookUpIdent ident ≠ LIST_UNORD_END.
Proof.
  intros H. destruct (LookUpIdent_cases ident) as [E|E]; [congruence|].
  rewrite H in E. unfold keywords in E.
  repeat (apply elem_of_cons in E as [E|E]; [by inversion E|]).
  by apply elem_of_nil in E.
Qed.

Lemma LookUpIdent_not_EOF ident : LookUpIdent ident ≠ EOF.
Proof.
  intros H. destruct (LookUpIdent_cases ident) as [E|E]; [congruence|].
  rewrite H in E. unfold keywords in E.
  repeat (apply elem_of_cons in E as [E|E]; [by inversion E|]).
  by apply elem_of_nil in E.
Qed.

(** ** The bracket rule of the lexer *)

Lemma LookUpIdent_not_LBRACKET ident : LookUpIdent ident ≠ LBRACKET.
Proof.
  intros H. destruct (LookUpIdent_cases ident) as [E|E]; [congruence|].
  rewrite H in E. unfold keywords in E.
  repeat (apply elem_of_cons in E as [E|E]; [by inversion E|]).
  by apply elem_of_nil in E.
Qed.

Lemma isArrayStart_spec_except_CR l :
  lexer.peekChar l ≠ CR → lexer.isArrayStart l = Spec.arrayStart (lexer.peekChar l).
Proof.
  intros H. unfold lexer.isArrayStart, Spec.arrayStart, Spec.whitespace.
  destruct (Ascii.eqb_spec (lexer.peekChar l) CR) as [E|_]; [done|].
  destruct (lexer.isDigit _), (Ascii.eqb _ "$"), (Ascii.eqb _ DQUOTE),
    (Ascii.eqb _ "]"), (Ascii.eqb _ SPACE), (Ascii.eqb _ TAB), (Ascii.eqb _ LF);
    reflexivity.
Qed.

Lemma NextToken_bracket fuel l tok l' :
  lexer.ch l = "["%char → lexer.NextToken fuel l = Some (tok, l')
  → (Type_ tok = LBRACKET ↔ lexer.isArrayStart l = true).
Proof.
  intros Hch H. unfold lexer.NextToken, lexer.skipWhitespace in H.
  destruct fuel as [|f]; [done|]. simpl in H. rewrite Hch in H. simpl in H.
  unfold lexer.scanToken in H. rewrite Hch in H. simpl in H.
  destruct (lexer.isArrayStart l).
  - injection H as <- _. done.
  - unfold lexer.readTag in H.
    destruct (lexer.readTagName _ _) as [[name l1]|]; [|done].
    cbn [mbind option_bind] in H.
    destruct (lexer.readWhile _ _ l1) as [l2|]; [|done].
    cbn [mbind option_bind] in H.
    injection H as <- _. simpl. split; [|done].
    intros E. by apply LookUpIdent_not_LBRACKET in E.
Qed.

(** C3 (the code departs from the specification). On the input [ CR LF 1 ]
    the lexer stands on the bracket and the next byte is a carriage return,
    which the bracket rule counts as whitespace and [skipWhitespace] skips
    as such; [isArrayStart] answers false and [NextToken] reads a tag with
    an empty name, an IDENT token, where the rule asks for the array
    bracket.  The carriage return is the only byte on which [isArrayStart]
    and the rule differ, and the token is the array bracket exactly when
    [isArrayStart] holds. *)
Theorem bracket_before_carriage_return_is_lexed_as_tag :
  let l := lexer.New Samples.crlfArray in
  lexer.ch l = "["%char
  ∧ lexer.peekChar l = CR
  ∧ Spec.arrayStart (lexer.peekChar l) = true
  ∧ lexer.isArrayStart l = false
  ∧ lexer.isSpace (lexer.peekChar l) = true
  ∧ (∃ l', lexer.NextToken 10 l = Some (mkToken IDENT EmptyString 1 1, l'))
  ∧ (∀ l : lexer.Lexer,
       lexer.peekChar l ≠ CR
       → lexer.isArrayStart l = Spec.arrayStart (lexer.peekChar l))
  ∧ (∀ fuel (l : lexer.Lexer) tok l',
       lexer.ch l = "["%char → lexer.NextToken fuel l = Some (tok, l')
       → (Type_ tok = LBRACKET ↔ lexer.isArrayStart l = true)).
Proof.
  cbv zeta. split_and!; try reflexivity.
  - vm_compute. by eexists.
  - apply isArrayStart_spec_except_CR.
  - apply NextToken_bracket.
Qed.

(** ** A property name without its equals sign *)

Lemma isMatchingClose_IDENT open : parser.isMatchingClose open IDENT = false.
Proof. by destruct open. Qed.

(** C2 (as amended). When the token after a property name is not the equals
    sign, [parseProperty] records one error and stores no value, and it has
    consumed the property name only: the unexpected token is the current
    token of the parser it returns, with the lexer where the single call of
    [nextToken] left it.  The loop of [parseElement] goes on from that
    token. *)
Theorem parseProperty_missing_equals lf fuel (elem : Element) p p1 :
  Type_ (parser.curToken p) = IDENT
  → parser.nextToken lf p = Some p1
  → Type_ (parser.curToken p1) ≠ EQUALS
  → let msg := "expected '=' after property name " +:+ Literal (parser.curToken p)
               +:+ ", got " +:+ typeString (Type_ (parser.peekToken p)) in
    parser.parseProperty lf fuel elem p = Some (elem, parser.addError msg p1)
    ∧ parser.curToken (parser.addError msg p1) = parser.peekToken p
    ∧ parser.l (parser.addError msg p1) = parser.l p1
    ∧ parser.errors (parser.addError msg p1) = parser.errors p ++ [msg]
    ∧ ∀ openingType,
        parser.parseElementLoop lf (S fuel) openingType elem p
        = parser.parseElementLoop lf fuel openingType elem (parser.addError msg p1).
Proof.
  intros Hcur Hnext Hne msg.
  assert (Hp1 : parser.curToken p1 = parser.peekToken p
                ∧ parser.errors p1 = parser.errors p).
  { unfold parser.nextToken in Hnext.
    destruct (lexer.NextToken lf (parser.l p)) as [[tok l']|]; [|done].
    simpl in Hnext. injection Hnext as <-. done. }
  destruct Hp1 as [Hp1 He].
  assert (Hprop : parser.parseProperty lf fuel elem p
                  = Some (elem, parser.addError msg p1)).
  { unfold parser.parseProperty. rewrite Hnext. simpl.
    rewrite bool_decide_eq_true_2 by done. subst msg. by rewrite Hp1. }
  split; [done|]. split; [done|]. split; [done|].
  split; [simpl; by rewrite He|].
  intros openingType. simpl. rewrite Hcur, isMatchingClose_IDENT. simpl.
  rewrite Hprop. done.
Qed.

(** C2 (as amended) on the input [a b = "x"], at the property name [a]. *)
Lemma parseProperty_missing_equals_witness :
  Type_ (parser.curToken Samples.atName) = IDENT
  ∧ parser.parseProperty 50 50 Samples.emptyParagraph Samples.atName
    = Some (Samples.emptyParagraph,
            parser.addError "expected '=' after property name a, got IDENT"
                            Samples.afterName).
Proof.
  split; [reflexivity|].
  apply (parseProperty_missing_equals 50 50 Samples.emptyParagraph
           Samples.atName Samples.afterName); [reflexivity|by vm_compute|by vm_compute].
Defined.

(** C2, the sentence as worded fails: on [a b = "x"] inside a paragraph the
    parser is at the name [a], the next token [b] is not an equals sign, and
    the abandoned attempt does not leave the parser where two calls of
    [nextToken] lead: [b] is still the current token.  The whole input
    parses with the one error, and the paragraph keeps [b = "x"], which it
    could not if [b] had been consumed. *)
Lemma parseProperty_keeps_unexpected_token :
  Samples.parserAt 50 Samples.missingEquals 2 = Some Samples.atName
  ∧ Type_ (parser.curToken Samples.atName) = IDENT
  ∧ Type_ (parser.peekToken Samples.atName) ≠ EQUALS
  ∧ ¬ Spec.consumesNameAndUnexpected 50 50 Samples.emptyParagraph Samples.atName
  ∧ (∃ r, parser.parseProperty 50 50 Samples.emptyParagraph Samples.atName
          = Some (Samples.emptyParagraph, r)
          ∧ parser.curToken r = parser.peekToken Samples.atName)
  ∧ (∃ doc p e tok,
       Samples.parse 50 Samples.missingEquals = Some (doc, p)
       ∧ parser.Errors p = ["expected '=' after property name a, got IDENT"]
       ∧ map SecChildren (Sections doc) = [[NodeElement e]]
       ∧ Properties e !! "b" = Some (StringValue tok "x")
       ∧ Properties e !! "a" = None).
Proof.
  split; [by vm_compute|]. split; [reflexivity|]. split; [by vm_compute|].
  split; [|split].
  - intros (p1 & p2 & r & H1 & H2 & H3 & H4 & _).
    vm_compute in H1. injection H1 as <-.
    vm_compute in H2. injection H2 as <-.
    vm_compute in H3. injection H3 as <-.
    vm_compute in H4. discriminate H4.
  - eexists. split; by vm_compute.
  - vm_compute. eexists _, _, _, _. repeat split; reflexivity.
Qed.

(** ** Strings *)

Lemma append_cons (c : ascii) (s t : string) : String c s +:+ t = String c (s +:+ t).
Proof. reflexivity. Qed.

Lemma append_nil_r (s : string) : s +:+ EmptyString = s.
Proof. induction s as [|c s IH]; [done|]. by rewrite append_cons, IH. Qed.

Lemma append_assoc (a b c : string) : (a +:+ b) +:+ c = a +:+ (b +:+ c).
Proof. induction a as [|x a IH]; [done|]. by rewrite !append_cons, IH. Qed.

Lemma length_append (a b : string) :
  String.length (a +:+ b) = String.length a + String.length b.
Proof. induction a as [|x a IH]; [done|]. rewrite append_cons. simpl. by rewrite IH. Qed.

Lemma substring_all (s : string) : String.substring 0 (String.length s) s = s.
Proof. induction s as [|c s IH]; [done|]. simpl. by rewrite IH. Qed.

Lemma substring_app_l (a b : string) :
  String.substring 0 (String.length a) (a +:+ b) = a.
Proof.
  induction a as [|x a IH]; [by destruct b|]. rewrite append_cons. simpl. by rewrite IH.
Qed.

Lemma substring_app_r (a b : string) :
  String.substring (String.length a) (String.length b) (a +:+ b) = b.
Proof.
  induction a as [|x a IH]; [apply substring_all|]. rewrite append_cons. simpl. apply IH.
Qed.

Lemma TrimSuffix_app (a b : string) : TrimSuffix (a +:+ b) b = a.
Proof.
  unfold TrimSuffix, HasSuffix. rewrite length_append.
  replace (String.length a + String.length b - String.length b) with (String.length a)
    by lia.
  rewrite substring_app_r, String.eqb_refl, substring_app_l.
  by rewrite (proj2 (Nat.leb_le _ _)) by lia.
Qed.

(** ** Text formatting *)

Lemma wrapFormat_layer content format :
  generator.wrapFormat content format = Spec.layer format content.
Proof.
  unfold generator.wrapFormat, Spec.layer, Spec.formatTag.
  repeat (destruct (String.eqb format _); [reflexivity|]). reflexivity.
Qed.

Lemma nest_app outer inner content :
  Spec.nest (outer ++ inner) content = Spec.nest outer (Spec.nest inner content).
Proof. induction outer as [|n outer IH]; [done|]. simpl. by rewrite IH. Qed.

Lemma applyFormattingLoop_nest fuel g values names content :
  mapM (generator.resolveValue fuel g) values = Some names
  → generator.applyFormattingLoop fuel g values content
    = Some (Spec.nest (rev names) content).
Proof.
  revert names content. induction values as [|v values IH]; intros names content H.
  - injection H as <-. done.
  - simpl in H. simpl.
    destruct (generator.resolveValue fuel g v) as [format|]; [|done]. simpl in *.
    destruct (mapM _ values) as [rest|]; [|done]. simpl in H. injection H as <-.
    rewrite (IH rest) by done. simpl. by rewrite nest_app, wrapFormat_layer.
Qed.

(** What [applyFormatting] gives with an array of formats, and that it
    only ever adds layers around its text. *)
Lemma applyFormatting_array fuel g (elem : Element) tok values names content :
  Properties elem !! "format_with" = Some (ArrayValue tok values)
  → mapM (generator.resolveValue fuel g) values = Some names
  → generator.applyFormatting fuel g elem content
    = Some (Spec.nest (rev names) content).
Proof.
  intros Hprop Hnames. unfold generator.applyFormatting. rewrite Hprop.
  by apply applyFormattingLoop_nest.
Qed.

Lemma applyFormattingLoop_layers fuel g values :
  ∀ content r,
    generator.applyFormattingLoop fuel g values content = Some r
    → ∃ names, mapM (generator.resolveValue fuel g) values = Some names
               ∧ r = Spec.nest (rev names) content.
Proof.
  induction values as [|v values IH]; intros content r H; simpl in H.
  - injection H as <-. by exists [].
  - bind_in H. destruct (IH _ _ H) as (names & Hn & ->).
    exists (s :: names). simpl. rewrite E, Hn. simpl. split; [done|].
    by rewrite nest_app, wrapFormat_layer.
Qed.

Lemma applyFormatting_layers fuel g (elem : Element) text content :
  generator.applyFormatting fuel g elem text = Some content
  → ∃ names, content = Spec.nest names text.
Proof.
  unfold generator.applyFormatting. intros H.
  destruct (Properties elem !! "format_with") as [[| | |tok values|]|];
    try (injection H as <-; by exists []).
  apply applyFormattingLoop_layers in H as (names & _ & ->). by eexists.
Qed.

(** ** The renderers of text *)

(** The renderer of each kind of element with a text. *)
Lemma generateElement_renderers fuel gn (elem : Element) g :
  let indent := Repeat "  " (generator.indent g) in
  (TagType elem = "p"
   → generator.generateElement fuel gn elem g
     = generator.pure (generator.generateParagraph fuel elem indent g) g)
  ∧ (TagType elem = "h"
     → generator.generateElement fuel gn elem g
       = generator.pure (generator.generateHeading fuel elem indent g) g)
  ∧ (TagType elem = "link"
     → generator.generateElement fuel gn elem g
       = generator.pure (generator.generateLink fuel elem indent g) g)
  ∧ (TagType elem = "btn"
     → generator.generateElement fuel gn elem g
       = generator.pure (generator.generateButton fuel elem indent g) g)
  ∧ (TagType elem = "item"
     → generator.generateElement fuel gn elem g
       = generator.pure (generator.generateListItem fuel elem indent g) g)
  ∧ (TagType elem = "cell"
     → generator.generateElement fuel gn elem g
       = generator.pure (generator.generateCell fuel elem indent g) g)
  ∧ (TagType elem = "bold"
     → generator.generateElement fuel gn elem g
       = generator.pure (generator.generateBold fuel elem indent g) g)
  ∧ (TagType elem = "italic"
     → generator.generateElement fuel gn elem g
       = generator.pure (generator.generateItalic fuel elem indent g) g)
  ∧ (TagType elem = "code"
     → generator.generateElement fuel gn elem g
       = generator.pure (generator.generateCode fuel elem indent g) g)
  ∧ (TagType elem = "list" ∨ TagType elem = "lst-unord"
     → generator.generateElement fuel gn elem g
       = generator.generateList fuel gn elem indent false g)
  ∧ (TagType elem = "olist" ∨ TagType elem = "lst-ord"
     → generator.generateElement fuel gn elem g
       = generator.generateList fuel gn elem indent true g).
Proof.
  cbv zeta. unfold generator.generateElement.
  split_and!; try (intros ->; reflexivity); intros [-> | ->]; reflexivity.
Qed.

Lemma generateParagraph_output fuel g (elem : Element) indent text id content style :
  generator.getStringProp fuel g elem "contains" = Some text
  → generator.getStringProp fuel g elem "label" = Some id
  → generator.applyFormatting fuel g elem text = Some content
  → generator.buildStyleAttr fuel g elem = Some style
  → generator.generateParagraph fuel elem indent g
    = Some (indent +:+ "<p" +:+ generator.idAttrOf id +:+ style +:+ ">"
            +:+ content +:+ "</p>" +:+ generator.nl).
Proof.
  intros Htext Hid Hcontent Hstyle. unfold generator.generateParagraph.
  rewrite Htext, Hid. cbn [mbind option_bind]. by rewrite Hcontent, Hstyle.
Qed.

Lemma generateHeading_output
    fuel g (elem : Element) indent text id size level content style :
  generator.getStringProp fuel g elem "contains" = Some text
  → generator.getStringProp fuel g elem "label" = Some id
  → generator.getStringProp fuel g elem "size" = Some size
  → generator.getStringProp fuel g elem "level" = Some level
  → generator.applyFormatting fuel g elem text = Some content
  → generator.buildStyleAttr fuel g elem = Some style
  → generator.generateHeading fuel elem indent g
    = Some (indent +:+ "<h" +:+ headingLevel level +:+ generator.idAttrOf id
            +:+ headingStyleAttr size style +:+ ">" +:+ content
            +:+ "</h" +:+ headingLevel level +:+ ">" +:+ generator.nl).
Proof.
  intros Htext Hid Hsize Hlevel Hcontent Hstyle. unfold generator.generateHeading.
  rewrite Htext, Hid, Hsize, Hlevel. cbn [mbind option_bind].
  by rewrite Hcontent, Hstyle.
Qed.

Lemma generateLink_output fuel g (elem : Element) indent text id url :
  generator.getStringProp fuel g elem "contains" = Some text
  → generator.getStringProp fuel g elem "label" = Some id
  → generator.getStringProp fuel g elem "link_url" = Some url
  → (url ≠ EmptyString
     → generator.generateLink fuel elem indent g
       = Some (indent +:+ "<a href=" +:+ dq +:+ url +:+ dq
               +:+ generator.idAttrOf id +:+ ">" +:+ text +:+ "</a>"
               +:+ generator.nl))
    ∧ (url = EmptyString
       → ∀ href, generator.getStringProp fuel g elem "href" = Some href
                 → generator.generateLink fuel elem indent g
                   = Some (indent +:+ "<a href=" +:+ dq +:+ href +:+ dq
                           +:+ generator.idAttrOf id +:+ ">" +:+ text +:+ "</a>"
                           +:+ generator.nl)).
Proof.
  intros Htext Hid Hurl. unfold generator.generateLink.
  rewrite Htext, Hurl. cbn [mbind option_bind]. split.
  - intros Hne. rewrite (proj2 (String.eqb_neq _ _) Hne). cbn [mbind option_bind].
    by rewrite Hid.
  - intros -> href Hhref. simpl. rewrite Hhref. cbn [mbind option_bind].
    by rewrite Hid.
Qed.

Lemma generateButton_output fuel g (elem : Element) indent text id :
  generator.getStringProp fuel g elem "contains" = Some text
  → generator.getStringProp fuel g elem "label" = Some id
  → generator.generateButton fuel elem indent g
    = Some (indent +:+ "<button" +:+ generator.idAttrOf id +:+ ">" +:+ text
            +:+ "</button>" +:+ generator.nl).
Proof. intros Htext Hid. unfold generator.generateButton. by rewrite Htext, Hid. Qed.

(** C5. With [format_with] an array whose entries resolve to [names],
    [applyFormatting] gives a text back in one layer of inline markup for
    each recognised name (bold, italic, underline, strike, code and mark as
    strong, em, u, s, code and mark), unrecognised names adding nothing, and
    the layers nest in the order of the array: its first entry innermost,
    its last entry outermost.  Of the elements that show a [contains] text,
    the paragraph and the heading put it through [applyFormatting], the
    heading at every level and size; the link, the button, the list item,
    the cell and the bold and italic elements put the text out as it is,
    without a layer.  For bold then mark around X the content is
    <mark><strong>X</strong></mark>. *)
Theorem applyFormatting_nests_in_array_order
    fuel gn g (elem : Element) tok values names content :
  Properties elem !! "format_with" = Some (ArrayValue tok values)
  → mapM (generator.resolveValue fuel g) values = Some names
  → generator.getStringProp fuel g elem "contains" = Some content
  → let indent := Repeat "  " (generator.indent g) in
    (∀ text, generator.applyFormatting fuel g elem text
             = Some (Spec.nest (rev names) text))
    ∧ (TagType elem = "p"
       → ∀ id style,
           generator.getStringProp fuel g elem "label" = Some id
           → generator.buildStyleAttr fuel g elem = Some style
           → generator.generateElement fuel gn elem g
             = Some (indent +:+ "<p" +:+ generator.idAttrOf id +:+ style +:+ ">"
                     +:+ Spec.nest (rev names) content +:+ "</p>" +:+ generator.nl,
                     g))
    ∧ (TagType elem = "h"
       → ∀ id size level style,
           generator.getStringProp fuel g elem "label" = Some id
           → generator.getStringProp fuel g elem "size" = Some size
           → generator.getStringProp fuel g elem "level" = Some level
           → generator.buildStyleAttr fuel g elem = Some style
           → generator.generateElement fuel gn elem g
             = Some (indent +:+ "<h" +:+ headingLevel level
                     +:+ generator.idAttrOf id +:+ headingStyleAttr size style
                     +:+ ">" +:+ Spec.nest (rev names) content
                     +:+ "</h" +:+ headingLevel level +:+ ">" +:+ generator.nl,
                     g))
    ∧ (TagType elem = "link"
       → ∀ id url,
           generator.getStringProp fuel g elem "label" = Some id
           → generator.getStringProp fuel g elem "link_url" = Some url
           → (url ≠ EmptyString
              → generator.generateElement fuel gn elem g
                = Some (indent +:+ "<a href=" +:+ dq +:+ url +:+ dq
                        +:+ generator.idAttrOf id +:+ ">" +:+ content +:+ "</a>"
                        +:+ generator.nl, g))
             ∧ (url = EmptyString
                → ∀ href,
                    generator.getStringProp fuel g elem "href" = Some href
                    → generator.generateElement fuel gn elem g
                      = Some (indent +:+ "<a href=" +:+ dq +:+ href +:+ dq
                              +:+ generator.idAttrOf id +:+ ">" +:+ content
                              +:+ "</a>" +:+ generator.nl, g)))
    ∧ (TagType elem = "btn"
       → ∀ id,
           generator.getStringProp fuel g elem "label" = Some id
           → generator.generateElement fuel gn elem g
             = Some (indent +:+ "<button" +:+ generator.idAttrOf id +:+ ">"
                     +:+ content +:+ "</button>" +:+ generator.nl, g))
    ∧ (TagType elem = "item"
       → generator.generateElement fuel gn elem g
         = Some (indent +:+ "<li>" +:+ content +:+ "</li>" +:+ generator.nl, g))
    ∧ (TagType elem = "cell"
       → generator.generateElement fuel gn elem g
         = Some (indent +:+ "<td>" +:+ content +:+ "</td>" +:+ generator.nl, g))
    ∧ (TagType elem = "bold"
       → generator.generateElement fuel gn elem g
         = Some (indent +:+ "<strong>" +:+ content +:+ "</strong>"
                 +:+ generator.nl, g))
    ∧ (TagType elem = "italic"
       → generator.generateElement fuel gn elem g
         = Some (indent +:+ "<em>" +:+ content +:+ "</em>" +:+ generator.nl, g))
    ∧ (names = ["bold"; "mark"] → content = "X"
       → generator.applyFormatting fuel g elem content
         = Some "<mark><strong>X</strong></mark>")
    ∧ (∀ name inner, Spec.formatTag name = None → Spec.layer name inner = inner)
    ∧ (∀ inner, Spec.layer "bold" inner = "<strong>" +:+ inner +:+ "</strong>")
    ∧ (∀ inner, Spec.layer "italic" inner = "<em>" +:+ inner +:+ "</em>")
    ∧ (∀ inner, Spec.layer "underline" inner = "<u>" +:+ inner +:+ "</u>")
    ∧ (∀ inner, Spec.layer "strike" inner = "<s>" +:+ inner +:+ "</s>")
    ∧ (∀ inner, Spec.layer "code" inner = "<code>" +:+ inner +:+ "</code>")
    ∧ (∀ inner, Spec.layer "mark" inner = "<mark>" +:+ inner +:+ "</mark>").
Proof.
  intros Hprop Hnames Hc indent.
  pose proof (applyFormatting_array fuel g elem tok values names) as Hfmt.
  specialize (Hfmt content Hprop Hnames) as Hcontent.
  destruct (generateElement_renderers fuel gn elem g)
    as (Hp & Hh & Hlink & Hbtn & Hitem & Hcell & Hbold & Hitalic & _).
  fold indent in Hp, Hh, Hlink, Hbtn, Hitem, Hcell, Hbold, Hitalic.
  split_and!; try reflexivity.
  - intros text. by apply Hfmt.
  - intros Htag id style Hid Hstyle. rewrite (Hp Htag).
    rendered (generateParagraph_output fuel g elem indent content id _ style
                Hc Hid Hcontent Hstyle).
  - intros Htag id size level style Hid Hsize Hlevel Hstyle. rewrite (Hh Htag).
    rendered (generateHeading_output fuel g elem indent content id size level _ style
                Hc Hid Hsize Hlevel Hcontent Hstyle).
  - intros Htag id url Hid Hurl. rewrite (Hlink Htag).
    destruct (generateLink_output fuel g elem indent content id url Hc Hid Hurl)
      as [Hne Hempty].
    split; [intros H; rendered (Hne H)|intros H href Hhref; rendered (Hempty H href Hhref)].
  - intros Htag id Hid. rewrite (Hbtn Htag).
    rendered (generateButton_output fuel g elem indent content id Hc Hid).
  - intros Htag. rewrite (Hitem Htag). unfold generator.generateListItem.
    by rewrite Hc.
  - intros Htag. rewrite (Hcell Htag). unfold generator.generateCell. by rewrite Hc.
  - intros Htag. rewrite (Hbold Htag). unfold generator.generateBold. by rewrite Hc.
  - intros Htag. rewrite (Hitalic Htag). unfold generator.generateItalic.
    by rewrite Hc.
  - intros -> ->. by rewrite Hcontent.
  - intros name inner Hn. unfold Spec.layer. by rewrite Hn.
Qed.

(** C5 on a paragraph with the text X and the formats bold and mark. *)
Lemma applyFormatting_bold_mark_witness :
  generator.applyFormatting 0 generator.New Samples.boldMarkParagraph "X"
  = Some "<mark><strong>X</strong></mark>"
  ∧ generator.generateNode 0 (NodeElement Samples.boldMarkParagraph) generator.New
    = Some ("<p><mark><strong>X</strong></mark></p>" +:+ generator.nl, generator.New)
  ∧ Spec.formatted 0 generator.New Samples.boldMarkParagraph
      ("<p><mark><strong>X</strong></mark></p>" +:+ generator.nl).
Proof.
  pose proof (applyFormatting_nests_in_array_order 0 (generator.generateNode 0)
                generator.New
                Samples.boldMarkParagraph zeroToken
                [StringValue zeroToken "bold"; StringValue zeroToken "mark"]
                ["bold"; "mark"] "X" ltac:(by vm_compute) ltac:(by vm_compute)
                ltac:(by vm_compute)) as H.
  destruct H as (Hfmt & Hpar & _).
  split; [exact (Hfmt "X")|]. split.
  - apply (Hpar eq_refl EmptyString EmptyString); by vm_compute.
  - exists zeroToken, [StringValue zeroToken "bold"; StringValue zeroToken "mark"],
      ["bold"; "mark"], "X".
    split_and!; reflexivity.
Defined.

(** C5 as the specification words it fails on a button: its text X with
    the format bold comes out bare. *)
Lemma button_ignores_format_with :
  generator.generateNode 0 (NodeElement Samples.boldButton) generator.New
  = Some ("<button>X</button>" +:+ generator.nl, generator.New)
  ∧ ¬ Spec.formatted 0 generator.New Samples.boldButton
        ("<button>X</button>" +:+ generator.nl).
Proof.
  split; [by vm_compute|].
  intros (tok & values & names & content & Hp & Hn & Hc & Hin).
  vm_compute in Hp. injection Hp as <- <-.
  vm_compute in Hn. injection Hn as <-.
  vm_compute in Hc. injection Hc as <-.
  vm_compute in Hin. discriminate Hin.
Qed.

(** ** The size of a heading *)

Lemma buildStyles_none fuel g (elem : Element) :
  Forall (λ name, Properties elem !! name = None) Spec.styleProperties
  → generator.buildStyles fuel g elem = Some [].
Proof.
  intros H. unfold Spec.styleProperties in H.
  repeat match goal with
         | H : Forall _ (_ :: _) |- _ => apply Forall_cons in H as [? H]
         end.
  unfold generator.buildStyles, generator.getStringProp.
  repeat match goal with
         | H : _ !! _ = None |- _ => rewrite H; clear H
         end.
  reflexivity.
Qed.

Lemma style_attr_not_empty (rest : string) :
  String.eqb (" style=" +:+ rest) EmptyString = false.
Proof. reflexivity. Qed.

(** C4. A heading with a non-empty [size]: when [buildStyleAttr] finds no
    style declaration (as it does when none of the recognised style
    properties is present), the style attribute of the heading is the
    font-size declaration alone; when it finds declarations, the attribute
    is the one [buildStyleAttr] built, its closing quote taken off, then a
    semicolon, the font-size declaration and the closing quote. *)
Theorem heading_size_joins_style
    fuel g (elem : Element) indent text id size level content styles :
  generator.getStringProp fuel g elem "contains" = Some text
  → generator.getStringProp fuel g elem "label" = Some id
  → generator.getStringProp fuel g elem "size" = Some size
  → generator.getStringProp fuel g elem "level" = Some level
  → generator.applyFormatting fuel g elem text = Some content
  → generator.buildStyles fuel g elem = Some styles
  → size ≠ EmptyString
  → let lvl := if String.eqb level EmptyString then "1" else level in
    let heading style :=
      indent +:+ "<h" +:+ lvl +:+ generator.idAttrOf id +:+ style +:+ ">"
      +:+ content +:+ "</h" +:+ lvl +:+ ">" +:+ generator.nl in
    (styles = []
     → generator.generateHeading fuel elem indent g
       = Some (heading (" style=" +:+ dq +:+ "font-size: " +:+ size +:+ ";" +:+ dq)))
    ∧ (styles ≠ []
       → generator.buildStyleAttr fuel g elem
         = Some (" style=" +:+ dq +:+ Join styles "; " +:+ ";" +:+ dq)
         ∧ generator.generateHeading fuel elem indent g
           = Some (heading (" style=" +:+ dq +:+ Join styles "; " +:+ ";"
                            +:+ "; font-size: " +:+ size +:+ ";" +:+ dq)))
    ∧ (Forall (λ name, Properties elem !! name = None) Spec.styleProperties
       → styles = []).
Proof.
  intros Htext Hid Hsize Hlevel Hcontent Hstyles Hne lvl heading.
  apply String.eqb_neq in Hne.
  split_and!.
  - intros ->. unfold generator.generateHeading, generator.buildStyleAttr.
    rewrite Htext, Hid, Hsize, Hlevel. cbn [mbind option_bind].
    rewrite Hcontent, Hstyles. cbn [mbind option_bind length Nat.eqb].
    rewrite Hne. reflexivity.
  - intros Hs.
    assert (Hattr : generator.buildStyleAttr fuel g elem
                    = Some (" style=" +:+ dq +:+ Join styles "; " +:+ ";" +:+ dq)).
    { unfold generator.buildStyleAttr. rewrite Hstyles. cbn [mbind option_bind].
      by destruct styles. }
    split; [done|]. unfold generator.generateHeading.
    rewrite Htext, Hid, Hsize, Hlevel. cbn [mbind option_bind].
    rewrite Hcontent, Hattr. cbn [mbind option_bind].
    rewrite Hne, style_attr_not_empty. cbn [negb andb].
    replace (" style=" +:+ dq +:+ Join styles "; " +:+ ";" +:+ dq)
      with ((" style=" +:+ dq +:+ Join styles "; " +:+ ";") +:+ dq)
      by (by rewrite !append_assoc).
    rewrite TrimSuffix_app. subst heading lvl. cbv beta. by rewrite !append_assoc.
  - intros Hnone. rewrite (buildStyles_none fuel g elem Hnone) in Hstyles.
    by injection Hstyles as <-.
Qed.

(** C4 on a heading with the size 20px and the colour red. *)
Lemma heading_size_joins_style_witness :
  generator.buildStyleAttr 0 generator.New Samples.sizedHeading
  = Some (" style=" +:+ dq +:+ "color: red;" +:+ dq)
  ∧ generator.generateHeading 0 Samples.sizedHeading EmptyString generator.New
    = Some ("<h1 style=" +:+ dq +:+ "color: red;; font-size: 20px;" +:+ dq
            +:+ ">Title</h1>" +:+ generator.nl).
Proof.
  refine ((λ H, proj1 (proj2 H) _)
            (heading_size_joins_style 0 generator.New Samples.sizedHeading EmptyString
               "Title" EmptyString "20px" EmptyString "Title" ["color: red"]
               _ _ _ _ _ _ _)); by vm_compute.
Defined.

(** ** Escaping *)

Lemma mapBytes_app f (a b : string) :
  Spec.mapBytes f (a +:+ b) = Spec.mapBytes f a +:+ Spec.mapBytes f b.
Proof.
  induction a as [|x a IH]; [done|]. rewrite append_cons. simpl.
  by rewrite IH, append_assoc.
Qed.

Lemma mapBytes_mapBytes f h (s : string) :
  Spec.mapBytes h (Spec.mapBytes f s) = Spec.mapBytes (λ x, Spec.mapBytes h (f x)) s.
Proof.
  induction s as [|x s IH]; [done|]. simpl. by rewrite mapBytes_app, IH.
Qed.

Lemma mapBytes_ext f h (s : string) :
  (∀ x, f x = h x) → Spec.mapBytes f s = Spec.mapBytes h s.
Proof. intros E. induction s as [|x s IH]; [done|]. simpl. by rewrite E, IH. Qed.

Lemma ReplaceAll_byte (c : ascii) (new s : string) :
  ReplaceAll s (String c EmptyString) new
  = Spec.mapBytes (λ x, if Ascii.eqb x c then new else String x EmptyString) s.
Proof.
  unfold ReplaceAll. induction s as [|x s IH]; [done|].
  cbn [replaceFrom String.prefix Spec.mapBytes String.length Nat.sub].
  destruct (ascii_dec c x) as [->|Hne].
  - rewrite Ascii.eqb_refl, IH. by destruct s.
  - rewrite (proj2 (Ascii.eqb_neq x c)) by done. by rewrite IH.
Qed.

Lemma escapeHTML_escapeBytes (s : string) : generator.escapeHTML s = Spec.escapeBytes s.
Proof.
  unfold generator.escapeHTML, Spec.escapeBytes.
  change "&" with (String "&"%char EmptyString).
  change "<" with (String "<"%char EmptyString).
  change ">" with (String ">"%char EmptyString).
  unfold dq. rewrite !ReplaceAll_byte, !mapBytes_mapBytes.
  apply mapBytes_ext. intros x.
  destruct x as [[] [] [] [] [] [] [] []]; reflexivity.
Qed.

Lemma concat_empty_cons (x : string) (xs : list string) :
  String.concat EmptyString (x :: xs) = x +:+ String.concat EmptyString xs.
Proof. destruct xs; simpl; [by rewrite append_nil_r|done]. Qed.

Lemma generateItems_verbatim fuel g childIndent values texts :
  mapM (generator.resolveValue fuel g) values = Some texts
  → generator.generateItems fuel g childIndent values
    = Some (String.concat EmptyString
              (map (λ t, childIndent +:+ "<li>" +:+ t +:+ "</li>" +:+ generator.nl)
                   texts)).
Proof.
  revert texts. induction values as [|v values IH]; intros texts H.
  - by injection H as <-.
  - simpl in H. simpl.
    destruct (generator.resolveValue fuel g v) as [t|]; [|done]. simpl in *.
    destruct (mapM _ values) as [rest|]; [|done]. simpl in H. injection H as <-.
    rewrite (IH rest) by done. cbn [mbind option_bind map].
    by rewrite concat_empty_cons, !append_assoc.
Qed.

Lemma resolveValue_setIndent n :
  ∀ fuel g v,
    generator.resolveValue fuel (generator.setIndent g n) v
    = generator.resolveValue fuel g v.
Proof.
  induction fuel as [|f IH]; intros g v;
    destruct v as [? ?|? ?|? name|tok values|? ?]; try reflexivity.
  - simpl. destruct (generator.labels g !! name) as [e|]; [|done].
    destruct (Properties e !! "contains"); [apply IH|done].
  - simpl. replace (mapM (generator.resolveValue f (generator.setIndent g n)) values)
      with (mapM (generator.resolveValue f g) values); [done|].
    induction values as [|v values IHv]; [done|]. simpl. by rewrite IH, IHv.
Qed.

Lemma generateList_output
    fuel gn g (elem : Element) indent ordered tok values texts listType id body g1 :
  Properties elem !! "items" = Some (ArrayValue tok values)
  → mapM (generator.resolveValue fuel g) values = Some texts
  → generator.getStringProp fuel g elem "type" = Some listType
  → generator.getStringProp fuel g elem "label" = Some id
  → generator.generateChildren gn (Children elem) (generator.incIndent g)
    = Some (body, g1)
  → generator.generateList fuel gn elem indent ordered g
    = Some ((indent +:+ "<" +:+ listTag listType ordered +:+ generator.idAttrOf id
             +:+ ">" +:+ generator.nl)
            +:+ String.concat EmptyString
                  (map (λ t, Repeat "  " (generator.indent g + 1) +:+ "<li>" +:+ t
                             +:+ "</li>" +:+ generator.nl) texts)
            +:+ body +:+ indent +:+ "</" +:+ listTag listType ordered +:+ ">"
            +:+ generator.nl,
            generator.decIndent g1).
Proof.
  intros Hitems Htexts Htype Hid Hbody. unfold generator.generateList.
  rewrite Htype, Hid, Hitems. cbn [mbind option_bind].
  rewrite (generateItems_verbatim fuel (generator.incIndent g) _ values texts).
  2:{ rewrite <- Htexts. clear. unfold generator.incIndent.
      induction values as [|v values IH]; [done|].
      simpl. by rewrite resolveValue_setIndent, IH. }
  cbn [mbind option_bind]. rewrite Hbody. cbn [mbind option_bind].
  reflexivity.
Qed.

Lemma generateCode_output fuel g (elem : Element) indent tok code linked ftype :
  Properties elem !! "syntax" = Some (CodeBlockValue tok code)
  → generator.getStringProp fuel g elem "linked_file" = Some linked
  → generator.getStringProp fuel g elem "file_type" = Some ftype
  → generator.generateCode fuel elem indent g
    = Some (indent +:+ "<pre><code"
            +:+ (if String.eqb ftype EmptyString then EmptyString
                 else " class=" +:+ dq +:+ "language-" +:+ ftype +:+ dq)
            +:+ ">"
            +:+ (if String.eqb linked EmptyString then EmptyString
                 else "/* File: " +:+ linked +:+ " */" +:+ generator.nl)
            +:+ Spec.escapeBytes code
            +:+ "</code></pre>" +:+ generator.nl).
Proof.
  intros Hsyntax Hlinked Hftype.
  unfold generator.generateCode. rewrite Hlinked, Hftype, Hsyntax.
  cbn [mbind option_bind]. rewrite escapeHTML_escapeBytes.
  by destruct code.
Qed.

(** C9. The text that an element takes from a resolved property goes into
    its output as it is, whatever bytes it holds: the [contains] text of a
    list item, cell, bold and italic element, button, link (with the
    address from [link_url] or, without one, from [href]), paragraph and
    heading (at every level and size, the level 1 of a heading without a
    [level] included), and each item of the [items] array of a list.  A
    paragraph and a heading wrap the text in the layers of [format_with]
    first, which stand around the text and leave it untouched, and add
    nothing when the property is absent; resolving a string or a number
    gives the literal itself.  The [syntax] block of a code element is the
    one text that is rewritten: [escapeHTML] replaces each ampersand, each
    angle bracket and each double quote by its entity, byte by byte, and
    leaves every other byte alone, while the linked file name and the file
    type of the same element go in as they are. *)
Theorem display_text_is_inserted_unescaped fuel gn g (elem : Element) text :
  generator.getStringProp fuel g elem "contains" = Some text
  → let indent := Repeat "  " (generator.indent g) in
    (TagType elem = "item"
     → generator.generateElement fuel gn elem g
       = Some (indent +:+ "<li>" +:+ text +:+ "</li>" +:+ generator.nl, g))
    ∧ (TagType elem = "cell"
       → generator.generateElement fuel gn elem g
         = Some (indent +:+ "<td>" +:+ text +:+ "</td>" +:+ generator.nl, g))
    ∧ (TagType elem = "bold"
       → generator.generateElement fuel gn elem g
         = Some (indent +:+ "<strong>" +:+ text +:+ "</strong>" +:+ generator.nl, g))
    ∧ (TagType elem = "italic"
       → generator.generateElement fuel gn elem g
         = Some (indent +:+ "<em>" +:+ text +:+ "</em>" +:+ generator.nl, g))
    ∧ (TagType elem = "btn"
       → ∀ id,
           generator.getStringProp fuel g elem "label" = Some id
           → generator.generateElement fuel gn elem g
             = Some (indent +:+ "<button" +:+ generator.idAttrOf id +:+ ">"
                     +:+ text +:+ "</button>" +:+ generator.nl, g))
    ∧ (TagType elem = "link"
       → ∀ id url,
           generator.getStringProp fuel g elem "label" = Some id
           → generator.getStringProp fuel g elem "link_url" = Some url
           → (url ≠ EmptyString
              → generator.generateElement fuel gn elem g
                = Some (indent +:+ "<a href=" +:+ dq +:+ url +:+ dq
                        +:+ generator.idAttrOf id +:+ ">" +:+ text +:+ "</a>"
                        +:+ generator.nl, g))
             ∧ (url = EmptyString
                → ∀ href,
                    generator.getStringProp fuel g elem "href" = Some href
                    → generator.generateElement fuel gn elem g
                      = Some (indent +:+ "<a href=" +:+ dq +:+ href +:+ dq
                              +:+ generator.idAttrOf id +:+ ">" +:+ text
                              +:+ "</a>" +:+ generator.nl, g)))
    ∧ (∀ content,
         generator.applyFormatting fuel g elem text = Some content
         → (∃ names, content = Spec.nest names text)
           ∧ (Properties elem !! "format_with" = None → content = text))
    ∧ (TagType elem = "p"
       → ∀ id style content,
           generator.getStringProp fuel g elem "label" = Some id
           → generator.applyFormatting fuel g elem text = Some content
           → generator.buildStyleAttr fuel g elem = Some style
           → generator.generateElement fuel gn elem g
             = Some (indent +:+ "<p" +:+ generator.idAttrOf id +:+ style +:+ ">"
                     +:+ content +:+ "</p>" +:+ generator.nl, g))
    ∧ (TagType elem = "h"
       → ∀ id size level style content,
           generator.getStringProp fuel g elem "label" = Some id
           → generator.getStringProp fuel g elem "size" = Some size
           → generator.getStringProp fuel g elem "level" = Some level
           → generator.applyFormatting fuel g elem text = Some content
           → generator.buildStyleAttr fuel g elem = Some style
           → generator.generateElement fuel gn elem g
             = Some (indent +:+ "<h" +:+ headingLevel level
                     +:+ generator.idAttrOf id +:+ headingStyleAttr size style
                     +:+ ">" +:+ content
                     +:+ "</h" +:+ headingLevel level +:+ ">" +:+ generator.nl, g))
    ∧ (∀ ordered tok values texts listType id body g1,
         (if ordered : bool
          then TagType elem = "olist" ∨ TagType elem = "lst-ord"
          else TagType elem = "list" ∨ TagType elem = "lst-unord")
         → Properties elem !! "items" = Some (ArrayValue tok values)
         → mapM (generator.resolveValue fuel g) values = Some texts
         → generator.getStringProp fuel g elem "type" = Some listType
         → generator.getStringProp fuel g elem "label" = Some id
         → generator.generateChildren gn (Children elem) (generator.incIndent g)
           = Some (body, g1)
         → generator.generateElement fuel gn elem g
           = Some ((indent +:+ "<" +:+ listTag listType ordered
                    +:+ generator.idAttrOf id +:+ ">" +:+ generator.nl)
                   +:+ String.concat EmptyString
                         (map (λ t, Repeat "  " (generator.indent g + 1) +:+ "<li>"
                                    +:+ t +:+ "</li>" +:+ generator.nl) texts)
                   +:+ body +:+ indent +:+ "</" +:+ listTag listType ordered +:+ ">"
                   +:+ generator.nl,
                   generator.decIndent g1))
    ∧ (∀ tok s, generator.resolveValue fuel g (StringValue tok s) = Some s)
    ∧ (∀ tok s, generator.resolveValue fuel g (NumberValue tok s) = Some s)
    ∧ (∀ s, generator.escapeHTML s = Spec.escapeBytes s)
    ∧ (∀ c, c ≠ "&"%char → c ≠ "<"%char → c ≠ ">"%char → c ≠ DQUOTE
            → Spec.escapeByte c = String c EmptyString)
    ∧ (TagType elem = "code"
       → ∀ tok code linked ftype,
           Properties elem !! "syntax" = Some (CodeBlockValue tok code)
           → generator.getStringProp fuel g elem "linked_file" = Some linked
           → generator.getStringProp fuel g elem "file_type" = Some ftype
           → generator.generateElement fuel gn elem g
             = Some (indent +:+ "<pre><code"
                     +:+ (if String.eqb ftype EmptyString then EmptyString
                          else " class=" +:+ dq +:+ "language-" +:+ ftype +:+ dq)
                     +:+ ">"
                     +:+ (if String.eqb linked EmptyString then EmptyString
                          else "/* File: " +:+ linked +:+ " */" +:+ generator.nl)
                     +:+ Spec.escapeBytes code
                     +:+ "</code></pre>" +:+ generator.nl, g)).
Proof.
  intros Htext indent.
  destruct (generateElement_renderers fuel gn elem g)
    as (Hp & Hh & Hlink & Hbtn & Hitem & Hcell & Hbold & Hitalic & Hcode
        & Hunord & Hord).
  fold indent in Hp, Hh, Hlink, Hbtn, Hitem, Hcell, Hbold, Hitalic, Hcode,
                 Hunord, Hord.
  split_and!.
  - intros Htag. rewrite (Hitem Htag). unfold generator.generateListItem.
    by rewrite Htext.
  - intros Htag. rewrite (Hcell Htag). unfold generator.generateCell.
    by rewrite Htext.
  - intros Htag. rewrite (Hbold Htag). unfold generator.generateBold.
    by rewrite Htext.
  - intros Htag. rewrite (Hitalic Htag). unfold generator.generateItalic.
    by rewrite Htext.
  - intros Htag id Hid. rewrite (Hbtn Htag).
    rendered (generateButton_output fuel g elem indent text id Htext Hid).
  - intros Htag id url Hid Hurl. rewrite (Hlink Htag).
    destruct (generateLink_output fuel g elem indent text id url Htext Hid Hurl)
      as [Hne Hempty].
    split; [intros H; rendered (Hne H)
           |intros H href Hhref; rendered (Hempty H href Hhref)].
  - intros content Hcontent. split; [by eapply applyFormatting_layers|].
    intros Hnone. unfold generator.applyFormatting in Hcontent.
    rewrite Hnone in Hcontent. by injection Hcontent.
  - intros Htag id style content Hid Hcontent Hstyle. rewrite (Hp Htag).
    rendered (generateParagraph_output fuel g elem indent text id content style
                Htext Hid Hcontent Hstyle).
  - intros Htag id size level style content Hid Hsize Hlevel Hcontent Hstyle.
    rewrite (Hh Htag).
    rendered (generateHeading_output fuel g elem indent text id size level content
                style Htext Hid Hsize Hlevel Hcontent Hstyle).
  - intros ordered tok values texts listType id body g1 Htag Hitems Htexts Htype
           Hid Hbody.
    destruct ordered; [rewrite (Hord Htag)|rewrite (Hunord Htag)];
      by eapply generateList_output.
  - intros tok s. by destruct fuel.
  - intros tok s. by destruct fuel.
  - apply escapeHTML_escapeBytes.
  - intros c H1 H2 H3 H4. unfold Spec.escapeByte.
    by rewrite !(proj2 (Ascii.eqb_neq _ _)) by done.
  - intros Htag tok code linked ftype Hsyntax Hlinked Hftype. rewrite (Hcode Htag).
    rendered (generateCode_output fuel g elem indent tok code linked ftype
                Hsyntax Hlinked Hftype).
Qed.

(** C9 on a paragraph, a heading without a level, a link with an [href]
    and a code block, all with the same text. *)
Lemma display_text_is_inserted_unescaped_witness :
  generator.generateNode 0 (NodeElement Samples.markupParagraph) generator.New
  = Some ("<p>a <b> & c</p>" +:+ generator.nl, generator.New)
  ∧ generator.generateNode 0 (NodeElement Samples.markupHeading) generator.New
    = Some ("<h1>a <b> & c</h1>" +:+ generator.nl, generator.New)
  ∧ generator.generateNode 0 (NodeElement Samples.markupLink) generator.New
    = Some ("<a href=" +:+ dq +:+ "x" +:+ dq +:+ ">a <b> & c</a>" +:+ generator.nl,
            generator.New)
  ∧ generator.generateNode 0 (NodeElement Samples.markupCode) generator.New
    = Some ("<pre><code>a &lt;b&gt; &amp; c</code></pre>" +:+ generator.nl,
            generator.New).
Proof.
  split_and!.
  - pose proof (display_text_is_inserted_unescaped 0 (generator.generateNode 0)
                  generator.New Samples.markupParagraph "a <b> & c"
                  ltac:(by vm_compute)) as H.
    destruct H as (_ & _ & _ & _ & _ & _ & _ & Hp & _).
    apply (Hp eq_refl EmptyString EmptyString "a <b> & c"); by vm_compute.
  - pose proof (display_text_is_inserted_unescaped 0 (generator.generateNode 0)
                  generator.New Samples.markupHeading "a <b> & c"
                  ltac:(by vm_compute)) as H.
    destruct H as (_ & _ & _ & _ & _ & _ & _ & _ & Hh & _).
    apply (Hh eq_refl EmptyString EmptyString EmptyString EmptyString "a <b> & c");
      by vm_compute.
  - pose proof (display_text_is_inserted_unescaped 0 (generator.generateNode 0)
                  generator.New Samples.markupLink "a <b> & c"
                  ltac:(by vm_compute)) as H.
    destruct H as (_ & _ & _ & _ & _ & Hl & _).
    destruct (Hl eq_refl EmptyString EmptyString ltac:(by vm_compute)
                ltac:(by vm_compute)) as [_ Hhref].
    apply (Hhref eq_refl "x"). by vm_compute.
  - pose proof (display_text_is_inserted_unescaped 0 (generator.generateNode 0)
                  generator.New Samples.markupCode EmptyString
                  ltac:(by vm_compute)) as H.
    do 14 destruct H as (_ & H).
    apply (H eq_refl zeroToken "a <b> & c" EmptyString EmptyString); by vm_compute.
Defined.

(** ** The label registry *)

Lemma findLast_app {A} (f : A → bool) (a b : list A) :
  Spec.findLast f (a ++ b)
  = match Spec.findLast f b with
    | Some y => Some y
    | None => Spec.findLast f a
    end.
Proof.
  induction a as [|x a IH]; simpl; [by destruct (Spec.findLast f b)|].
  rewrite IH. by destruct (Spec.findLast f b).
Qed.

Lemma findLast_None {A} (f : A → bool) (xs : list A) :
  Spec.findLast f xs = None ↔ Forall (λ x, f x = false) xs.
Proof.
  induction xs as [|x xs IH]; simpl; [by split; [constructor|]|].
  rewrite Forall_cons. destruct (Spec.findLast f xs) as [y|].
  - split; [done|]. intros [_ H]. by apply IH in H.
  - destruct (f x); split; try done.
    + by intros [? _].
    + intros _. split; [done|]. by apply IH.
Qed.

Lemma registered_app name a b before :
  Spec.registered name (a ++ b) before = Spec.registered name b (Spec.registered name a before).
Proof.
  unfold Spec.registered. rewrite findLast_app.
  by destruct (Spec.findLast _ b).
Qed.

Lemma collectChildren_registry (cs : list Node) :
  Forall (λ node, ∀ g,
            generator.indent (generator.collectElementLabels node g) = generator.indent g
            ∧ ∀ name, generator.labels (generator.collectElementLabels node g) !! name
                      = Spec.registered name (Spec.elementsOf node)
                                   (generator.labels g !! name)) cs
  → ∀ g,
      let g' := fold_left (λ g child, generator.collectElementLabels child g) cs g in
      generator.indent g' = generator.indent g
      ∧ ∀ name, generator.labels g' !! name
                = Spec.registered name (concat (map Spec.elementsOf cs))
                             (generator.labels g !! name).
Proof.
  induction 1 as [|c cs Hc _ IH]; intros g; simpl; [done|].
  destruct (Hc g) as [Hi Hl]. destruct (IH (generator.collectElementLabels c g)) as [Hi' Hl'].
  split; [congruence|]. intros name. by rewrite Hl', Hl, registered_app.
Qed.

Lemma collectElementLabels_registry (node : Node) :
  ∀ g,
    generator.indent (generator.collectElementLabels node g) = generator.indent g
    ∧ ∀ name, generator.labels (generator.collectElementLabels node g) !! name
              = Spec.registered name (Spec.elementsOf node) (generator.labels g !! name).
Proof.
  induction node as [|e IH] using Node_nested_ind; intros g; [done|].
  simpl. set (g1 := match Properties e !! "label" with
                    | Some (StringValue _ v) => generator.setLabel g v e
                    | _ => g
                    end).
  destruct (collectChildren_registry _ IH g1) as [Hi Hl].
  assert (H1 : generator.indent g1 = generator.indent g
               ∧ ∀ name, generator.labels g1 !! name
                         = Spec.registered name [e] (generator.labels g !! name)).
  { subst g1. unfold Spec.registered, Spec.declares. simpl.
    destruct (Properties e !! "label") as [[tok v| | | |]|]; try done.
    split; [done|]. intros name. simpl. rewrite lookup_insert.
    destruct (String.eqb_spec v name) as [->|Hne].
    - by rewrite decide_True.
    - by rewrite decide_False. }
  destruct H1 as [Hi1 Hl1]. split; [congruence|]. intros name.
  rewrite Hl, Hl1. by rewrite <- registered_app.
Qed.

Lemma collectLabels_registry (doc : Document) g :
  generator.indent (generator.collectLabels doc g) = generator.indent g
  ∧ ∀ name, generator.labels (generator.collectLabels doc g) !! name
            = Spec.registered name (Spec.docElements doc) (generator.labels g !! name).
Proof.
  unfold generator.collectLabels, Spec.docElements.
  revert g. induction (Sections doc) as [|sec secs IH]; intros g; simpl; [done|].
  set (g1 := fold_left _ (SecChildren sec) g).
  destruct (collectChildren_registry (SecChildren sec)
              ltac:(apply Forall_forall; intros; apply collectElementLabels_registry) g)
    as [Hi Hl].
  destruct (IH g1) as [Hi' Hl']. split; [subst g1; congruence|].
  intros name. rewrite Hl'. subst g1. by rewrite Hl, registered_app.
Qed.

(** C6. After the label pass of a fresh generator the registry holds, under
    each name, the last element in the depth-first order of the document
    that declares the name as a string label.  A reference to the name
    resolves to what [getStringProp] gives for the [contains] property of
    that element (its text when it is a string literal, the empty string
    when the property is absent), a property whose value is the reference
    resolves as the reference does, and when no element declares the name
    the reference resolves to the dollar sign followed by the name. *)
Theorem variable_reference_resolves_through_registry
    (doc : Document) (name : string) (tok : Token) (fuel : nat) :
  let g := generator.collectLabels doc generator.New in
  generator.labels g !! name
  = Spec.findLast (Spec.declares name) (Spec.docElements doc)
  ∧ match Spec.findLast (Spec.declares name) (Spec.docElements doc) with
    | Some e =>
        generator.resolveValue (S fuel) g (VariableRef tok name)
        = generator.getStringProp fuel g e "contains"
        ∧ (∀ tok' text,
             Properties e !! "contains" = Some (StringValue tok' text)
             → generator.resolveValue (S fuel) g (VariableRef tok name) = Some text)
        ∧ (Properties e !! "contains" = None
           → generator.resolveValue (S fuel) g (VariableRef tok name)
             = Some EmptyString)
    | None =>
        generator.resolveValue fuel g (VariableRef tok name) = Some ("$" +:+ name)
    end
  ∧ (Spec.findLast (Spec.declares name) (Spec.docElements doc) = None
     ↔ Forall (λ e, Spec.declares name e = false) (Spec.docElements doc))
  ∧ (∀ (elem : Element) prop,
       Properties elem !! prop = Some (VariableRef tok name)
       → generator.getStringProp fuel g elem prop
         = generator.resolveValue fuel g (VariableRef tok name)).
Proof.
  intros g.
  assert (Hreg : generator.labels g !! name
                 = Spec.findLast (Spec.declares name) (Spec.docElements doc)).
  { subst g. destruct (collectLabels_registry doc generator.New) as [_ ->].
    unfold Spec.registered. simpl. rewrite lookup_empty.
    by destruct (Spec.findLast _ _). }
  split_and!; [done| |apply findLast_None|].
  - destruct (Spec.findLast _ _) as [e|].
    + assert (Hres : generator.resolveValue (S fuel) g (VariableRef tok name)
                     = generator.getStringProp fuel g e "contains").
      { simpl. by rewrite Hreg. }
      split_and!; [done| |].
      * intros tok' text Hc. rewrite Hres. unfold generator.getStringProp.
        rewrite Hc. by destruct fuel.
      * intros Hc. rewrite Hres. unfold generator.getStringProp. by rewrite Hc.
    + destruct fuel; simpl; by rewrite Hreg.
  - intros elem prop Hp. unfold generator.getStringProp. by rewrite Hp.
Qed.

(** The input [Samples.linked] renders the reference to the label of the
    heading as the text of the heading, and the reference to a label that
    no element declares as it was written. *)
Example linked_document_renders :
  ∃ g,
    generator.Generate 1 (Samples.documentOf Samples.linked) generator.New
    = Some ("<!DOCTYPE html>" +:+ generator.nl
            +:+ "<html>" +:+ generator.nl
            +:+ "<head>" +:+ generator.nl
            +:+ "  <title>LPML Document</title>" +:+ generator.nl
            +:+ "  <style>" +:+ generator.nl
            +:+ "    .top-of-page { }" +:+ generator.nl
            +:+ "    .mid-page { }" +:+ generator.nl
            +:+ "    .bottom-of-page { }" +:+ generator.nl
            +:+ "  </style>" +:+ generator.nl
            +:+ "</head>" +:+ generator.nl
            +:+ "<body>" +:+ generator.nl
            +:+ "  <div class=" +:+ dq +:+ "top-of-page" +:+ dq +:+ ">" +:+ generator.nl
            +:+ "    <h1 id=" +:+ dq +:+ "t" +:+ dq +:+ ">Title</h1>" +:+ generator.nl
            +:+ "  </div>" +:+ generator.nl
            +:+ "  <div class=" +:+ dq +:+ "mid-page" +:+ dq +:+ ">" +:+ generator.nl
            +:+ "    <div>" +:+ generator.nl
            +:+ "      <p>Title</p>" +:+ generator.nl
            +:+ "      <p>$u</p>" +:+ generator.nl
            +:+ "    </div>" +:+ generator.nl
            +:+ "  </div>" +:+ generator.nl
            +:+ "</body>" +:+ generator.nl
            +:+ "</html>" +:+ generator.nl, g).
Proof. vm_compute. by eexists. Qed.

(** ** Results do not depend on the fuel *)

(** A run of the model that returns with some fuel returns the same with
    more: the fuel bounds the loops and takes no part in the results. *)
Lemma below_refl {A} (r : option A) : below r r.
Proof. by intros a. Qed.

Lemma below_None {A} (r : option A) : below None r.
Proof. by intros a. Qed.

Lemma below_bind {A B} (r r' : option A) (k k' : A → option B) :
  below r r' → (∀ a, below (k a) (k' a)) → below (r ≫= k) (r' ≫= k').
Proof.
  intros Hr Hk b H. destruct r as [a|]; [|done].
  rewrite (Hr a eq_refl). simpl in *. by apply Hk.
Qed.

(** Goals about [below]: the two runs are compared bind by bind and branch
    by branch, the loops by the lemmas of the database [fuel_mono]. *)
Create HintDb fuel_mono discriminated.

Ltac mono_step :=
  first
    [ match goal with |- below ?r ?r => apply below_refl end
    | apply below_None
    | solve [eauto with fuel_mono]
    | apply below_bind; [|intros ?]
    | match goal with
      | |- below (let '(_, _) := ?x in _) _ => destruct x
      | |- below (if ?b then _ else _) _ => destruct b
      | |- below (match ?x with _ => _ end) _ => destruct x
      end ].

Ltac mono := repeat mono_step.

(** The lexer. *)
Lemma readWhile_mono cond f f' l :
  f ≤ f' → below (lexer.readWhile cond f l) (lexer.readWhile cond f' l).
Proof.
  revert f' l. induction f as [|f IH]; intros f' l Hle; [apply below_None|].
  destruct f' as [|f']; [lia|]. simpl. destruct (cond (lexer.ch l)); [|apply below_refl].
  apply IH. lia.
Qed.
#[local] Hint Resolve readWhile_mono : fuel_mono.

Lemma readBraces_mono f f' n l :
  f ≤ f' → below (lexer.readBraces f n l) (lexer.readBraces f' n l).
Proof.
  revert f' n l. induction f as [|f IH]; intros f' n l Hle; [apply below_None|].
  destruct f' as [|f']; [lia|]. simpl.
  assert (f ≤ f') by lia. mono.
Qed.
#[local] Hint Resolve readBraces_mono : fuel_mono.

Lemma NextToken_mono f f' l :
  f ≤ f' → below (lexer.NextToken f l) (lexer.NextToken f' l).
Proof.
  intros Hle. unfold lexer.NextToken, lexer.skipWhitespace, lexer.scanToken,
    lexer.readTag, lexer.readCodeBlock, lexer.readVariableReference, lexer.readString,
    lexer.readNumber, lexer.readIdentifier, lexer.readTagName.
  mono.
Qed.
#[local] Hint Resolve NextToken_mono : fuel_mono.

(** The parser, in the fuel of its lexer and in its own. *)
Section ParserMono.
Variables lf lf' : nat.
Hypothesis Hlf : lf ≤ lf'.

Lemma nextToken_mono p : below (parser.nextToken lf p) (parser.nextToken lf' p).
Proof. unfold parser.nextToken. mono. Qed.
#[local] Hint Resolve nextToken_mono : fuel_mono.

Lemma parser_New_mono l : below (parser.New lf l) (parser.New lf' l).
Proof. unfold parser.New. mono. Qed.

Lemma parseArrayLoop_mono f f' p values :
  f ≤ f' → below (parser.parseArrayLoop lf f p values) (parser.parseArrayLoop lf' f' p values).
Proof.
  revert f' p values. induction f as [|f IH]; intros f' p values Hle; [apply below_None|].
  destruct f' as [|f']; [lia|]. cbn [parser.parseArrayLoop].
  assert (f ≤ f') by lia. mono.
Qed.
#[local] Hint Resolve parseArrayLoop_mono : fuel_mono.

Lemma parseProperty_mono f f' elem p :
  f ≤ f' → below (parser.parseProperty lf f elem p) (parser.parseProperty lf' f' elem p).
Proof.
  intros Hle. unfold parser.parseProperty, parser.parseValue, parser.parseArray. mono.
Qed.
#[local] Hint Resolve parseProperty_mono : fuel_mono.

Lemma parseElement_mono f :
  ∀ f', f ≤ f'
  → (∀ p, below (parser.parseElement lf f p) (parser.parseElement lf' f' p))
    ∧ (∀ ot elem p, below (parser.parseElementLoop lf f ot elem p)
                          (parser.parseElementLoop lf' f' ot elem p)).
Proof.
  induction f as [|f IH]; intros f' Hle; [split; intros; apply below_None|].
  destruct f' as [|f']; [lia|].
  destruct (IH f' ltac:(lia)) as [IHe IHl]. assert (f ≤ f') by lia.
  split; intros; [cbn [parser.parseElement]|cbn [parser.parseElementLoop]]; mono.
Qed.

Lemma parseSectionLoop_mono f f' ct cs p :
  f ≤ f' → below (parser.parseSectionLoop lf f ct cs p) (parser.parseSectionLoop lf' f' ct cs p).
Proof.
  revert f' cs p. induction f as [|f IH]; intros f' cs p Hle; [apply below_None|].
  destruct f' as [|f']; [lia|]. cbn [parser.parseSectionLoop].
  assert (f ≤ f') by lia. pose proof (proj1 (parseElement_mono f f' H)) as He. mono.
Qed.
#[local] Hint Resolve parseSectionLoop_mono : fuel_mono.

Lemma parseDocumentLoop_mono f f' ss p :
  f ≤ f' → below (parser.parseDocumentLoop lf f ss p) (parser.parseDocumentLoop lf' f' ss p).
Proof.
  revert f' ss p. induction f as [|f IH]; intros f' ss p Hle; [apply below_None|].
  destruct f' as [|f']; [lia|]. cbn [parser.parseDocumentLoop].
  assert (f ≤ f') by lia. unfold parser.parsePageSection. mono.
Qed.

Lemma ParseDocument_mono f f' p :
  f ≤ f' → below (parser.ParseDocument lf f p) (parser.ParseDocument lf' f' p).
Proof.
  intros Hle. unfold parser.ParseDocument.
  pose proof (parseDocumentLoop_mono f f' [] p Hle). mono.
Qed.
End ParserMono.

(** The generator. *)
Lemma mapM_mono {A B} (F F' : A → option B) (xs : list A) :
  (∀ x, below (F x) (F' x)) → below (mapM F xs) (mapM F' xs).
Proof.
  intros H. induction xs as [|x xs IH]; [apply below_refl|]. simpl.
  apply below_bind; [apply H|]. intros y. apply below_bind; [apply IH|].
  intros ys. apply below_refl.
Qed.

Lemma resolveValue_mono f :
  ∀ f' g v, f ≤ f' → below (generator.resolveValue f g v) (generator.resolveValue f' g v).
Proof.
  induction f as [|f IH]; intros f' g v Hle.
  - destruct v; destruct f'; simpl; mono.
  - destruct f' as [|f']; [lia|]. assert (f ≤ f') by lia.
    destruct v; simpl; mono. apply mapM_mono. intros x. by apply IH.
Qed.
#[local] Hint Resolve resolveValue_mono : fuel_mono.

Lemma getStringProp_mono f f' g elem name :
  f ≤ f' → below (generator.getStringProp f g elem name) (generator.getStringProp f' g elem name).
Proof. intros Hle. unfold generator.getStringProp. mono. Qed.
#[local] Hint Resolve getStringProp_mono : fuel_mono.

Lemma applyFormattingLoop_mono f f' g items content :
  f ≤ f' → below (generator.applyFormattingLoop f g items content)
                 (generator.applyFormattingLoop f' g items content).
Proof. intros Hle. revert content. induction items as [|item rest IH]; intros content; simpl; mono. Qed.
#[local] Hint Resolve applyFormattingLoop_mono : fuel_mono.

Lemma buildStyleAttr_mono f f' g elem :
  f ≤ f' → below (generator.buildStyleAttr f g elem) (generator.buildStyleAttr f' g elem).
Proof. intros Hle. unfold generator.buildStyleAttr, generator.buildStyles. mono. Qed.
#[local] Hint Resolve buildStyleAttr_mono : fuel_mono.

Lemma generateItems_mono f f' g ci items :
  f ≤ f' → below (generator.generateItems f g ci items) (generator.generateItems f' g ci items).
Proof. intros Hle. induction items as [|item rest IH]; simpl; mono. Qed.
#[local] Hint Resolve generateItems_mono : fuel_mono.

Lemma generateChildren_mono gn gn' (cs : list Node) :
  Forall (λ node, ∀ g, below (gn node g) (gn' node g)) cs
  → ∀ g, below (generator.generateChildren gn cs g) (generator.generateChildren gn' cs g).
Proof. induction 1 as [|c rest Hc _ IH]; intros g; simpl; mono. Qed.

Lemma generateElement_mono f f' gn gn' (elem : Element) g :
  f ≤ f'
  → Forall (λ node, ∀ g, below (gn node g) (gn' node g)) (Children elem)
  → below (generator.generateElement f gn elem g) (generator.generateElement f' gn' elem g).
Proof.
  intros Hle Hcs. pose proof (generateChildren_mono gn gn' _ Hcs) as Hc.
  unfold generator.generateElement, generator.pure, generator.generateDiv,
    generator.generateParagraph, generator.generateHeading, generator.generateLink,
    generator.generateImage, generator.generateList, generator.generateListItem,
    generator.generateTable, generator.generateRow, generator.generateCell,
    generator.generateForm, generator.generateInput, generator.generateButton,
    generator.generateBold, generator.generateItalic, generator.generateCode,
    generator.applyFormatting.
  mono.
Qed.

Lemma generateNode_mono f f' (node : Node) :
  f ≤ f' → ∀ g, below (generator.generateNode f node g) (generator.generateNode f' node g).
Proof.
  intros Hle. induction node as [|e IH] using Node_nested_ind; intros g; simpl; [apply below_refl|].
  by apply generateElement_mono.
Qed.

Lemma generateSections_mono f f' ss g :
  f ≤ f' → below (generator.generateSections f ss g) (generator.generateSections f' ss g).
Proof.
  intros Hle. revert g. induction ss as [|sec rest IH]; intros g; simpl; [apply below_refl|].
  unfold generator.generateSection.
  assert (Hc : ∀ g, below (generator.generateChildren (generator.generateNode f) (SecChildren sec) g)
                 (generator.generateChildren (generator.generateNode f') (SecChildren sec) g)).
  { apply generateChildren_mono, Forall_forall. intros node _. by apply generateNode_mono. }
  mono.
Qed.

Lemma Generate_mono f f' doc g :
  f ≤ f' → below (generator.Generate f doc g) (generator.Generate f' doc g).
Proof.
  intros Hle. unfold generator.Generate.
  pose proof (generateSections_mono f f' (Sections doc) (generator.collectLabels doc g) Hle).
  mono.
Qed.

(** ** The generator state across a rendering *)

Lemma generator_eq g1 g2 :
  generator.labels g1 = generator.labels g2
  → generator.indent g1 = generator.indent g2 → g1 = g2.
Proof. destruct g1, g2. simpl. by intros -> ->. Qed.

Lemma decIndent_incIndent g : generator.decIndent (generator.incIndent g) = g.
Proof. apply generator_eq; simpl; [done|lia]. Qed.

Lemma pure_state r g s g' : generator.pure r g = Some (s, g') → g' = g.
Proof. unfold generator.pure. intros H. bind_in H. by injection H as _ <-. Qed.

Lemma generateChildren_state gn (cs : list Node) :
  Forall (λ node, ∀ g s g', gn node g = Some (s, g') → g' = g) cs
  → ∀ g s g', generator.generateChildren gn cs g = Some (s, g') → g' = g.
Proof.
  induction 1 as [|c rest Hc _ IH]; intros g s g' H; simpl in H.
  - by injection H as _ <-.
  - bind_in H. destruct p as [s1 g1]. bind_in H. destruct p as [s2 g2].
    injection H as _ <-. apply Hc in E. apply IH in E0. congruence.
Qed.

Section ElementKeepsState.

Variable gn : Node → generator.Generator → option (string * generator.Generator).
Variable fuel : nat.
Variable cs : list Node.
Hypothesis gn_state :
  Forall (λ node, ∀ g s g', gn node g = Some (s, g') → g' = g) cs.

Lemma generateElement_state (elem : Element) g s g' :
  Children elem = cs
  → generator.generateElement fuel gn elem g = Some (s, g') → g' = g.
Proof.
  intros Hcs H. unfold generator.generateElement in H.
  repeat match type of H with
         | (if ?b then _ else _) = _ => destruct b
         end;
    try (by apply pure_state in H);
    try (by injection H as _ <-).
  - unfold generator.generateDiv in H. rewrite Hcs in H.
    do 4 bind_in H. destruct p as [body g1]. injection H as _ <-.
    apply (generateChildren_state _ _ gn_state) in E2. subst g1. apply decIndent_incIndent.
  - unfold generator.generateList in H. rewrite Hcs in H.
    do 4 bind_in H. destruct p as [body g1]. injection H as _ <-.
    apply (generateChildren_state _ _ gn_state) in E2. subst g1. apply decIndent_incIndent.
  - unfold generator.generateList in H. rewrite Hcs in H.
    do 4 bind_in H. destruct p as [body g1]. injection H as _ <-.
    apply (generateChildren_state _ _ gn_state) in E2. subst g1. apply decIndent_incIndent.
  - unfold generator.generateList in H. rewrite Hcs in H.
    do 4 bind_in H. destruct p as [body g1]. injection H as _ <-.
    apply (generateChildren_state _ _ gn_state) in E2. subst g1. apply decIndent_incIndent.
  - unfold generator.generateList in H. rewrite Hcs in H.
    do 4 bind_in H. destruct p as [body g1]. injection H as _ <-.
    apply (generateChildren_state _ _ gn_state) in E2. subst g1. apply decIndent_incIndent.
  - unfold generator.generateTable in H. rewrite Hcs in H.
    do 2 bind_in H. destruct p as [body g1]. injection H as _ <-.
    apply (generateChildren_state _ _ gn_state) in E0. subst g1. apply decIndent_incIndent.
  - unfold generator.generateRow in H. rewrite Hcs in H.
    bind_in H. destruct p as [body g1]. injection H as _ <-.
    apply (generateChildren_state _ _ gn_state) in E. subst g1. apply decIndent_incIndent.
  - unfold generator.generateForm in H. rewrite Hcs in H.
    do 3 bind_in H. destruct p as [body g1]. injection H as _ <-.
    apply (generateChildren_state _ _ gn_state) in E1. subst g1. apply decIndent_incIndent.
Qed.

End ElementKeepsState.

Lemma generateNode_state fuel (node : Node) :
  ∀ g s g', generator.generateNode fuel node g = Some (s, g') → g' = g.
Proof.
  induction node as [|e IH] using Node_nested_ind; intros g s g' H; simpl in H.
  - by injection H as _ <-.
  - by eapply generateElement_state in H.
Qed.

Lemma generateSection_state fuel section g s g' :
  generator.generateSection fuel section g = Some (s, g')
  → g' = generator.setIndent g 2.
Proof.
  unfold generator.generateSection. intros H. bind_in H. destruct p as [body g1].
  injection H as _ <-. eapply generateChildren_state; [|done].
  apply Forall_forall. intros node _. apply generateNode_state.
Qed.

Lemma generateSection_indent fuel section g n :
  generator.generateSection fuel section (generator.setIndent g n)
  = generator.generateSection fuel section g.
Proof. reflexivity. Qed.

Lemma generateSections_state fuel sections g s g' :
  generator.generateSections fuel sections g = Some (s, g')
  → g' = match sections with
         | [] => g
         | _ => generator.setIndent g 2
         end.
Proof.
  revert g s g'. induction sections as [|sec rest IH]; intros g s g' H; simpl in H.
  - by injection H as _ <-.
  - bind_in H. destruct p as [s1 g1]. bind_in H. destruct p as [s2 g2].
    injection H as _ <-. apply generateSection_state in E. apply IH in E0.
    subst g1. by destruct rest.
Qed.

Lemma generateSections_indent fuel sections g n :
  sections ≠ []
  → generator.generateSections fuel sections (generator.setIndent g n)
    = generator.generateSections fuel sections g.
Proof. destruct sections as [|sec rest]; [done|]. intros _. reflexivity. Qed.

Lemma collectLabels_again (doc : Document) g g' :
  generator.labels g' = generator.labels (generator.collectLabels doc g)
  → generator.collectLabels doc g' = g'.
Proof.
  intros Hl. destruct (collectLabels_registry doc g') as [Hi' Hl'].
  destruct (collectLabels_registry doc g) as [_ Hl0].
  apply generator_eq; [|done]. apply map_eq. intros name.
  rewrite Hl', Hl, Hl0. unfold Spec.registered. by destruct (Spec.findLast _ _).
Qed.

Lemma collectLabels_same_labels (doc : Document) g1 g2 :
  generator.labels g1 = generator.labels g2
  → generator.labels (generator.collectLabels doc g1)
    = generator.labels (generator.collectLabels doc g2).
Proof.
  intros Hl. apply map_eq. intros name.
  destruct (collectLabels_registry doc g1) as [_ ->].
  destruct (collectLabels_registry doc g2) as [_ ->]. by rewrite Hl.
Qed.

(** C8. When [Generate] has returned an output for a document, calling it
    again on the same document with the generator it left behind returns
    the same output and leaves the generator as it was: the label pass puts
    the same elements under the same names, and every renderer hands the
    indentation back as it received it.  The output depends on the
    generator through its label registry only: two generators with the same
    registry give the same output, whatever their indentation.  The fuel of
    the second call is any fuel that is not less than that of the first:
    the output does not depend on it. *)
Theorem Generate_twice_same_output fuel fuel' (doc : Document) g out g' :
  fuel ≤ fuel'
  → generator.Generate fuel doc g = Some (out, g')
  → generator.Generate fuel' doc g' = Some (out, g')
    ∧ ∀ g2, generator.labels g2 = generator.labels g
            → fst <$> generator.Generate fuel' doc g2 = Some out.
Proof.
  intros Hle H. apply (Generate_mono fuel fuel' doc g Hle) in H. clear Hle fuel.
  unfold generator.Generate in H. bind_in H. destruct p as [body g1].
  injection H as <- <-.
  pose proof (generateSections_state _ _ _ _ _ E) as Hg1.
  split.
  - unfold generator.Generate.
    rewrite (collectLabels_again doc g g1) by (rewrite Hg1; by destruct (Sections doc)).
    destruct (Sections doc) as [|sec rest] eqn:Hs.
    + subst g1. by rewrite E.
    + rewrite Hg1 at 1. rewrite generateSections_indent by done. by rewrite E.
  - intros g2 Hl. unfold generator.Generate.
    assert (Hc : generator.collectLabels doc g2
                 = generator.setIndent (generator.collectLabels doc g)
                     (generator.indent (generator.collectLabels doc g2))).
    { apply generator_eq; [|done]. simpl. by apply collectLabels_same_labels. }
    destruct (Sections doc) as [|sec rest] eqn:Hs.
    + simpl in E. injection E as <- _. reflexivity.
    + rewrite Hc, generateSections_indent by done. by rewrite E.
Qed.

(** C8 on the document of [Samples.linked], from a fresh generator: the
    second call, with more fuel than the first, gives the output of the
    first. *)
Lemma Generate_twice_same_output_witness :
  ∃ out g',
    generator.Generate 5 (Samples.documentOf Samples.linked) generator.New
    = Some (out, g')
    ∧ generator.Generate 9 (Samples.documentOf Samples.linked) g' = Some (out, g').
Proof.
  destruct (generator.Generate 5 (Samples.documentOf Samples.linked) generator.New)
    as [[out g']|] eqn:E; [|by vm_compute in E].
  exists out, g'. split; [done|].
  exact (proj1 (Generate_twice_same_output 5 9 _ _ _ _ ltac:(lia) E)).
Defined.

(** ** A label that refers to itself *)

Lemma resolveValue_self_reference g name (e : Element) tok tok' :
  generator.labels g !! name = Some e
  → Properties e !! "contains" = Some (VariableRef tok name)
  → ∀ fuel, generator.resolveValue fuel g (VariableRef tok' name) = None.
Proof.
  intros Hl Hc fuel. revert tok'. induction fuel as [|fuel IH]; intros tok'; simpl.
  - by rewrite Hl.
  - rewrite Hl, Hc. apply IH.
Qed.

Lemma Generate_None_at_first_paragraph fuel (doc : Document) g section rest
    (e : Element) nodes :
  Sections doc = section :: rest
  → SecChildren section = NodeElement e :: nodes
  → TagType e = "p"
  → generator.getStringProp fuel (generator.setIndent (generator.collectLabels doc g) 2)
                            e "contains" = None
  → generator.Generate fuel doc g = None.
Proof.
  intros Hs Hc Htag Hnone. unfold generator.Generate. rewrite Hs.
  cbn [generator.generateSections]. unfold generator.generateSection. rewrite Hc.
  cbn [generator.generateChildren generator.generateNode].
  unfold generator.generateElement. rewrite Htag.
  cbn [String.eqb Ascii.eqb Bool.eqb]. unfold generator.pure at 1.
  unfold generator.generateParagraph. rewrite Hnone. reflexivity.
Qed.

(** C1 (the code departs from the specification). The input

      [mid-page-start] [p-start] label = "a" contains = $a [p-end] [mid-page-end]

    parses without an error, to a section with one paragraph that declares
    the label a and takes its text from $a.  The label pass registers the
    paragraph under a, and resolving $a asks for the [contains] text of the
    paragraph, which is $a again: [resolveValue] and [getStringProp] call
    each other without end, so no amount of fuel lets [resolveValue] or
    [Generate] return. *)
Theorem Generate_never_returns_on_self_reference :
  (∃ p, Samples.parse 100 Samples.selfReference
        = Some (Samples.selfReferenceDocument, p)
        ∧ parser.Errors p = [])
  ∧ generator.labels
      (generator.collectLabels Samples.selfReferenceDocument generator.New) !! "a"
    = Some Samples.selfReferenceParagraph
  ∧ Properties Samples.selfReferenceParagraph !! "contains"
    = Some (VariableRef (mkToken DOLLAR "a" 1 51) "a")
  ∧ (∀ fuel,
       generator.resolveValue fuel
         (generator.collectLabels Samples.selfReferenceDocument generator.New)
         (VariableRef (mkToken DOLLAR "a" 1 51) "a") = None)
  ∧ (∀ fuel,
       generator.Generate fuel Samples.selfReferenceDocument generator.New = None).
Proof.
  assert (Hl : ∀ n, generator.labels
                 (generator.setIndent
                    (generator.collectLabels Samples.selfReferenceDocument generator.New) n)
               !! "a" = Some Samples.selfReferenceParagraph) by (intros n; by vm_compute).
  assert (Hc : Properties Samples.selfReferenceParagraph !! "contains"
               = Some (VariableRef (mkToken DOLLAR "a" 1 51) "a")) by (by vm_compute).
  split_and!.
  - vm_compute. by eexists.
  - apply (Hl 0).
  - done.
  - intros fuel. by eapply resolveValue_self_reference; [apply (Hl 0)|].
  - intros fuel.
    eapply Generate_None_at_first_paragraph; [reflexivity..|].
    unfold generator.getStringProp. rewrite Hc.
    by eapply resolveValue_self_reference; [apply (Hl 2)|].
Qed.

(** ** Termination of the lexer *)

Lemma get_None_ge (s : string) (n : nat) :
  String.length s ≤ n → String.get n s = None.
Proof.
  revert n. induction s as [|c s IH]; intros n H; [done|].
  destruct n as [|n]; simpl in *; [lia|]. apply IH. lia.
Qed.

Lemma get_Some_lt (s : string) (n : nat) :
  n < String.length s → is_Some (String.get n s).
Proof.
  revert n. induction s as [|c s IH]; intros n H; simpl in *; [lia|].
  destruct n as [|n]; [done|]. apply IH. lia.
Qed.

Lemma byteAt_not_NUL (s : string) (n : nat) : byteAt s n ≠ NUL → n < String.length s.
Proof.
  intros H. destruct (decide (n < String.length s)) as [|Hge]; [done|].
  exfalso. apply H. unfold byteAt. rewrite get_None_ge; [done|lia].
Qed.

Lemma New_wellFormed input : wellFormed (lexer.New input).
Proof.
  unfold wellFormed, lexer.New, lexer.readChar. simpl.
  destruct (String.length input <=? 0)%nat eqn:Hlen.
  - apply Nat.leb_le in Hlen. simpl. split_and!; [done|lia|].
    unfold byteAt. by rewrite get_None_ge by lia.
  - destruct (Ascii.eqb (byteAt input 0) LF); simpl; split_and!; done || lia.
Qed.

Lemma readChar_follows l :
  wellFormed l → lexer.ch l ≠ NUL
  → follows l (lexer.readChar l)
    ∧ Spec.bytesLeft (lexer.readChar l) < Spec.bytesLeft l.
Proof.
  intros (Hrp & Hpos & Hch) Hne.
  assert (Hlt : lexer.position l < String.length (lexer.input l))
    by (apply byteAt_not_NUL; congruence).
  unfold follows, wellFormed, Spec.bytesLeft.
  rewrite (proj2 (Ascii.eqb_neq _ _) Hne). unfold lexer.readChar.
  destruct (String.length (lexer.input l) <=? lexer.readPosition l)%nat eqn:Hlen.
  - apply Nat.leb_le in Hlen. simpl. split_and!; try done; try lia.
    unfold byteAt. by rewrite get_None_ge by lia.
  - apply Nat.leb_gt in Hlen.
    destruct (Ascii.eqb (byteAt _ _) LF); simpl;
      destruct (Ascii.eqb (byteAt _ _) NUL); split_and!; done || lia.
Qed.

Lemma follows_refl l : wellFormed l → follows l l.
Proof. unfold follows. intros H. split_and!; done || lia. Qed.

Lemma follows_trans l1 l2 l3 : follows l1 l2 → follows l2 l3 → follows l1 l3.
Proof.
  unfold follows. intros (_ & Hi & Hp & Hb) (Hw & Hi' & Hp' & Hb').
  split_and!; [done|congruence|lia|lia].
Qed.

Lemma readChar_if_follows (b : bool) l :
  wellFormed l → (b = true → lexer.ch l ≠ NUL)
  → follows l (if b then lexer.readChar l else l).
Proof.
  intros Hw H. destruct b; [|by apply follows_refl].
  by apply readChar_follows; [|apply H].
Qed.

Lemma slice_follows l l' :
  wellFormed l → follows l l'
  → slice (lexer.input l') (lexer.position l) (lexer.position l')
    = Some (String.substring (lexer.position l)
                             (lexer.position l' - lexer.position l)
                             (lexer.input l')).
Proof.
  intros _ ((_ & Hpos & _) & _ & Hle & _). unfold slice.
  by rewrite (proj2 (Nat.leb_le _ _) Hle), (proj2 (Nat.leb_le _ _) Hpos).
Qed.

Lemma readWhile_total cond :
  cond NUL = false
  → ∀ fuel l,
      wellFormed l → Spec.bytesLeft l < fuel
      → ∃ l', lexer.readWhile cond fuel l = Some l'
              ∧ follows l l'
              ∧ (cond (lexer.ch l) = true → Spec.bytesLeft l' < Spec.bytesLeft l)
              ∧ cond (lexer.ch l') = false.
Proof.
  intros Hnul. induction fuel as [|fuel IH]; intros l Hw Hlt; [lia|].
  simpl. destruct (cond (lexer.ch l)) eqn:Ec.
  - assert (Hch : lexer.ch l ≠ NUL) by (intros E; congruence).
    destruct (readChar_follows l Hw Hch) as [Hf Hdec].
    destruct (IH (lexer.readChar l)) as (l' & -> & Hf' & _ & Hc);
      [apply Hf|lia|].
    exists l'. split_and!; [done|by eapply follows_trans| |done].
    intros _. destruct Hf' as (_ & _ & _ & Hle). lia.
  - exists l. split_and!; [done|by apply follows_refl|done|done].
Qed.

Lemma readBraces_total fuel :
  ∀ braceCount l,
    wellFormed l → Spec.bytesLeft l < fuel
    → ∃ l', lexer.readBraces fuel braceCount l = Some l' ∧ follows l l'.
Proof.
  induction fuel as [|fuel IH]; intros n l Hw Hlt; [lia|].
  simpl. destruct (0 <? n)%nat; simpl; [|exists l; split; [done|by apply follows_refl]].
  destruct (Ascii.eqb_spec (lexer.ch l) NUL) as [E|Hch]; simpl;
    [exists l; split; [done|by apply follows_refl]|].
  destruct (readChar_follows l Hw Hch) as [Hf Hdec].
  assert (Hrec : ∀ m, ∃ l', lexer.readBraces fuel m (lexer.readChar l) = Some l'
                            ∧ follows l l').
  { intros m. destruct (IH m (lexer.readChar l)) as (l' & -> & Hf'); [apply Hf|lia|].
    exists l'. split; [done|by eapply follows_trans]. }
  destruct (Ascii.eqb (lexer.ch l) "{"); [apply Hrec|].
  destruct (Ascii.eqb (lexer.ch l) "}"); [|apply Hrec].
  destruct (n - 1 =? 0)%nat; [|apply Hrec].
  exists l. split; [done|by apply follows_refl].
Qed.

Lemma scanned_intro l (tok : Token) l' :
  Type_ tok ≠ EOF → wellFormed l' → Spec.bytesLeft l' < Spec.bytesLeft l
  → scanned l (Some (tok, l')).
Proof.
  intros Hne Hw Hlt. exists tok, l'. split_and!; [done|done| |done].
  unfold Spec.pending. rewrite bool_decide_eq_false_2 by done. lia.
Qed.

Lemma eqb_not_NUL (c d : ascii) : Ascii.eqb c d = true → d ≠ NUL → c ≠ NUL.
Proof. intros E%Ascii.eqb_eq. by subst. Qed.

Lemma readTag_total fuel l :
  wellFormed l → lexer.ch l ≠ NUL → Spec.bytesLeft l < fuel
  → scanned l (lexer.readTag fuel l).
Proof.
  intros Hw Hch Hlt. destruct (readChar_follows l Hw Hch) as [Hf0 Hdec].
  unfold lexer.readTag, lexer.readTagName.
  destruct (readWhile_total lexer.isTagChar eq_refl fuel (lexer.readChar l))
    as (l1 & -> & Hf1 & _); [lexer_steps..|]. cbn [mbind option_bind].
  rewrite slice_follows by lexer_steps. cbn [mbind option_bind].
  destruct (readWhile_total (λ c, negb (Ascii.eqb c "]") && negb (Ascii.eqb c NUL))
              eq_refl fuel l1) as (l2 & -> & Hf2 & _); [lexer_steps..|].
  cbn [mbind option_bind].
  pose proof (readChar_if_follows (Ascii.eqb (lexer.ch l2) "]") l2
                ltac:(lexer_steps) ltac:(intros E; by eapply eqb_not_NUL)) as Hf3.
  apply scanned_intro; [apply LookUpIdent_not_EOF|lexer_steps..].
Qed.

Lemma readCodeBlock_total fuel l :
  wellFormed l → lexer.ch l ≠ NUL → Spec.bytesLeft l < fuel
  → scanned l (lexer.readCodeBlock fuel l).
Proof.
  intros Hw Hch Hlt. destruct (readChar_follows l Hw Hch) as [Hf0 Hdec].
  unfold lexer.readCodeBlock.
  destruct (readWhile_total
              (λ c, Ascii.eqb c SPACE || Ascii.eqb c TAB || Ascii.eqb c LF
                    || Ascii.eqb c CR) eq_refl fuel (lexer.readChar l))
    as (l1 & -> & Hf1 & _); [lexer_steps..|]. cbn [mbind option_bind].
  destruct (readBraces_total fuel 1 l1) as (l2 & -> & Hf2); [lexer_steps..|].
  cbn [mbind option_bind].
  rewrite slice_follows by lexer_steps. cbn [mbind option_bind].
  pose proof (readChar_if_follows (Ascii.eqb (lexer.ch l2) "}") l2
                ltac:(lexer_steps) ltac:(intros E; by eapply eqb_not_NUL)) as Hf3.
  apply scanned_intro; [done|lexer_steps..].
Qed.

Lemma readIdentifier_total fuel l :
  wellFormed l → Spec.bytesLeft l < fuel
  → ∃ lit l', lexer.readIdentifier fuel l = Some (lit, l')
              ∧ follows l l'
              ∧ (lexer.isLetter (lexer.ch l) || Ascii.eqb (lexer.ch l) "_" = true
                 → Spec.bytesLeft l' < Spec.bytesLeft l).
Proof.
  intros Hw Hlt. unfold lexer.readIdentifier.
  destruct (readWhile_total
              (λ c, lexer.isLetter c || lexer.isDigit c || Ascii.eqb c "_")
              eq_refl fuel l) as (l1 & -> & Hf & Hstrict & _); [done..|].
  cbn [mbind option_bind]. rewrite slice_follows by done.
  cbn [mbind option_bind]. eexists _, _. split_and!; [done|done|].
  intros H. apply Hstrict.
  destruct (lexer.isLetter (lexer.ch l)), (lexer.isDigit (lexer.ch l)); try done.
Qed.

Lemma readVariableReference_total fuel l :
  wellFormed l → lexer.ch l ≠ NUL → Spec.bytesLeft l < fuel
  → scanned l (lexer.readVariableReference fuel l).
Proof.
  intros Hw Hch Hlt. destruct (readChar_follows l Hw Hch) as [Hf0 Hdec].
  unfold lexer.readVariableReference.
  destruct (readIdentifier_total fuel (lexer.readChar l))
    as (lit & l1 & -> & Hf1 & _); [lexer_steps..|]. cbn [mbind option_bind].
  apply scanned_intro; [done|lexer_steps..].
Qed.

Lemma readString_total fuel l :
  wellFormed l → lexer.ch l ≠ NUL → Spec.bytesLeft l < fuel
  → ∃ lit l', lexer.readString fuel l = Some (lit, l')
              ∧ wellFormed l'
              ∧ Spec.bytesLeft l' < Spec.bytesLeft l.
Proof.
  intros Hw Hch Hlt. destruct (readChar_follows l Hw Hch) as [Hf0 Hdec].
  unfold lexer.readString.
  destruct (readWhile_total (λ c, negb (Ascii.eqb c DQUOTE) && negb (Ascii.eqb c NUL))
              eq_refl fuel (lexer.readChar l)) as (l1 & -> & Hf1 & _);
    [lexer_steps..|].
  cbn [mbind option_bind]. rewrite slice_follows by lexer_steps.
  cbn [mbind option_bind].
  pose proof (readChar_if_follows (Ascii.eqb (lexer.ch l1) DQUOTE) l1
                ltac:(lexer_steps) ltac:(intros E; by eapply eqb_not_NUL)) as Hf2.
  eexists _, _. split; [done|lexer_steps].
Qed.

Lemma readNumber_total fuel l :
  wellFormed l → lexer.isDigit (lexer.ch l) = true → Spec.bytesLeft l < fuel
  → ∃ lit l', lexer.readNumber fuel l = Some (lit, l')
              ∧ wellFormed l'
              ∧ Spec.bytesLeft l' < Spec.bytesLeft l.
Proof.
  intros Hw Hd Hlt. unfold lexer.readNumber.
  destruct (readWhile_total (λ c, lexer.isDigit c || Ascii.eqb c ".") eq_refl fuel l)
    as (l1 & -> & Hf & Hstrict & _); [done..|].
  cbn [mbind option_bind]. rewrite slice_follows by done.
  cbn [mbind option_bind]. eexists _, _. split_and!; [done|lexer_steps|].
  apply Hstrict. by rewrite Hd.
Qed.

Lemma scanToken_total fuel l :
  wellFormed l → Spec.bytesLeft l < fuel → scanned l (lexer.scanToken fuel l).
Proof.
  intros Hw Hlt. unfold lexer.scanToken. cbv zeta.
  assert (Hone : ∀ t c, t ≠ EOF → lexer.ch l ≠ NUL
                 → scanned l (Some (lexer.newToken t c (lexer.line l) (lexer.column l),
                                    lexer.readChar l))).
  { intros t c Ht Hch. destruct (readChar_follows l Hw Hch) as [Hf Hdec].
    apply scanned_intro; [done|apply Hf|done]. }
  destruct (Ascii.eqb (lexer.ch l) "[") eqn:E1.
  { assert (Hch : lexer.ch l ≠ NUL) by (by eapply eqb_not_NUL).
    destruct (lexer.isArrayStart l); [by apply Hone|by apply readTag_total]. }
  destruct (Ascii.eqb (lexer.ch l) "]") eqn:E2.
  { apply Hone; [done|by eapply eqb_not_NUL]. }
  destruct (Ascii.eqb (lexer.ch l) "=") eqn:E3.
  { apply Hone; [done|by eapply eqb_not_NUL]. }
  destruct (Ascii.eqb (lexer.ch l) ",") eqn:E4.
  { apply Hone; [done|by eapply eqb_not_NUL]. }
  destruct (Ascii.eqb (lexer.ch l) "{") eqn:E5.
  { apply readCodeBlock_total; [done|by eapply eqb_not_NUL|done]. }
  destruct (Ascii.eqb (lexer.ch l) "$") eqn:E6.
  { apply readVariableReference_total; [done|by eapply eqb_not_NUL|done]. }
  destruct (Ascii.eqb (lexer.ch l) DQUOTE) eqn:E7.
  { destruct (readString_total fuel l) as (lit & l1 & -> & Hw1 & Hdec);
      [done|by eapply eqb_not_NUL|done|].
    cbn [mbind option_bind]. by apply scanned_intro. }
  destruct (Ascii.eqb (lexer.ch l) LF) eqn:E8.
  { apply Hone; [done|by eapply eqb_not_NUL]. }
  destruct (Ascii.eqb_spec (lexer.ch l) NUL) as [E9|E9].
  { eexists _, _. split_and!; [done|done|simpl; lia|done]. }
  destruct (lexer.isDigit (lexer.ch l)) eqn:E10.
  { destruct (readNumber_total fuel l) as (lit & l1 & -> & Hw1 & Hdec); [done..|].
    cbn [mbind option_bind]. by apply scanned_intro. }
  destruct (lexer.isLetter (lexer.ch l) || Ascii.eqb (lexer.ch l) "_") eqn:E11.
  { destruct (readIdentifier_total fuel l) as (lit & l1 & -> & Hf & Hdec); [done..|].
    cbn [mbind option_bind]. apply scanned_intro; [done|apply Hf|by apply Hdec]. }
  by apply Hone.
Qed.

Lemma NextToken_total fuel l :
  wellFormed l → Spec.bytesLeft l < fuel → scanned l (lexer.NextToken fuel l).
Proof.
  intros Hw Hlt. unfold lexer.NextToken, lexer.skipWhitespace.
  destruct (readWhile_total lexer.isSpace eq_refl fuel l) as (l1 & -> & Hf & _);
    [done..|].
  cbn [mbind option_bind].
  destruct (scanToken_total fuel l1) as (tok & l' & -> & Hw' & Hpay & Hend);
    [lexer_steps..|].
  exists tok, l'. split_and!; [done|done|lexer_steps|done].
Qed.

Lemma NextToken_at_end fuel l :
  lexer.ch l = NUL
  → lexer.NextToken (S fuel) l
    = Some (mkToken EOF EmptyString (lexer.line l) (lexer.column l), l).
Proof.
  intros E. unfold lexer.NextToken, lexer.skipWhitespace. simpl.
  rewrite E. simpl. unfold lexer.scanToken. rewrite E. reflexivity.
Qed.

(** ** Termination of the parser *)

Lemma pending_not_EOF (t : Token) : Type_ t ≠ EOF → Spec.pending t = 1.
Proof. intros H. unfold Spec.pending. by rewrite bool_decide_eq_false_2. Qed.

Lemma IsOpeningTag_not_EOF t : IsOpeningTag t = true → t ≠ EOF.
Proof. by intros H ->. Qed.

Section ParserTerminates.

Variable lf : nat.

Lemma nextToken_total p :
  fuelled lf p
  → ∃ p', parser.nextToken lf p = Some p'
          ∧ Spec.workLeft p' + Spec.pending (parser.curToken p) ≤ Spec.workLeft p
          ∧ Spec.bytesLeft (parser.l p') ≤ Spec.bytesLeft (parser.l p)
          ∧ wellFormed (parser.l p')
          ∧ parser.curToken p' = parser.peekToken p
          ∧ parser.errors p' = parser.errors p.
Proof.
  intros [Hw Hf]. unfold parser.nextToken.
  destruct (NextToken_total lf (parser.l p) Hw Hf) as (tok & l' & -> & Hw' & Hpay & _).
  cbn [mbind option_bind]. eexists. split; [done|].
  unfold Spec.workLeft. simpl. split_and!; [lia|lia|done|done|done].
Qed.

Lemma nextToken_advanced p :
  fuelled lf p → ∃ p', parser.nextToken lf p = Some p' ∧ advanced p p'.
Proof.
  intros Hf. destruct (nextToken_total p Hf) as (p' & -> & Hw & Hb & Hwf & _).
  exists p'. split; [done|]. unfold advanced. split_and!; [lia|lia|done].
Qed.

Lemma nextToken_consumed p :
  fuelled lf p → Type_ (parser.curToken p) ≠ EOF
  → ∃ p', parser.nextToken lf p = Some p' ∧ consumed p p'.
Proof.
  intros Hf Hne. destruct (nextToken_total p Hf) as (p' & -> & Hw & Hb & Hwf & _).
  exists p'. split; [done|]. rewrite pending_not_EOF in Hw by done.
  unfold consumed. split_and!; [lia|lia|done].
Qed.

Lemma parseArrayLoop_total fuel :
  ∀ p values,
    fuelled lf p → Spec.workLeft p < fuel
    → ∃ values' p', parser.parseArrayLoop lf fuel p values = Some (values', p')
                    ∧ advanced p p'.
Proof.
  induction fuel as [|fuel IH]; intros p values Hf Hw; [lia|].
  cbn [parser.parseArrayLoop].
  destruct (bool_decide (Type_ (parser.curToken p) ≠ RBRACKET)
            && bool_decide (Type_ (parser.curToken p) ≠ EOF)) eqn:Hcond;
    [|eexists _, _; split; [done|measure]].
  apply andb_true_iff in Hcond as [_ Hne%bool_decide_eq_true].
  destruct (nextToken_consumed p Hf Hne) as (p1 & Hnext & Hc).
  assert (Hrec : ∀ vs, ∃ values' p',
             parser.parseArrayLoop lf fuel p1 vs = Some (values', p') ∧ advanced p p').
  { intros vs. destruct (IH p1 vs) as (values' & p' & -> & Ha); [measure..|].
    eexists _, _. split; [done|measure]. }
  destruct (Type_ (parser.curToken p)); rewrite Hnext; cbn [mbind option_bind];
    apply Hrec.
Qed.

Lemma parseArray_total fuel p :
  fuelled lf p → Type_ (parser.curToken p) ≠ EOF → Spec.workLeft p ≤ fuel
  → ∃ arr p', parser.parseArray lf fuel p = Some (arr, p') ∧ consumed p p'.
Proof.
  intros Hf Hne Hw. unfold parser.parseArray.
  destruct (nextToken_consumed p Hf Hne) as (p1 & -> & Hc1).
  cbn [mbind option_bind].
  destruct (parseArrayLoop_total fuel p1 []) as (values & p2 & -> & Ha2);
    [measure..|].
  cbn [mbind option_bind].
  destruct (bool_decide (Type_ (parser.curToken p2) = RBRACKET)).
  - destruct (nextToken_advanced p2) as (p3 & -> & Ha3); [measure|].
    cbn [mbind option_bind]. eexists _, _. split; [done|measure].
  - cbn [mbind option_bind]. eexists _, _. split; [done|measure].
Qed.

Lemma parseValue_total fuel propName p :
  fuelled lf p → Spec.workLeft p ≤ fuel
  → ∃ value p', parser.parseValue lf fuel propName p = Some (value, p')
                ∧ advanced p p'.
Proof.
  intros Hf Hw. unfold parser.parseValue.
  assert (Hnext : Type_ (parser.curToken p) ≠ EOF
                  → ∀ v : Value, ∃ (value : option Value) p',
                      (p' ← parser.nextToken lf p; Some (Some v, p')) = Some (value, p')
                      ∧ advanced p p').
  { intros Hne v. destruct (nextToken_consumed p Hf Hne) as (p1 & -> & Hc).
    cbn [mbind option_bind]. eexists _, _. split; [done|measure]. }
  destruct (Type_ (parser.curToken p)) eqn:Ht;
    try (by eexists _, _; split; [done|measure]);
    try (by apply Hnext).
  destruct (parseArray_total fuel p Hf) as (arr & p1 & -> & Hc); [by rewrite Ht|done|].
  cbn [mbind option_bind]. eexists _, _. split; [done|measure].
Qed.

Lemma parseProperty_total fuel (elem : Element) p :
  fuelled lf p → Type_ (parser.curToken p) ≠ EOF → Spec.workLeft p ≤ fuel
  → ∃ elem' p', parser.parseProperty lf fuel elem p = Some (elem', p')
                ∧ consumed p p'.
Proof.
  intros Hf Hne Hw. unfold parser.parseProperty.
  destruct (nextToken_consumed p Hf Hne) as (p1 & -> & Hc1).
  cbn [mbind option_bind].
  destruct (bool_decide (Type_ (parser.curToken p1) ≠ EQUALS));
    [eexists _, _; split; [done|measure]|].
  destruct (nextToken_advanced p1) as (p2 & -> & Ha2); [measure|].
  cbn [mbind option_bind].
  destruct (parseValue_total fuel (Literal (parser.curToken p)) p2)
    as (value & p3 & -> & Ha3); [measure..|].
  cbn [mbind option_bind].
  destruct value; eexists _, _; (split; [done|measure]).
Qed.

Lemma parseElement_total fuel :
  (∀ p, fuelled lf p → 2 * Spec.workLeft p + 1 ≤ fuel
        → ∃ r p', parser.parseElement lf fuel p = Some (r, p')
                  ∧ advanced p p'
                  ∧ (Type_ (parser.curToken p) ≠ EOF → consumed p p'))
  ∧ (∀ openingType (elem : Element) p,
       fuelled lf p → 2 * Spec.workLeft p + 2 ≤ fuel
       → ∃ elem' p', parser.parseElementLoop lf fuel openingType elem p
                     = Some (elem', p')
                     ∧ advanced p p').
Proof.
  induction fuel as [|fuel [IHe IHl]]; [split; intros; lia|]. split.
  - intros p Hf Hw. cbn [parser.parseElement].
    destruct (IsOpeningTag (Type_ (parser.curToken p))) eqn:Hopen; cbn [negb].
    + apply IsOpeningTag_not_EOF in Hopen.
      destruct (nextToken_consumed p Hf Hopen) as (p1 & -> & Hc1).
      cbn [mbind option_bind].
      destruct (IHl (Type_ (parser.curToken p))
                    (mkElement (parser.curToken p)
                               (GetTagName (Type_ (parser.curToken p))) ∅ []) p1)
        as (elem' & p2 & -> & Ha2); [measure..|].
      cbn [mbind option_bind].
      destruct (parser.isMatchingClose _ _).
      * destruct (nextToken_advanced p2) as (p3 & -> & Ha3); [measure|].
        cbn [mbind option_bind].
        eexists _, _. split_and!; [done|measure|intros _; measure].
      * eexists _, _. split_and!; [done|measure|intros _; measure].
    + destruct (nextToken_total p Hf) as (p1 & -> & Hw1 & Hb1 & Hwf1 & _).
      cbn [mbind option_bind]. eexists _, _. split_and!; [done|measure|].
      intros Hne. rewrite pending_not_EOF in Hw1 by done. measure.
  - intros openingType elem p Hf Hw. cbn [parser.parseElementLoop].
    destruct (negb (parser.isMatchingClose openingType (Type_ (parser.curToken p)))
              && bool_decide (Type_ (parser.curToken p) ≠ EOF)) eqn:Hcond;
      [|eexists _, _; split; [done|measure]].
    apply andb_true_iff in Hcond as [_ Hne%bool_decide_eq_true].
    assert (Hrec : ∀ e p1, consumed p p1
              → ∃ elem' p', parser.parseElementLoop lf fuel openingType e p1
                            = Some (elem', p') ∧ advanced p p').
    { intros e p1 Hc.
      destruct (IHl openingType e p1) as (elem' & p' & -> & Ha); [measure..|].
      eexists _, _. split; [done|measure]. }
    destruct (bool_decide (Type_ (parser.curToken p) = IDENT)).
    + destruct (parseProperty_total fuel elem p Hf Hne) as (e1 & p1 & -> & Hc1);
        [lia|].
      cbn [mbind option_bind]. by apply Hrec.
    + destruct (IsOpeningTag (Type_ (parser.curToken p))).
      * destruct (IHe p Hf) as (child & p1 & -> & _ & Hc1); [lia|].
        cbn [mbind option_bind]. apply Hrec. by apply Hc1.
      * destruct (nextToken_consumed p Hf Hne) as (p1 & -> & Hc1).
        cbn [mbind option_bind]. by apply Hrec.
Qed.

Lemma parseSectionLoop_total fuel :
  ∀ closingTag children p,
    fuelled lf p → 2 * Spec.workLeft p + 2 ≤ fuel
    → ∃ children' p', parser.parseSectionLoop lf fuel closingTag children p
                      = Some (children', p')
                      ∧ advanced p p'.
Proof.
  induction fuel as [|fuel IH]; intros closingTag children p Hf Hw; [lia|].
  cbn [parser.parseSectionLoop].
  destruct (bool_decide (Type_ (parser.curToken p) ≠ closingTag)
            && bool_decide (Type_ (parser.curToken p) ≠ EOF)) eqn:Hcond;
    [|eexists _, _; split; [done|measure]].
  apply andb_true_iff in Hcond as [_ Hne%bool_decide_eq_true].
  destruct (proj1 (parseElement_total fuel) p Hf) as (child & p1 & -> & _ & Hc1);
    [lia|].
  specialize (Hc1 Hne). cbn [mbind option_bind].
  match goal with
  | |- ∃ _ _, parser.parseSectionLoop _ _ _ ?cs _ = _ ∧ _ =>
      destruct (IH closingTag cs p1) as (children' & p' & -> & Ha); [measure..|]
  end.
  eexists _, _. split; [done|measure].
Qed.

Lemma parsePageSection_total fuel p :
  fuelled lf p → Type_ (parser.curToken p) ≠ EOF → 2 * Spec.workLeft p ≤ fuel
  → ∃ section p', parser.parsePageSection lf fuel p = Some (section, p')
                  ∧ consumed p p'.
Proof.
  intros Hf Hne Hw. unfold parser.parsePageSection.
  destruct (nextToken_consumed p Hf Hne) as (p1 & -> & Hc1).
  cbn [mbind option_bind].
  destruct (parseSectionLoop_total fuel
              (GetMatchingClose (Type_ (parser.curToken p))) [] p1)
    as (children & p2 & -> & Ha2); [measure..|].
  cbn [mbind option_bind].
  destruct (bool_decide (Type_ (parser.curToken p2)
                         = GetMatchingClose (Type_ (parser.curToken p)))).
  - destruct (nextToken_advanced p2) as (p3 & -> & Ha3); [measure|].
    cbn [mbind option_bind]. eexists _, _. split; [done|measure].
  - eexists _, _. split; [done|measure].
Qed.

Lemma parseDocumentLoop_total fuel :
  ∀ sections p,
    fuelled lf p → 2 * Spec.workLeft p + 1 ≤ fuel
    → ∃ sections' p', parser.parseDocumentLoop lf fuel sections p
                      = Some (sections', p')
                      ∧ advanced p p'
                      ∧ Type_ (parser.curToken p') = EOF.
Proof.
  induction fuel as [|fuel IH]; intros sections p Hf Hw; [lia|].
  cbn [parser.parseDocumentLoop].
  destruct (bool_decide_reflect (Type_ (parser.curToken p) ≠ EOF)) as [Hne|Heof].
  2:{ eexists _, _. split_and!; [done|measure|].
      by destruct (decide (Type_ (parser.curToken p) = EOF)). }
  assert (Hrec : ∀ ss p1, consumed p p1
            → ∃ sections' p', parser.parseDocumentLoop lf fuel ss p1
                              = Some (sections', p')
                              ∧ advanced p p' ∧ Type_ (parser.curToken p') = EOF).
  { intros ss p1 Hc.
    destruct (IH ss p1) as (sections' & p' & -> & Ha & Heof); [measure..|].
    eexists _, _. split_and!; [done|measure|done]. }
  destruct (IsPageSection (Type_ (parser.curToken p))).
  - destruct (parsePageSection_total fuel p Hf Hne) as (section & p1 & -> & Hc1);
      [lia|].
    cbn [mbind option_bind]. by apply Hrec.
  - destruct (nextToken_consumed p Hf Hne) as (p1 & -> & Hc1).
    cbn [mbind option_bind]. by apply Hrec.
Qed.

End ParserTerminates.

Lemma bytesLeft_New input : Spec.bytesLeft (lexer.New input) ≤ String.length input.
Proof.
  unfold lexer.New, lexer.readChar, Spec.bytesLeft. simpl.
  destruct (String.length input <=? 0)%nat eqn:Hlen; [simpl; lia|].
  apply Nat.leb_gt in Hlen.
  destruct (Ascii.eqb (byteAt input 0) LF); simpl;
    destruct (Ascii.eqb (byteAt input 0) NUL); lia.
Qed.

Lemma parser_New_total lf input :
  String.length input < lf
  → ∃ p, parser.New lf (lexer.New input) = Some p
         ∧ fuelled lf p
         ∧ Spec.workLeft p ≤ String.length input
         ∧ parser.errors p = [].
Proof.
  intros Hlf. pose proof (bytesLeft_New input) as Hb. unfold parser.New.
  set (p0 := parser.mkParser (lexer.New input) zeroToken zeroToken []).
  assert (Hf0 : fuelled lf p0).
  { split; [apply New_wellFormed|simpl; lia]. }
  destruct (nextToken_total lf p0 Hf0) as (p1 & -> & Hw1 & Hb1 & Hwf1 & Hcur1 & He1).
  cbn [mbind option_bind].
  assert (Hf1 : fuelled lf p1) by (split; [done|simpl in *; lia]).
  destruct (nextToken_total lf p1 Hf1) as (p2 & -> & Hw2 & Hb2 & Hwf2 & _ & He2).
  exists p2. split_and!; [done|split; [done|simpl in *; lia]| |by rewrite He2, He1].
  rewrite Hcur1 in Hw2. unfold Spec.workLeft in Hw1 at 2. simpl in Hw1, Hw2.
  change (Spec.pending zeroToken) with 1 in *. lia.
Qed.

(** C10. For every input there are a parser, a document and a final parser
    such that, with any lexer fuel above the length of the input and any
    parser fuel above twice that length, the parser is set up as that
    parser, and [ParseDocument] returns that document and leaves that final
    parser, which is at the end-of-input token: no loop runs out of fuel,
    no slice of the input is out of range, and the result does not depend
    on the fuel.  The loops end because each round consumes a token:
    [nextToken] on a current token other than end-of-input (the rounds of
    the array loop and the skipping rounds of the other loops),
    [parseProperty] and [parseElement] (the rounds of the element and
    section loops) and [parsePageSection] (the rounds of the document loop)
    each return with strictly less left to consume, counted as the buffered
    tokens that are not end-of-input plus the unread bytes.  At the end of
    the input, where the current byte is NUL, [NextToken] returns the
    end-of-input token and leaves the lexer as it is, so that every later
    call does the same; and it returns that token nowhere else. *)
Theorem ParseDocument_terminates :
  (∀ input, ∃ p doc p',
     (∀ lf fuel,
        String.length input < lf → 2 * String.length input + 1 ≤ fuel
        → parser.New lf (lexer.New input) = Some p
          ∧ parser.ParseDocument lf fuel p = Some (doc, p'))
     ∧ Type_ (parser.curToken p') = EOF)
  ∧ (∀ lf p,
       fuelled lf p → Type_ (parser.curToken p) ≠ EOF
       → ∃ p', parser.nextToken lf p = Some p' ∧ consumed p p')
  ∧ (∀ lf fuel (elem : Element) p,
       fuelled lf p → Type_ (parser.curToken p) ≠ EOF → Spec.workLeft p ≤ fuel
       → ∃ elem' p', parser.parseProperty lf fuel elem p = Some (elem', p')
                     ∧ consumed p p')
  ∧ (∀ lf fuel p,
       fuelled lf p → Type_ (parser.curToken p) ≠ EOF → 2 * Spec.workLeft p + 1 ≤ fuel
       → ∃ child p', parser.parseElement lf fuel p = Some (child, p')
                     ∧ consumed p p')
  ∧ (∀ lf fuel p,
       fuelled lf p → Type_ (parser.curToken p) ≠ EOF → 2 * Spec.workLeft p ≤ fuel
       → ∃ section p', parser.parsePageSection lf fuel p = Some (section, p')
                       ∧ consumed p p')
  ∧ (∀ fuel l,
       lexer.ch l = NUL
       → lexer.NextToken (S fuel) l
         = Some (mkToken EOF EmptyString (lexer.line l) (lexer.column l), l))
  ∧ (∀ fuel l tok l',
       wellFormed l → Spec.bytesLeft l < fuel
       → lexer.NextToken fuel l = Some (tok, l')
       → Type_ tok = EOF → lexer.ch l' = NUL).
Proof.
  split_and!.
  - intros input. set (n := String.length input).
    destruct (parser_New_total (S n) input) as (p & Hnew & Hf & Hw & _); [lia|].
    destruct (parseDocumentLoop_total (S n) (2 * n + 1) [] p Hf)
      as (ss & p' & Hloop & _ & Heof); [lia|].
    exists p, (mkDocument ss), p'. split; [|done].
    intros lf fuel Hlf Hfuel. split.
    + by apply (parser_New_mono (S n) lf Hlf).
    + apply (ParseDocument_mono (S n) lf Hlf (2 * n + 1) fuel p Hfuel).
      unfold parser.ParseDocument. by rewrite Hloop.
  - apply nextToken_consumed.
  - apply parseProperty_total.
  - intros lf fuel p Hf Hne Hw.
    destruct (proj1 (parseElement_total lf fuel) p Hf Hw) as (r & p' & -> & _ & Hc).
    eexists _, _. split; [done|by apply Hc].
  - apply parsePageSection_total.
  - apply NextToken_at_end.
  - intros fuel l tok l' Hw Hlt H Ht.
    destruct (NextToken_total fuel l Hw Hlt) as (tok' & l'' & H' & _ & _ & Hend).
    rewrite H in H'. injection H' as <- <-. by apply Hend.
Qed.

(** C10 on the input [Samples.linked]. *)
Lemma ParseDocument_terminates_witness :
  ∃ p doc p',
    parser.New 300 (lexer.New Samples.linked) = Some p
    ∧ parser.ParseDocument 300 600 p = Some (doc, p')
    ∧ Type_ (parser.curToken p') = EOF.
Proof.
  destruct (proj1 ParseDocument_terminates Samples.linked) as (p & doc & p' & H & Heof).
  exists p, doc, p'.
  destruct (H 300 600) as [Hnew Hparse]; [vm_compute; lia..|]. by split_and!.
Defined.

(** * Further properties of the code *)

(** ** The token tables *)

(** X1. The opening tags are the token types that [GetMatchingClose] maps to
    something other than ILLEGAL; what it maps them to is a closing tag and
    no opening tag; every closing tag is the matching close of an opening
    tag, and of one only. *)
Theorem opening_tags_pair_with_closing_tags (t : TokenType) :
  (IsOpeningTag t = true ↔ GetMatchingClose t ≠ ILLEGAL)
  ∧ (IsOpeningTag t = true
     → IsClosingTag (GetMatchingClose t) = true
       ∧ IsOpeningTag (GetMatchingClose t) = false)
  ∧ (IsClosingTag t = true
     → IsOpeningTag t = false
       ∧ ∃ open, IsOpeningTag open = true ∧ GetMatchingClose open = t)
  ∧ (∀ t', IsOpeningTag t = true → GetMatchingClose t = GetMatchingClose t' → t = t').
Proof.
  split_and!.
  - by destruct t.
  - by destruct t.
  - destruct t; try done; intros _; (split; [done|]).
    all: first
      [ by exists TOP_OF_PAGE_START | by exists MID_PAGE_START
      | by exists BOTTOM_OF_PAGE_START | by exists DIVIDE_START | by exists P_START
      | by exists H_START | by exists LINK_START | by exists IMG_START
      | by exists LIST_START | by exists LIST_ORD_START | by exists LIST_UNORD_START
      | by exists ITEM_START | by exists TABLE_START | by exists ROW_START
      | by exists CELL_START | by exists FORM_START | by exists INPUT_START
      | by exists BTN_START | by exists BOLD_START | by exists ITALIC_START
      | by exists CODE_START ].
  - intros t' Ht. destruct t; try done; by destruct t'.
Qed.

(** X2. [GetTagName] gives a name to the opening and closing tags and to no
    other token type, the same name to an opening tag and to its matching
    closing tag, and different names to different opening tags.  The page
    sections are the token types with a section type, which is "top", "mid"
    or "bottom", and they are opening tags. *)
Theorem tag_names_follow_token_types (t : TokenType) :
  (GetTagName t ≠ EmptyString ↔ IsOpeningTag t || IsClosingTag t = true)
  ∧ (IsOpeningTag t = true → GetTagName (GetMatchingClose t) = GetTagName t)
  ∧ (∀ t', IsOpeningTag t = true → IsOpeningTag t' = true
           → GetTagName t = GetTagName t' → t = t')
  ∧ (IsPageSection t = true ↔ GetSectionType t ≠ EmptyString)
  ∧ (IsPageSection t = true → IsOpeningTag t = true)
  ∧ (IsPageSection t = true
     → GetSectionType t = "top" ∨ GetSectionType t = "mid" ∨ GetSectionType t = "bottom").
Proof.
  split_and!.
  - by destruct t.
  - by destruct t.
  - intros t' Ht Ht'. destruct t; try done; by destruct t'.
  - by destruct t.
  - by destruct t.
  - destruct t; try done; intros _; auto.
Qed.

(** No token type is behind two keywords. *)
Lemma keyword_type_names (a b : string) t :
  (a, t) ∈ keywords → (b, t) ∈ keywords → a = b.
Proof.
  intros Ha Hb. unfold keywords in *.
  repeat (apply elem_of_cons in Ha as [Ha|Ha]; [injection Ha as -> ->|]);
    [..|by apply elem_of_nil in Ha].
  all: repeat (apply elem_of_cons in Hb as [Hb|Hb]; [by injection Hb as -> |]);
    by apply elem_of_nil in Hb.
Qed.

(** Every keyword is the name of a tag. *)
Lemma keyword_is_tag (a : string) t :
  (a, t) ∈ keywords → IsOpeningTag t || IsClosingTag t = true.
Proof.
  intros Ha. unfold keywords in *.
  repeat (apply elem_of_cons in Ha as [Ha|Ha]; [by injection Ha as -> ->|]).
  by apply elem_of_nil in Ha.
Qed.

(** X3. [LookUpIdent] gives IDENT or a tag; two names with the same tag are
    the same name; every opening tag has a name, and so has every closing
    tag but LIST_UNORD_END. *)
Theorem keywords_name_each_tag_once :
  (∀ name, LookUpIdent name = IDENT ∨ IsOpeningTag (LookUpIdent name) = true
           ∨ IsClosingTag (LookUpIdent name) = true)
  ∧ (∀ a b, LookUpIdent a = LookUpIdent b → LookUpIdent a ≠ IDENT → a = b)
  ∧ (∀ t, IsOpeningTag t = true → ∃ name, LookUpIdent name = t)
  ∧ (∀ t, IsClosingTag t = true → t ≠ LIST_UNORD_END → ∃ name, LookUpIdent name = t).
Proof.
  split_and!.
  - intros name. destruct (LookUpIdent_cases name) as [H|H]; [by left|right].
    apply keyword_is_tag in H. by apply orb_true_iff in H.
  - intros a b Hab Hne.
    destruct (LookUpIdent_cases a) as [H|Ha]; [done|].
    destruct (LookUpIdent_cases b) as [H|Hb]; [congruence|].
    rewrite <- Hab in Hb. by apply (keyword_type_names a b _ Ha Hb).
  - intros t Ht. exists (default EmptyString (fst <$> list_find (λ kt, bool_decide (kt.2 = t)) keywords ≫= λ r, Some r.2)).
    by destruct t.
  - intros t Ht Hne.
    exists (default EmptyString (fst <$> list_find (λ kt, bool_decide (kt.2 = t)) keywords ≫= λ r, Some r.2)).
    by destruct t.
Qed.

(** ** What the lexer reads *)

Lemma reads_trans l1 l2 l3 : reads l1 l2 → reads l2 l3 → reads l1 l3.
Proof. intros H12 H23. induction H23; [done|by constructor]. Qed.

Lemma reads_one l : lexer.ch l ≠ NUL → reads l (lexer.readChar l).
Proof. intros H. by apply reads_next; [constructor|]. Qed.

Lemma reads_if (b : bool) l :
  (b = true → lexer.ch l ≠ NUL) → reads l (if b then lexer.readChar l else l).
Proof. destruct b; intros H; [by apply reads_one, H|constructor]. Qed.

Lemma readWhile_reads cond :
  cond NUL = false
  → ∀ fuel l l', lexer.readWhile cond fuel l = Some l'
                 → reads l l' ∧ cond (lexer.ch l') = false.
Proof.
  intros Hnul. induction fuel as [|fuel IH]; intros l l' H; [done|]. simpl in H.
  destruct (cond (lexer.ch l)) eqn:Hc.
  - destruct (IH _ _ H) as [Hr Hstop]. split; [|done].
    eapply reads_trans; [apply reads_one|done]. congruence.
  - injection H as <-. split; [constructor|done].
Qed.

Lemma readBraces_reads fuel :
  ∀ n l l', lexer.readBraces fuel n l = Some l' → reads l l'.
Proof.
  induction fuel as [|fuel IH]; intros n l l' H; [done|]. simpl in H.
  destruct (0 <? n)%nat; simpl in H; [|injection H as <-; constructor].
  destruct (Ascii.eqb (lexer.ch l) NUL) eqn:Hn; simpl in H; [injection H as <-; constructor|].
  apply Ascii.eqb_neq in Hn.
  destruct (Ascii.eqb (lexer.ch l) "{").
  { eapply reads_trans; [by apply reads_one|by eapply IH]. }
  destruct (Ascii.eqb (lexer.ch l) "}").
  - destruct (n - 1 =? 0)%nat; [injection H as <-; constructor|].
    eapply reads_trans; [by apply reads_one|by eapply IH].
  - eapply reads_trans; [by apply reads_one|by eapply IH].
Qed.

Lemma readTag_reads fuel l tok l' :
  lexer.ch l ≠ NUL → lexer.readTag fuel l = Some (tok, l')
  → reads l l' ∧ Line tok = lexer.line l ∧ Column tok = lexer.column l
    ∧ Type_ tok = LookUpIdent (Literal tok).
Proof.
  intros Hn H. unfold lexer.readTag, lexer.readTagName in H.
  bind_in H. destruct p as [name l1]. bind_in E. bind_in E. injection E as <- <-.
  bind_in H. injection H as <- <-.
  destruct (readWhile_reads lexer.isTagChar eq_refl _ _ _ E0) as [Hr1 _].
  destruct (readWhile_reads _ eq_refl _ _ _ E) as [Hr2 _].
  split_and!; try done.
  eapply reads_trans; [by apply reads_one|].
  eapply reads_trans; [done|]. eapply reads_trans; [done|].
  apply reads_if. intros Hb. by eapply eqb_not_NUL.
Qed.

Lemma readCodeBlock_reads fuel l tok l' :
  lexer.ch l ≠ NUL → lexer.readCodeBlock fuel l = Some (tok, l')
  → reads l l' ∧ Line tok = lexer.line l ∧ Column tok = lexer.column l
    ∧ Type_ tok = CODEBLOCK.
Proof.
  intros Hn H. unfold lexer.readCodeBlock in H.
  bind_in H. bind_in H. bind_in H. injection H as <- <-.
  destruct (readWhile_reads _ eq_refl _ _ _ E) as [Hr1 _].
  apply readBraces_reads in E0.
  split_and!; try done.
  eapply reads_trans; [by apply reads_one|].
  eapply reads_trans; [done|]. eapply reads_trans; [done|].
  apply reads_if. intros Hb. by eapply eqb_not_NUL.
Qed.

Lemma readIdentifier_reads fuel l lit l' :
  lexer.readIdentifier fuel l = Some (lit, l') → reads l l'.
Proof.
  intros H. unfold lexer.readIdentifier in H. bind_in H. bind_in H.
  injection H as <- <-. by destruct (readWhile_reads _ eq_refl _ _ _ E).
Qed.

Lemma readNumber_reads fuel l lit l' :
  lexer.readNumber fuel l = Some (lit, l') → reads l l'.
Proof.
  intros H. unfold lexer.readNumber in H. bind_in H. bind_in H.
  injection H as <- <-. by destruct (readWhile_reads _ eq_refl _ _ _ E).
Qed.

Lemma readString_reads fuel l lit l' :
  lexer.ch l ≠ NUL → lexer.readString fuel l = Some (lit, l') → reads l l'.
Proof.
  intros Hn H. unfold lexer.readString in H. bind_in H. bind_in H.
  injection H as <- <-. destruct (readWhile_reads _ eq_refl _ _ _ E) as [Hr _].
  eapply reads_trans; [by apply reads_one|]. eapply reads_trans; [done|].
  apply reads_if. intros Hb. by eapply eqb_not_NUL.
Qed.

Lemma readVariableReference_reads fuel l tok l' :
  lexer.ch l ≠ NUL → lexer.readVariableReference fuel l = Some (tok, l')
  → reads l l' ∧ Line tok = lexer.line l ∧ Column tok = lexer.column l
    ∧ Type_ tok = DOLLAR.
Proof.
  intros Hn H. unfold lexer.readVariableReference in H. bind_in H.
  destruct p as [name l1]. injection H as <- <-. apply readIdentifier_reads in E.
  split_and!; try done. eapply reads_trans; [by apply reads_one|done].
Qed.

Lemma LookUpIdent_tag name :
  LookUpIdent name = IDENT ∨ IsOpeningTag (LookUpIdent name) = true
  ∨ (IsClosingTag (LookUpIdent name) = true ∧ LookUpIdent name ≠ LIST_UNORD_END).
Proof.
  destruct (LookUpIdent_cases name) as [H|H]; [by left|right].
  pose proof (LookUpIdent_not_unord_end name) as Hne.
  revert H. generalize (LookUpIdent name) as t. intros t H. unfold keywords in H.
  repeat (apply elem_of_cons in H as [H|H]; [injection H as -> ->; by auto|]).
  by apply elem_of_nil in H.
Qed.

Lemma scanToken_reads fuel l tok l' :
  lexer.scanToken fuel l = Some (tok, l')
  → reads l l'
    ∧ typeAt (lexer.ch l) (Type_ tok)
    ∧ (Type_ tok ≠ STRING → Line tok = lexer.line l ∧ Column tok = lexer.column l)
    ∧ (Type_ tok = STRING → Line tok = lexer.line l' ∧ Column tok = lexer.column l').
Proof.
  unfold lexer.scanToken, typeAt. intros H.
  destruct (Ascii.eqb (lexer.ch l) "[") eqn:H1.
  { assert (Hn : lexer.ch l ≠ NUL) by by eapply eqb_not_NUL.
    destruct (lexer.isArrayStart l).
    - injection H as <- <-. split_and!; [by apply reads_one|by left|done|done].
    - destruct (readTag_reads _ _ _ _ Hn H) as (Hr & Hl & Hc & Ht).
      split_and!; [done| |done|].
      + right. rewrite Ht. apply LookUpIdent_tag.
      + rewrite Ht. intros Hs. destruct (LookUpIdent_tag (Literal tok)) as [?|[?|[? _]]];
          rewrite Hs in *; done. }
  destruct (Ascii.eqb (lexer.ch l) "]") eqn:H2.
  { injection H as <- <-. split_and!; [apply reads_one; by eapply eqb_not_NUL|done..]. }
  destruct (Ascii.eqb (lexer.ch l) "=") eqn:H3.
  { injection H as <- <-. split_and!; [apply reads_one; by eapply eqb_not_NUL|done..]. }
  destruct (Ascii.eqb (lexer.ch l) ",") eqn:H4.
  { injection H as <- <-. split_and!; [apply reads_one; by eapply eqb_not_NUL|done..]. }
  destruct (Ascii.eqb (lexer.ch l) "{") eqn:H5.
  { assert (Hn : lexer.ch l ≠ NUL) by by eapply eqb_not_NUL.
    destruct (readCodeBlock_reads _ _ _ _ Hn H) as (Hr & Hl & Hc & Ht).
    split_and!; [done|done|done|]. by rewrite Ht. }
  destruct (Ascii.eqb (lexer.ch l) "$") eqn:H6.
  { assert (Hn : lexer.ch l ≠ NUL) by by eapply eqb_not_NUL.
    destruct (readVariableReference_reads _ _ _ _ Hn H) as (Hr & Hl & Hc & Ht).
    split_and!; [done|done|done|]. by rewrite Ht. }
  destruct (Ascii.eqb (lexer.ch l) DQUOTE) eqn:H7.
  { assert (Hn : lexer.ch l ≠ NUL) by by eapply eqb_not_NUL.
    bind_in H. destruct p as [lit l1]. injection H as <- <-.
    apply readString_reads in E; [|done]. by split_and!. }
  destruct (Ascii.eqb (lexer.ch l) LF) eqn:H8.
  { injection H as <- <-. split_and!; [apply reads_one; by eapply eqb_not_NUL|done..]. }
  destruct (Ascii.eqb (lexer.ch l) NUL) eqn:H9.
  { injection H as <- <-. split_and!; [constructor|done..]. }
  apply Ascii.eqb_neq in H9.
  destruct (lexer.isDigit (lexer.ch l)).
  { bind_in H. destruct p as [lit l1]. injection H as <- <-.
    apply readNumber_reads in E. by split_and!. }
  destruct (lexer.isLetter (lexer.ch l) || Ascii.eqb (lexer.ch l) "_").
  { bind_in H. destruct p as [lit l1]. injection H as <- <-.
    apply readIdentifier_reads in E. by split_and!. }
  injection H as <- <-. split_and!; [by apply reads_one|done..].
Qed.

Lemma NextToken_reads fuel l tok l' :
  lexer.NextToken fuel l = Some (tok, l') → reads l l'.
Proof.
  unfold lexer.NextToken. intros H. bind_in H.
  destruct (readWhile_reads lexer.isSpace eq_refl _ _ _ E) as [Hr _].
  destruct (scanToken_reads _ _ _ _ H) as (Hr' & _). by eapply reads_trans.
Qed.

Lemma reads_input l l' : reads l l' → lexer.input l' = lexer.input l.
Proof.
  induction 1 as [|l' _ IH _]; [done|]. rewrite <- IH. unfold lexer.readChar.
  by destruct (Ascii.eqb _ LF).
Qed.

Lemma reads_wellFormed l l' : wellFormed l → reads l l' → wellFormed l'.
Proof.
  intros Hw. induction 1 as [|l' _ IH Hn]; [done|].
  by destruct (readChar_follows l' IH Hn) as [(? & _) _].
Qed.

(** X4. [NextToken] never returns a NEWLINE token, since the newlines are
    skipped with the whitespace before the [switch] is reached; nor does it
    return LBRACE, RBRACE or LIST_UNORD_END, or a token without a type. *)
Theorem NextToken_never_returns_newline fuel l tok l' :
  lexer.NextToken fuel l = Some (tok, l')
  → Type_ tok ≠ NEWLINE ∧ Type_ tok ≠ LBRACE ∧ Type_ tok ≠ RBRACE
    ∧ Type_ tok ≠ LIST_UNORD_END ∧ Type_ tok ≠ NOTYPE.
Proof.
  unfold lexer.NextToken. intros H. bind_in H. rename l0 into ls.
  destruct (readWhile_reads lexer.isSpace eq_refl _ _ _ E) as [_ Hs].
  destruct (scanToken_reads _ _ _ _ H) as (_ & Ht & _).
  unfold typeAt in Ht. unfold lexer.isSpace in Hs.
  destruct (Ascii.eqb (lexer.ch ls) LF) eqn:Hlf.
  { by rewrite !orb_true_r in Hs. }
  repeat match type of Ht with
         | (if ?b then _ else _) => destruct b
         end;
    try (rewrite Ht; done).
  destruct Ht as [->|[->|[Ht|[Ht Hne]]]]; try done; split_and!; try done;
    intros Heq; by rewrite Heq in Ht.
Qed.

(** X4 on a newline followed by an equals sign. *)
Lemma NextToken_never_returns_newline_witness :
  ∃ tok l', lexer.NextToken 5 (lexer.New (String LF "=")) = Some (tok, l')
            ∧ Type_ tok ≠ NEWLINE.
Proof.
  destruct (lexer.NextToken 5 (lexer.New (String LF "="))) as [[tok l']|] eqn:E;
    [|by vm_compute in E].
  exists tok, l'. split; [done|].
  exact (proj1 (NextToken_never_returns_newline _ _ _ _ E)).
Defined.

(** ** Lines and columns *)

Lemma byteAt_read input n :
  (if (String.length input <=? n)%nat then NUL else byteAt input n) = byteAt input n.
Proof.
  destruct (String.length input <=? n)%nat eqn:H; [|done].
  apply Nat.leb_le in H. unfold byteAt. by rewrite get_None_ge.
Qed.

Lemma bytesRead_next l c ln col :
  bytesRead (lexer.mkLexer (lexer.input l) (S (lexer.position l))
                           (S (lexer.position l) + 1) c ln col)
  = bytesRead l ++ [byteAt (lexer.input l) (S (lexer.position l))].
Proof.
  unfold bytesRead. cbn [lexer.input lexer.position].
  by rewrite (seq_S (S _)), map_app.
Qed.

Lemma readChar_located l :
  lexer.readPosition l = S (lexer.position l) → located l → located (lexer.readChar l).
Proof.
  intros Hrp (Hline & above & rest & Hread & Hno & Hlast & Hcol).
  unfold lexer.readChar. rewrite byteAt_read, Hrp.
  destruct (Ascii.eqb (byteAt (lexer.input l) (S (lexer.position l))) LF) eqn:Hc.
  - apply Ascii.eqb_eq in Hc. split.
    + rewrite bytesRead_next. cbn [lexer.line].
      rewrite filter_app, length_app, Hc, Hline, filter_cons, decide_True by done.
      simpl. lia.
    + exists (bytesRead l ++ [LF]), []. rewrite bytesRead_next, Hc.
      split_and!; [by rewrite app_nil_r|apply not_elem_of_nil| |done].
      right. by rewrite last_snoc.
  - apply Ascii.eqb_neq in Hc. split.
    + rewrite bytesRead_next. cbn [lexer.line].
      rewrite filter_app, length_app, Hline, filter_cons, decide_False by done.
      simpl. lia.
    + exists above, (rest ++ [byteAt (lexer.input l) (S (lexer.position l))]).
      rewrite bytesRead_next, Hread.
      split_and!; [by rewrite app_assoc| |done|].
      * rewrite elem_of_app, list_elem_of_singleton. intros [?|?]; [done|]. congruence.
      * cbn [lexer.column]. rewrite length_app. simpl. lia.
Qed.

Lemma New_located input : located (lexer.New input).
Proof.
  unfold lexer.New, lexer.readChar. cbn [lexer.input lexer.readPosition lexer.line lexer.column].
  rewrite byteAt_read.
  destruct (Ascii.eqb (byteAt input 0) LF) eqn:Hc.
  - apply Ascii.eqb_eq in Hc. split.
    + unfold bytesRead. simpl. rewrite Hc. by rewrite filter_cons, decide_True.
    + exists [LF], []. unfold bytesRead. simpl. rewrite Hc.
      split_and!; [done|apply not_elem_of_nil|by right|done].
  - apply Ascii.eqb_neq in Hc. split.
    + unfold bytesRead. simpl. by rewrite filter_cons, decide_False.
    + exists [], [byteAt input 0]. unfold bytesRead. simpl.
      split_and!; [done| |by left|done].
      rewrite list_elem_of_singleton. congruence.
Qed.

Lemma reads_located l l' : wellFormed l → located l → reads l l' → located l'.
Proof.
  intros Hw Hl Hr. induction Hr as [|l' Hr IH Hn]; [done|].
  apply readChar_located; [|done]. by destruct (reads_wellFormed l l' Hw Hr).
Qed.

(** X5. The line and the column of the lexer are those of its current byte,
    from [New] on and after every call of [NextToken]: the line is one more
    than the number of newlines read, the column the number of bytes read
    after the last of them.  A token carries the line and the column of its
    first byte, the byte at which the whitespace ends; a STRING token
    carries those of the byte behind its closing quote. *)
Theorem tokens_carry_line_and_column :
  (∀ input, wellFormed (lexer.New input) ∧ located (lexer.New input))
  ∧ (∀ fuel l tok l',
       wellFormed l → located l → lexer.NextToken fuel l = Some (tok, l')
       → wellFormed l' ∧ located l'
         ∧ ∃ ls, lexer.skipWhitespace fuel l = Some ls
                 ∧ wellFormed ls ∧ located ls
                 ∧ lexer.isSpace (lexer.ch ls) = false
                 ∧ (Type_ tok ≠ STRING
                    → Line tok = lexer.line ls ∧ Column tok = lexer.column ls)
                 ∧ (Type_ tok = STRING
                    → Line tok = lexer.line l' ∧ Column tok = lexer.column l')).
Proof.
  split.
  - intros input. split; [apply New_wellFormed|apply New_located].
  - intros fuel l tok l' Hw Hl H. unfold lexer.NextToken in H. bind_in H.
    rename l0 into ls.
    destruct (readWhile_reads lexer.isSpace eq_refl _ _ _ E) as [Hr Hs].
    destruct (scanToken_reads _ _ _ _ H) as (Hr' & _ & Hns & Hstr).
    pose proof (reads_wellFormed _ _ Hw Hr) as Hws.
    pose proof (reads_located _ _ Hw Hl Hr) as Hls.
    split_and!; [by eapply reads_wellFormed|by eapply reads_located|].
    exists ls. by split_and!.
Qed.

(** ** Tokens and the bytes they are read from *)

Lemma byteAt_app_r (a b : string) (i : nat) :
  byteAt (a +:+ b) (String.length a + i) = byteAt b i.
Proof. induction a as [|c a IH]; [done|]. rewrite append_cons. apply IH. Qed.

Lemma byteAt_app_l (a b : string) (i : nat) :
  i < String.length a → byteAt (a +:+ b) i = byteAt a i.
Proof.
  revert i. induction a as [|c a IH]; intros i Hi; [simpl in Hi; lia|].
  rewrite append_cons. destruct i as [|i]; [done|]. apply IH. simpl in Hi. lia.
Qed.

Lemma allBytes_byteAt f (s : string) (i : nat) :
  allBytes f s = true → i < String.length s → f (byteAt s i) = true.
Proof.
  revert i. induction s as [|c s IH]; intros i H Hi; [simpl in Hi; lia|].
  simpl in H. apply andb_true_iff in H as [Hc Hs].
  destruct i as [|i]; [done|]. apply IH; [done|simpl in Hi; lia].
Qed.

Lemma allBytes_intro f (s : string) :
  (∀ i, i < String.length s → f (byteAt s i) = true) → allBytes f s = true.
Proof.
  induction s as [|c s IH]; intros H; [done|]. simpl. apply andb_true_iff. split.
  - apply (H 0). simpl. lia.
  - apply IH. intros i Hi. apply (H (S i)). simpl. lia.
Qed.

Lemma allBytes_app f (a b : string) :
  allBytes f (a +:+ b) = allBytes f a && allBytes f b.
Proof.
  induction a as [|c a IH]; [done|]. rewrite append_cons. simpl.
  by rewrite IH, andb_assoc.
Qed.

Lemma substring_app_mid (a b c : string) :
  String.substring (String.length a) (String.length b) (a +:+ b +:+ c) = b.
Proof.
  induction a as [|x a IH]; [exact (substring_app_l b c)|]. rewrite append_cons. apply IH.
Qed.

Lemma substring_0_app (a b : string) (n : nat) :
  n ≤ String.length a → String.substring 0 n (a +:+ b) = String.substring 0 n a.
Proof.
  revert n. induction a as [|c a IH]; intros n Hn.
  - simpl in Hn. assert (n = 0) as -> by lia. by destruct b.
  - destruct n as [|n]; [done|]. rewrite append_cons. simpl. f_equal. apply IH.
    simpl in Hn. lia.
Qed.

Lemma substring_split (s : string) (n : nat) :
  n ≤ String.length s
  → s = String.substring 0 n s +:+ String.substring n (String.length s - n) s.
Proof.
  revert n. induction s as [|c s IH]; intros n Hn.
  - simpl in Hn. by assert (n = 0) as -> by lia.
  - destruct n as [|n].
    + change (String.substring 0 0 (String c s)) with EmptyString.
      rewrite Nat.sub_0_r. by rewrite substring_all.
    + simpl in *. rewrite append_cons. f_equal. apply IH. lia.
Qed.

Lemma length_substring_0 (s : string) (n : nat) :
  n ≤ String.length s → String.length (String.substring 0 n s) = n.
Proof.
  revert n. induction s as [|c s IH]; intros n Hn.
  - simpl in Hn. by assert (n = 0) as -> by lia.
  - destruct n as [|n]; [done|]. simpl in *. f_equal. apply IH. lia.
Qed.

Lemma standsAt_ch l pre rest : standsAt l pre rest → lexer.ch l = byteAt rest 0.
Proof.
  intros ((_ & _ & Hch) & Hi & Hp). rewrite Hch, Hi, Hp.
  by rewrite <- (byteAt_app_r pre rest 0), Nat.add_0_r.
Qed.

Lemma standsAt_peek l pre c rest :
  standsAt l pre (String c rest) → lexer.peekChar l = byteAt rest 0.
Proof.
  intros ((Hrp & _ & _) & Hi & Hp). unfold lexer.peekChar.
  rewrite byteAt_read, Hrp, Hi, Hp.
  by rewrite <- Nat.add_1_r, (byteAt_app_r pre (String c rest) 1).
Qed.

Lemma readChar_standsAt l pre c rest :
  standsAt l pre (String c rest)
  → standsAt (lexer.readChar l) (pre +:+ String c EmptyString) rest.
Proof.
  intros ((Hrp & Hle & Hch) & Hi & Hp).
  assert (Hin : lexer.input l = (pre +:+ String c EmptyString) +:+ rest).
  { by rewrite Hi, append_assoc. }
  assert (Hlen : String.length (pre +:+ String c EmptyString) = S (lexer.position l)).
  { rewrite length_append, Hp. simpl. lia. }
  unfold lexer.readChar. rewrite byteAt_read, Hrp.
  assert (Hle' : S (lexer.position l) ≤ String.length (lexer.input l)).
  { rewrite Hin, length_append, Hlen. lia. }
  destruct (Ascii.eqb _ LF); (split; [split_and!|split]);
    cbn [lexer.input lexer.position lexer.readPosition lexer.ch]; done || lia.
Qed.

Lemma New_standsAt input : standsAt (lexer.New input) EmptyString input.
Proof.
  split; [apply New_wellFormed|]. unfold lexer.New, lexer.readChar.
  by destruct (Ascii.eqb _ LF).
Qed.

Lemma readWhile_run cond fuel l pre body rest :
  standsAt l pre (body +:+ rest)
  → allBytes cond body = true → cond (byteAt rest 0) = false
  → String.length body < fuel
  → ∃ l', lexer.readWhile cond fuel l = Some l' ∧ standsAt l' (pre +:+ body) rest.
Proof.
  revert fuel l pre. induction body as [|c body IH]; intros fuel l pre Hl Hall Hstop Hfuel.
  - destruct fuel as [|fuel]; [simpl in Hfuel; lia|]. simpl.
    rewrite (standsAt_ch _ _ _ Hl). change (EmptyString +:+ rest) with rest.
    rewrite Hstop. exists l. split; [done|]. by rewrite append_nil_r.
  - destruct fuel as [|fuel]; [simpl in Hfuel; lia|]. simpl.
    rewrite append_cons in Hl. rewrite (standsAt_ch _ _ _ Hl).
    change (byteAt (String c (body +:+ rest)) 0) with c.
    simpl in Hall. apply andb_true_iff in Hall as [Hc Hall]. rewrite Hc.
    apply readChar_standsAt in Hl.
    destruct (IH fuel _ _ Hl Hall Hstop) as (l' & Hrun & Hl'); [simpl in Hfuel; lia|].
    exists l'. split; [done|]. by rewrite append_assoc in Hl'.
Qed.

Lemma slice_run (pre body rest : string) :
  slice (pre +:+ body +:+ rest) (String.length pre) (String.length (pre +:+ body))
  = Some body.
Proof.
  unfold slice. rewrite !length_append.
  rewrite (proj2 (Nat.leb_le _ _)) by lia. rewrite (proj2 (Nat.leb_le _ _)) by lia.
  simpl. f_equal.
  replace (String.length pre + String.length body - String.length pre)
    with (String.length body) by lia.
  apply substring_app_mid.
Qed.

Lemma skipWhitespace_none fuel l :
  lexer.isSpace (lexer.ch l) = false → lexer.skipWhitespace (S fuel) l = Some l.
Proof. intros H. unfold lexer.skipWhitespace. simpl. by rewrite H. Qed.

(** X6. A double quote, bytes [s] that are neither a double quote nor NUL, and
    a closing double quote are one STRING token with the literal [s], and
    the lexer goes on behind the closing quote.  Where the input ends
    before a closing quote, the token is the same and nothing is reported.
    The token carries the line and the column of the lexer after it. *)
Theorem quoted_string_is_one_token fuel l pre (s rest : string) (closed : bool) :
  standsAt l pre (dq +:+ s +:+ (if closed then dq +:+ rest else EmptyString))
  → allBytes (λ c, negb (Ascii.eqb c DQUOTE) && negb (Ascii.eqb c NUL)) s = true
  → String.length s + 1 < fuel
  → ∃ l', lexer.NextToken fuel l
          = Some (mkToken STRING s (lexer.line l') (lexer.column l'), l')
          ∧ standsAt l' (pre +:+ dq +:+ s +:+ (if closed then dq else EmptyString))
                     (if closed then rest else EmptyString).
Proof.
  intros Hl Hs Hfuel. destruct fuel as [|fuel]; [lia|].
  pose proof (standsAt_ch _ _ _ Hl) as Hch. change (byteAt _ 0) with DQUOTE in Hch.
  unfold lexer.NextToken. rewrite skipWhitespace_none by by rewrite Hch.
  cbn [mbind option_bind].
  assert (Hscan : lexer.scanToken (S fuel) l
                  = '(lit, l) ← lexer.readString (S fuel) l;
                    Some (mkToken STRING lit (lexer.line l) (lexer.column l), l)).
  { unfold lexer.scanToken. by rewrite Hch. }
  rewrite Hscan. unfold lexer.readString.
  pose proof Hl as (_ & Hin & Hpos).
  apply readChar_standsAt in Hl.
  destruct (readWhile_run _ (S fuel) _ _ s _ Hl Hs) as (l2 & -> & Hl2); [by destruct closed|lia|].
  cbn [mbind option_bind].
  pose proof Hl2 as (_ & Hin2 & Hpos2). pose proof Hl as (_ & _ & Hpos1).
  rewrite Hin2, Hpos1, Hpos2, (append_assoc (pre +:+ dq) s), slice_run.
  cbn [mbind option_bind].
  rewrite (standsAt_ch _ _ _ Hl2). destruct closed.
  - change (byteAt (dq +:+ rest) 0) with DQUOTE. rewrite Ascii.eqb_refl.
    eexists. split; [done|]. apply readChar_standsAt in Hl2.
    by rewrite !append_assoc in *.
  - change (byteAt EmptyString 0) with NUL. exists l2. split; [done|].
    by rewrite !append_assoc, ?append_nil_r in *.
Qed.

(** X6 on a quoted string that is followed by more input. *)
Lemma quoted_string_is_one_token_witness :
  ∃ l', lexer.NextToken 5 (lexer.New (dq +:+ "ab" +:+ dq +:+ " x"))
        = Some (mkToken STRING "ab" (lexer.line l') (lexer.column l'), l')
        ∧ standsAt l' (EmptyString +:+ dq +:+ "ab" +:+ dq) " x".
Proof.
  apply (quoted_string_is_one_token 5 (lexer.New (dq +:+ "ab" +:+ dq +:+ " x"))
           EmptyString "ab" " x" true);
    [apply New_standsAt|reflexivity|vm_compute; lia].
Defined.

(** X7. An opening bracket that starts no array, a name [name] of tag
    characters, bytes [junk] up to the closing bracket and that bracket are
    one token: its type is [LookUpIdent name], its literal is [name], and
    [junk] is dropped.  Where the input ends before a closing bracket, the
    token is the same. *)
Theorem bracketed_tag_is_one_token fuel l pre (name junk rest : string) (closed : bool) :
  standsAt l pre ("[" +:+ name +:+ junk +:+ (if closed then "]" +:+ rest else EmptyString))
  → lexer.isArrayStart l = false
  → allBytes lexer.isTagChar name = true
  → lexer.isTagChar (byteAt junk 0) = false
  → allBytes (λ c, negb (Ascii.eqb c "]") && negb (Ascii.eqb c NUL)) junk = true
  → String.length name + String.length junk + 1 < fuel
  → ∃ l', lexer.NextToken fuel l
          = Some (mkToken (LookUpIdent name) name (lexer.line l) (lexer.column l), l')
          ∧ standsAt l' (pre +:+ "[" +:+ name +:+ junk +:+ (if closed then "]" else EmptyString))
                     (if closed then rest else EmptyString).
Proof.
  intros Hl Harr Hname Hstop Hjunk Hfuel. destruct fuel as [|fuel]; [lia|].
  pose proof (standsAt_ch _ _ _ Hl) as Hch. change (byteAt _ 0) with "["%char in Hch.
  unfold lexer.NextToken. rewrite skipWhitespace_none by by rewrite Hch.
  cbn [mbind option_bind].
  assert (Hscan : lexer.scanToken (S fuel) l = lexer.readTag (S fuel) l).
  { unfold lexer.scanToken. by rewrite Hch, Harr. }
  rewrite Hscan. unfold lexer.readTag, lexer.readTagName.
  apply readChar_standsAt in Hl.
  destruct (readWhile_run _ (S fuel) _ _ name _ Hl Hname) as (l2 & -> & Hl2); [|lia|].
  { destruct junk; [by destruct closed|done]. }
  cbn [mbind option_bind].
  pose proof Hl2 as (_ & Hin2 & Hpos2). pose proof Hl as (_ & _ & Hpos1).
  rewrite Hin2, Hpos1, Hpos2, (append_assoc (pre +:+ "[") name), slice_run.
  cbn [mbind option_bind].
  rewrite !append_assoc in Hl2.
  destruct (readWhile_run _ (S fuel) _ _ junk _ Hl2 Hjunk) as (l3 & -> & Hl3);
    [by destruct closed|lia|].
  cbn [mbind option_bind]. rewrite (standsAt_ch _ _ _ Hl3). destruct closed.
  - change (byteAt ("]" +:+ rest) 0) with "]"%char. rewrite Ascii.eqb_refl.
    eexists. split; [done|]. apply readChar_standsAt in Hl3.
    by rewrite !append_assoc in *.
  - change (byteAt EmptyString 0) with NUL. exists l3. split; [done|].
    by rewrite !append_assoc, ?append_nil_r in *.
Qed.

(** X7 on a paragraph tag with a word behind its name. *)
Lemma bracketed_tag_is_one_token_witness :
  ∃ l', lexer.NextToken 20 (lexer.New "[p-start here] x")
        = Some (mkToken P_START "p-start" 1 1, l')
        ∧ standsAt l' (EmptyString +:+ "[" +:+ "p-start" +:+ " here" +:+ "]") " x".
Proof.
  apply (bracketed_tag_is_one_token 20 (lexer.New "[p-start here] x")
           EmptyString "p-start" " here" " x" true);
    [apply New_standsAt|reflexivity..|vm_compute; lia].
Defined.

Lemma scanToken_digit fuel l :
  lexer.isDigit (lexer.ch l) = true
  → lexer.scanToken fuel l
    = '(lit, l') ← lexer.readNumber fuel l;
      Some (mkToken NUMBER lit (lexer.line l) (lexer.column l), l').
Proof.
  intros H. unfold lexer.scanToken. rewrite H.
  destruct (lexer.ch l) as [[] [] [] [] [] [] [] []]; try discriminate H; reflexivity.
Qed.

Lemma scanToken_letter fuel l :
  lexer.isLetter (lexer.ch l) || Ascii.eqb (lexer.ch l) "_" = true
  → lexer.scanToken fuel l
    = '(lit, l') ← lexer.readIdentifier fuel l;
      Some (mkToken IDENT lit (lexer.line l) (lexer.column l), l').
Proof.
  intros H. unfold lexer.scanToken. rewrite H.
  destruct (lexer.ch l) as [[] [] [] [] [] [] [] []]; try discriminate H; reflexivity.
Qed.

(** X8. A digit followed by digits and dots, in any number and order, is one
    NUMBER token whose literal is all of them. *)
Theorem digits_and_dots_are_one_number fuel l pre (num rest : string) :
  standsAt l pre (num +:+ rest)
  → lexer.isDigit (byteAt num 0) = true
  → allBytes (λ c, lexer.isDigit c || Ascii.eqb c ".") num = true
  → lexer.isDigit (byteAt rest 0) || Ascii.eqb (byteAt rest 0) "." = false
  → String.length num < fuel
  → ∃ l', lexer.NextToken fuel l
          = Some (mkToken NUMBER num (lexer.line l) (lexer.column l), l')
          ∧ standsAt l' (pre +:+ num) rest.
Proof.
  intros Hl Hfirst Hnum Hstop Hfuel. destruct fuel as [|fuel]; [lia|].
  assert (Hch : lexer.ch l = byteAt num 0).
  { rewrite (standsAt_ch _ _ _ Hl). by destruct num. }
  unfold lexer.NextToken. rewrite skipWhitespace_none.
  2:{ rewrite Hch. revert Hfirst.
      by destruct (byteAt num 0) as [[] [] [] [] [] [] [] []]. }
  cbn [mbind option_bind]. rewrite scanToken_digit by by rewrite Hch.
  unfold lexer.readNumber.
  destruct (readWhile_run _ (S fuel) _ _ num _ Hl Hnum Hstop Hfuel) as (l2 & -> & Hl2).
  cbn [mbind option_bind].
  pose proof Hl2 as (_ & Hin2 & Hpos2). pose proof Hl as (_ & _ & Hpos1).
  rewrite Hin2, Hpos1, Hpos2, (append_assoc pre num), slice_run.
  cbn [mbind option_bind]. by exists l2.
Qed.

(** X8 on a number with two dots. *)
Lemma digits_and_dots_are_one_number_witness :
  ∃ l', lexer.NextToken 10 (lexer.New "1.2.3, 4")
        = Some (mkToken NUMBER "1.2.3" 1 1, l')
        ∧ standsAt l' (EmptyString +:+ "1.2.3") ", 4".
Proof.
  apply (digits_and_dots_are_one_number 10 (lexer.New "1.2.3, 4")
           EmptyString "1.2.3" ", 4");
    [apply New_standsAt|reflexivity..|vm_compute; lia].
Defined.

(** X9. A dollar sign and the letters, digits and underscores behind it are one
    DOLLAR token whose literal is the name without the dollar sign; the
    name ends at the first other byte, a hyphen included, and may be
    empty. *)
Theorem variable_reference_is_one_token fuel l pre (name rest : string) :
  standsAt l pre ("$" +:+ name +:+ rest)
  → allBytes (λ c, lexer.isLetter c || lexer.isDigit c || Ascii.eqb c "_") name = true
  → lexer.isLetter (byteAt rest 0) || lexer.isDigit (byteAt rest 0)
    || Ascii.eqb (byteAt rest 0) "_" = false
  → String.length name + 1 < fuel
  → ∃ l', lexer.NextToken fuel l
          = Some (mkToken DOLLAR name (lexer.line l) (lexer.column l), l')
          ∧ standsAt l' (pre +:+ "$" +:+ name) rest.
Proof.
  intros Hl Hname Hstop Hfuel. destruct fuel as [|fuel]; [lia|].
  pose proof (standsAt_ch _ _ _ Hl) as Hch. change (byteAt _ 0) with "$"%char in Hch.
  unfold lexer.NextToken. rewrite skipWhitespace_none by by rewrite Hch.
  cbn [mbind option_bind].
  assert (Hscan : lexer.scanToken (S fuel) l = lexer.readVariableReference (S fuel) l).
  { unfold lexer.scanToken. by rewrite Hch. }
  rewrite Hscan. unfold lexer.readVariableReference, lexer.readIdentifier.
  apply readChar_standsAt in Hl.
  destruct (readWhile_run _ (S fuel) _ _ name _ Hl Hname Hstop) as (l2 & -> & Hl2); [lia|].
  cbn [mbind option_bind].
  pose proof Hl2 as (_ & Hin2 & Hpos2). pose proof Hl as (_ & _ & Hpos1).
  rewrite Hin2, Hpos1, Hpos2, (append_assoc (pre +:+ "$") name), slice_run.
  cbn [mbind option_bind]. exists l2. split; [done|]. by rewrite append_assoc in Hl2.
Qed.

(** X9 on a reference to a label with a hyphen in it. *)
Lemma variable_reference_is_one_token_witness :
  ∃ l', lexer.NextToken 10 (lexer.New "$my-label")
        = Some (mkToken DOLLAR "my" 1 1, l')
        ∧ standsAt l' (EmptyString +:+ "$" +:+ "my") "-label".
Proof.
  apply (variable_reference_is_one_token 10 (lexer.New "$my-label")
           EmptyString "my" "-label");
    [apply New_standsAt|reflexivity..|vm_compute; lia].
Defined.

(** Where the loop of [trimTrailingWhitespace] stops. *)
Lemma trimTrailingWhitespace_end (s : string) :
  ∃ e, lexer.trimTrailingWhitespace s = String.substring 0 e s
       ∧ e ≤ String.length s
       ∧ (∀ i, e ≤ i < String.length s → isBlank (byteAt s i) = true)
       ∧ (e = 0 ∨ isBlank (byteAt s (e - 1)) = false).
Proof.
  unfold lexer.trimTrailingWhitespace.
  set (go := fix go (end_ : nat) : nat :=
         match end_ with
         | O => O
         | S e =>
             if Ascii.eqb (byteAt s e) SPACE || Ascii.eqb (byteAt s e) TAB
                || Ascii.eqb (byteAt s e) LF || Ascii.eqb (byteAt s e) CR
             then go e else end_
         end).
  assert (H : ∀ n, go n ≤ n
                   ∧ (∀ i, go n ≤ i < n → isBlank (byteAt s i) = true)
                   ∧ (go n = 0 ∨ isBlank (byteAt s (go n - 1)) = false)).
  { induction n as [|n (IH1 & IH2 & IH3)]; [split_and!; [done|intros; lia|by left]|].
    simpl. fold (isBlank (byteAt s n)). destruct (isBlank (byteAt s n)) eqn:Hb.
    - split_and!; [lia| |done]. intros i Hi.
      destruct (decide (i = n)) as [->|]; [done|]. apply IH2. lia.
    - split_and!; [done|intros; lia|right]. simpl. by rewrite Nat.sub_0_r. }
  exists (go (String.length s)). destruct (H (String.length s)) as (H1 & H2 & H3).
  by split_and!.
Qed.

Lemma trimTrailingWhitespace_split (s : string) :
  ∃ blanks,
    s = lexer.trimTrailingWhitespace s +:+ blanks
    ∧ allBytes isBlank blanks = true
    ∧ endsUnblank (lexer.trimTrailingWhitespace s).
Proof.
  destruct (trimTrailingWhitespace_end s) as (e & -> & Hle & Hblank & Hlast).
  exists (String.substring e (String.length s - e) s).
  pose proof (substring_split s e Hle) as Hs.
  pose proof (length_substring_0 s e Hle) as Hlen.
  split_and!; [done| |].
  - apply allBytes_intro. intros i Hi.
    assert (Hi' : e + i < String.length s).
    { apply (f_equal String.length) in Hs. rewrite length_append, Hlen in Hs. lia. }
    rewrite <- (byteAt_app_r (String.substring 0 e s)), <- Hs, Hlen.
    apply Hblank. lia.
  - destruct e as [|e]; [left; by destruct s|right].
    destruct Hlast as [?|Hlast]; [done|]. rewrite Hlen.
    rewrite <- (byteAt_app_l _ (String.substring (S e) (String.length s - S e) s))
      by (rewrite Hlen; lia).
    by rewrite <- Hs.
Qed.

Lemma trimTrailingWhitespace_app (body blanks : string) :
  endsUnblank body → allBytes isBlank blanks = true
  → lexer.trimTrailingWhitespace (body +:+ blanks) = body.
Proof.
  intros Hbody Hblanks.
  destruct (trimTrailingWhitespace_end (body +:+ blanks))
    as (e & -> & Hle & Hblank & Hlast).
  rewrite length_append in *.
  assert (e = String.length body) as ->; [|apply substring_app_l].
  destruct (Nat.lt_trichotomy e (String.length body)) as [Hlt|[->|Hgt]]; [|done|].
  - destruct Hbody as [->|Hbody]; [simpl in Hlt; lia|].
    rewrite <- (byteAt_app_l body blanks) in Hbody by lia.
    rewrite Hblank in Hbody by lia. done.
  - destruct Hlast as [->|Hlast]; [lia|].
    replace (e - 1) with (String.length body + (e - 1 - String.length body)) in Hlast
      by lia.
    rewrite byteAt_app_r in Hlast.
    rewrite (allBytes_byteAt _ _ _ Hblanks) in Hlast by lia. done.
Qed.

(** X10. [trimTrailingWhitespace] drops the blanks at the end of a string and
    nothing else: a string that does not end in a blank, followed by
    blanks, is trimmed to that string; every string is its trimmed string
    followed by blanks only, and the trimmed string does not end in a
    blank; trimming twice is trimming once. *)
Theorem trimTrailingWhitespace_drops_the_blank_end :
  (∀ body blanks,
     endsUnblank body → allBytes isBlank blanks = true
     → lexer.trimTrailingWhitespace (body +:+ blanks) = body)
  ∧ (∀ s, ∃ blanks,
       s = lexer.trimTrailingWhitespace s +:+ blanks
       ∧ allBytes isBlank blanks = true
       ∧ endsUnblank (lexer.trimTrailingWhitespace s))
  ∧ (∀ s, lexer.trimTrailingWhitespace (lexer.trimTrailingWhitespace s)
          = lexer.trimTrailingWhitespace s).
Proof.
  split_and!; [apply trimTrailingWhitespace_app|apply trimTrailingWhitespace_split|].
  intros s. destruct (trimTrailingWhitespace_split s) as (blanks & _ & _ & Hend).
  rewrite <- (append_nil_r (lexer.trimTrailingWhitespace s)) at 1.
  by apply trimTrailingWhitespace_app.
Qed.

Lemma openAfter_app n (a b : string) :
  openAfter n (a +:+ b) = openAfter n a ≫= λ m, openAfter m b.
Proof.
  revert n. induction a as [|c a IH]; intros n; [done|]. rewrite append_cons. simpl.
  repeat match goal with |- context [if ?b then _ else _] => destruct b end;
    done || apply IH.
Qed.

Lemma openAfter_blanks n (blanks : string) :
  allBytes isBlank blanks = true → openAfter n blanks = Some n.
Proof.
  induction blanks as [|c s IH]; [done|]. simpl. intros H.
  apply andb_true_iff in H as [Hc Hs].
  destruct c as [[] [] [] [] [] [] [] []]; try discriminate Hc; by apply IH.
Qed.

Lemma readBraces_run fuel :
  ∀ n l pre body rest,
    standsAt l pre (body +:+ "}" +:+ rest)
    → 0 < n → openAfter n body = Some 1
    → String.length body < fuel
    → ∃ l', lexer.readBraces fuel n l = Some l'
            ∧ standsAt l' (pre +:+ body) ("}" +:+ rest).
Proof.
  induction fuel as [|fuel IH]; intros n l pre body rest Hl Hn Hopen Hfuel; [lia|].
  simpl. rewrite (proj2 (Nat.ltb_lt 0 n)) by done. rewrite (standsAt_ch _ _ _ Hl).
  destruct body as [|c body].
  - simpl in Hopen. injection Hopen as ->.
    change (byteAt (EmptyString +:+ "}" +:+ rest) 0) with "}"%char. simpl.
    exists l. split; [done|]. by rewrite append_nil_r.
  - rewrite append_cons in *. change (byteAt (String c _) 0) with c.
    simpl in Hopen. simpl in Hfuel.
    destruct (Ascii.eqb c NUL); [done|]. simpl.
    apply readChar_standsAt in Hl.
    assert (Hgo : ∀ m, 0 < m → openAfter m body = Some 1
                       → ∃ l', lexer.readBraces fuel m (lexer.readChar l) = Some l'
                               ∧ standsAt l' (pre +:+ String c body) ("}" +:+ rest)).
    { intros m Hm Hb. destruct (IH m _ _ body rest Hl Hm Hb) as (l' & Hr & Hl'); [lia|].
      exists l'. split; [done|]. by rewrite append_assoc in Hl'. }
    destruct (Ascii.eqb c "{"); [apply Hgo; [lia|done]|].
    destruct (Ascii.eqb c "}"); [|by apply Hgo].
    destruct (n - 1 =? 0)%nat eqn:Hz; [done|]. apply Nat.eqb_neq in Hz.
    apply Hgo; [lia|done].
Qed.

(** X11. An opening brace, blanks, a body in which the braces are balanced,
    blanks and the closing brace are one CODEBLOCK token whose literal is
    the body, without the blanks at its two ends and with its inner braces;
    the lexer goes on behind the closing brace, the one that matches the
    opening one. *)
Theorem code_block_runs_to_the_matching_brace
    fuel l pre (lead body trail rest : string) :
  standsAt l pre ("{" +:+ lead +:+ body +:+ trail +:+ "}" +:+ rest)
  → allBytes isBlank lead = true
  → isBlank (byteAt (body +:+ trail +:+ "}") 0) = false
  → openAfter 1 body = Some 1
  → endsUnblank body
  → allBytes isBlank trail = true
  → String.length lead + String.length body + String.length trail + 1 < fuel
  → ∃ l', lexer.NextToken fuel l
          = Some (mkToken CODEBLOCK body (lexer.line l) (lexer.column l), l')
          ∧ standsAt l' (pre +:+ "{" +:+ lead +:+ body +:+ trail +:+ "}") rest.
Proof.
  intros Hl Hlead Hfirst Hopen Hend Htrail Hfuel. destruct fuel as [|fuel]; [lia|].
  pose proof (standsAt_ch _ _ _ Hl) as Hch. change (byteAt _ 0) with "{"%char in Hch.
  unfold lexer.NextToken. rewrite skipWhitespace_none by by rewrite Hch.
  cbn [mbind option_bind].
  assert (Hscan : lexer.scanToken (S fuel) l = lexer.readCodeBlock (S fuel) l).
  { unfold lexer.scanToken. by rewrite Hch. }
  rewrite Hscan. unfold lexer.readCodeBlock.
  apply readChar_standsAt in Hl.
  destruct (readWhile_run isBlank (S fuel) _ _ lead _ Hl Hlead) as (l2 & Hrun & Hl2);
    [|lia|].
  { rewrite <- Hfirst. destruct body; [|done]. by destruct trail. }
  unfold isBlank in Hrun. rewrite Hrun. cbn [mbind option_bind].
  assert (Hl2' : standsAt l2 ((pre +:+ "{") +:+ lead)
                   ((body +:+ trail) +:+ "}" +:+ rest)).
  { by rewrite !append_assoc in *. }
  destruct (readBraces_run (S fuel) 1 _ _ _ _ Hl2') as (l3 & -> & Hl3); [lia| |..].
  { by rewrite openAfter_app, Hopen; simpl; rewrite openAfter_blanks. }
  { rewrite length_append. lia. }
  cbn [mbind option_bind].
  pose proof Hl3 as (_ & Hin3 & Hpos3). pose proof Hl2 as (_ & _ & Hpos2).
  rewrite Hin3, Hpos2, Hpos3.
  rewrite (append_assoc ((pre +:+ "{") +:+ lead) (body +:+ trail)), slice_run.
  cbn [mbind option_bind]. rewrite (standsAt_ch _ _ _ Hl3).
  change (byteAt ("}" +:+ rest) 0) with "}"%char. rewrite Ascii.eqb_refl.
  rewrite trimTrailingWhitespace_app by done. eexists. split; [done|].
  apply readChar_standsAt in Hl3. by rewrite !append_assoc in *.
Qed.

(** X11 on a block with a pair of braces inside. *)
Lemma code_block_runs_to_the_matching_brace_witness :
  ∃ l', lexer.NextToken 30 (lexer.New "{ if (a) { b } } x")
        = Some (mkToken CODEBLOCK "if (a) { b }" 1 1, l')
        ∧ standsAt l' (EmptyString +:+ "{" +:+ " " +:+ "if (a) { b }" +:+ " " +:+ "}") " x".
Proof.
  apply (code_block_runs_to_the_matching_brace 30 (lexer.New "{ if (a) { b } } x")
           EmptyString " " "if (a) { b }" " " " x");
    [apply New_standsAt|reflexivity..|by right|reflexivity|vm_compute; lia].
Defined.

(** ** What the parser keeps *)

Section ParserKeeps.

(** A relation between a parser and a later one that every call of
    [nextToken] and of [addError] respects. *)
Variable lf : nat.
Variable R : parser.Parser → parser.Parser → Prop.
Hypothesis R_refl : ∀ p, R p p.
Hypothesis R_trans : ∀ p1 p2 p3, R p1 p2 → R p2 p3 → R p1 p3.
Hypothesis R_next : ∀ p p', parser.nextToken lf p = Some p' → R p p'.
Hypothesis R_error : ∀ msg p, R p (parser.addError msg p).

Lemma parseArrayLoop_keeps fuel :
  ∀ p values r p', parser.parseArrayLoop lf fuel p values = Some (r, p') → R p p'.
Proof.
  induction fuel as [|fuel IH]; intros p values r p' H; [done|]. simpl in H.
  destruct (_ && _); [|injection H as _ <-; apply R_refl].
  destruct (Type_ (parser.curToken p)); bind_in H;
    (eapply R_trans; [by apply R_next|by eapply IH]).
Qed.

Lemma parseArray_keeps fuel p r p' :
  parser.parseArray lf fuel p = Some (r, p') → R p p'.
Proof.
  unfold parser.parseArray. intros H. bind_in H. bind_pair H. bind_in H.
  injection H as _ <-. apply R_next in E. apply parseArrayLoop_keeps in E0.
  eapply R_trans; [done|]. eapply R_trans; [done|].
  destruct (bool_decide _); [by apply R_next|injection E1 as <-; apply R_refl].
Qed.

Lemma parseValue_keeps fuel name p r p' :
  parser.parseValue lf fuel name p = Some (r, p') → R p p'.
Proof.
  unfold parser.parseValue. intros H.
  destruct (Type_ (parser.curToken p));
    try (injection H as _ <-; apply R_error);
    try (bind_in H; injection H as _ <-; by apply R_next).
  bind_pair H. injection H as _ <-. by eapply parseArray_keeps.
Qed.

Lemma parseProperty_keeps fuel elem p r p' :
  parser.parseProperty lf fuel elem p = Some (r, p') → R p p'.
Proof.
  unfold parser.parseProperty. intros H. bind_in H. apply R_next in E.
  eapply R_trans; [done|]. destruct (bool_decide _).
  - injection H as _ <-. apply R_error.
  - bind_in H. bind_pair H. apply R_next in E0. apply parseValue_keeps in E1.
    eapply R_trans; [done|]. destruct o; injection H as _ <-; done.
Qed.

Lemma parseElement_keeps fuel :
  (∀ p r p', parser.parseElement lf fuel p = Some (r, p') → R p p')
  ∧ (∀ ot elem p r p', parser.parseElementLoop lf fuel ot elem p = Some (r, p') → R p p').
Proof.
  induction fuel as [|fuel [IHe IHl]]; [by split|]. split.
  - intros p r p' H. simpl in H. destruct (negb _).
    + bind_in H. injection H as _ <-. by apply R_next.
    + bind_in H. bind_pair H. apply R_next in E. apply IHl in E0.
      eapply R_trans; [done|]. eapply R_trans; [done|].
      destruct (parser.isMatchingClose _ _).
      * bind_in H. injection H as _ <-. by apply R_next.
      * injection H as _ <-. apply R_error.
  - intros ot elem p r p' H. simpl in H.
    destruct (_ && _); [|injection H as _ <-; apply R_refl].
    destruct (bool_decide _); [|destruct (IsOpeningTag _)].
    + bind_pair H. apply parseProperty_keeps in E. apply IHl in H.
      by eapply R_trans.
    + bind_pair H. apply IHe in E. apply IHl in H. by eapply R_trans.
    + bind_in H. apply R_next in E. apply IHl in H. by eapply R_trans.
Qed.

Lemma parseSectionLoop_keeps fuel :
  ∀ ct cs p r p', parser.parseSectionLoop lf fuel ct cs p = Some (r, p') → R p p'.
Proof.
  induction fuel as [|fuel IH]; intros ct cs p r p' H; [done|]. simpl in H.
  destruct (_ && _); [|injection H as _ <-; apply R_refl].
  bind_pair H. apply (proj1 (parseElement_keeps fuel)) in E. apply IH in H.
  by eapply R_trans.
Qed.

Lemma parsePageSection_keeps fuel p r p' :
  parser.parsePageSection lf fuel p = Some (r, p') → R p p'.
Proof.
  unfold parser.parsePageSection. intros H. bind_in H. bind_pair H.
  apply R_next in E. apply parseSectionLoop_keeps in E0.
  eapply R_trans; [done|]. eapply R_trans; [done|]. destruct (bool_decide _).
  - bind_in H. injection H as _ <-. by apply R_next.
  - injection H as _ <-. apply R_error.
Qed.

Lemma parseDocumentLoop_keeps fuel :
  ∀ ss p r p', parser.parseDocumentLoop lf fuel ss p = Some (r, p') → R p p'.
Proof.
  induction fuel as [|fuel IH]; intros ss p r p' H; [done|]. simpl in H.
  destruct (bool_decide _); [|injection H as _ <-; apply R_refl].
  destruct (IsPageSection _).
  - bind_pair H. apply parsePageSection_keeps in E. apply IH in H. by eapply R_trans.
  - bind_in H. apply R_next in E. apply IH in H. by eapply R_trans.
Qed.

Lemma ParseDocument_keeps fuel p doc p' :
  parser.ParseDocument lf fuel p = Some (doc, p') → R p p'.
Proof.
  unfold parser.ParseDocument. intros H. bind_pair H. injection H as _ <-.
  by eapply parseDocumentLoop_keeps.
Qed.

End ParserKeeps.

(** X12. [ParseDocument] only adds to the errors: those recorded before the
    call are the first of those recorded after it, in the same order.  Its
    lexer only reads on, by [readChar], over the same input. *)
Theorem ParseDocument_keeps_errors_and_input lf fuel p doc p' :
  parser.ParseDocument lf fuel p = Some (doc, p')
  → (∃ later, parser.Errors p' = parser.Errors p ++ later)
    ∧ reads (parser.l p) (parser.l p')
    ∧ lexer.input (parser.l p') = lexer.input (parser.l p).
Proof.
  intros H.
  assert (Hreads : reads (parser.l p) (parser.l p')).
  { refine (ParseDocument_keeps lf (λ p p', reads (parser.l p) (parser.l p'))
              _ _ _ _ fuel p doc p' H).
    - intros. constructor.
    - intros p1 p2 p3. apply reads_trans.
    - intros p1 p2 Hn. unfold parser.nextToken in Hn. bind_pair Hn.
      injection Hn as <-. by apply NextToken_reads in E.
    - intros. constructor. }
  split_and!; [|done|by apply reads_input].
  refine (ParseDocument_keeps lf
            (λ p p', ∃ later, parser.Errors p' = parser.Errors p ++ later)
            _ _ _ _ fuel p doc p' H).
  - intros p1. exists []. by rewrite app_nil_r.
  - intros p1 p2 p3 [a Ha] [b Hb]. exists (a ++ b). by rewrite Hb, Ha, app_assoc.
  - intros p1 p2 Hn. unfold parser.nextToken in Hn. bind_pair Hn.
    injection Hn as <-. exists []. by rewrite app_nil_r.
  - intros msg p1. by exists [msg].
Qed.

(** X12 on the parser of [Samples.missingEquals]. *)
Lemma ParseDocument_keeps_errors_and_input_witness :
  ∃ doc p', parser.ParseDocument 50 50 Samples.atName = Some (doc, p')
            ∧ ∃ later, parser.Errors p' = parser.Errors Samples.atName ++ later.
Proof.
  destruct (parser.ParseDocument 50 50 Samples.atName) as [[doc p']|] eqn:E;
    [|by vm_compute in E].
  exists doc, p'. split; [done|].
  exact (proj1 (ParseDocument_keeps_errors_and_input _ _ _ _ _ E)).
Defined.

(** ** What the parser builds *)

Section ParserBuilds.
Variable lf : nat.

Lemma parseArrayLoop_scalars fuel :
  ∀ p values r p',
    parser.parseArrayLoop lf fuel p values = Some (r, p')
    → Forall scalar values → Forall scalar r ∧ parser.errors p' = parser.errors p.
Proof.
  assert (Hnext : ∀ p p', parser.nextToken lf p = Some p'
                          → parser.errors p' = parser.errors p).
  { intros p p' Hn. unfold parser.nextToken in Hn. bind_pair Hn. by injection Hn as <-. }
  induction fuel as [|fuel IH]; intros p values r p' H Hv; [done|]. simpl in H.
  destruct (_ && _); [|by injection H as <- <-].
  destruct (Type_ (parser.curToken p)); bind_in H; apply Hnext in E;
    (apply IH in H as [H1 H2];
     [ split; [done|congruence]
     | first [done | apply Forall_app; split; [done|by repeat constructor]] ]).
Qed.

Lemma parseArray_flat fuel p v p' :
  parser.parseArray lf fuel p = Some (v, p')
  → parser.errors p' = parser.errors p
    ∧ ∃ values, v = ArrayValue (parser.curToken p) values ∧ Forall scalar values.
Proof.
  assert (Hnext : ∀ p p', parser.nextToken lf p = Some p'
                          → parser.errors p' = parser.errors p).
  { intros q q' Hn. unfold parser.nextToken in Hn. bind_pair Hn. by injection Hn as <-. }
  unfold parser.parseArray. intros H. bind_in H. bind_pair H. bind_in H.
  injection H as <- <-. apply Hnext in E.
  apply parseArrayLoop_scalars in E0 as [Hs He]; [|constructor].
  split; [|by eexists].
  destruct (bool_decide _); [apply Hnext in E1|injection E1 as <-]; congruence.
Qed.

Lemma parseValue_flat fuel name p v p' :
  parser.parseValue lf fuel name p = Some (Some v, p') → flat v.
Proof.
  unfold parser.parseValue. intros H.
  destruct (Type_ (parser.curToken p)); try done;
    try (bind_in H; by injection H as <- _).
  bind_pair H. injection H as <- _.
  by apply parseArray_flat in E as (_ & values & -> & Hs).
Qed.

Lemma parseProperty_filling fuel elem p r p' :
  parser.parseProperty lf fuel elem p = Some (r, p')
  → filling elem
  → filling r ∧ ElemToken r = ElemToken elem ∧ Children r = Children elem.
Proof.
  unfold parser.parseProperty. intros H Hf. bind_in H.
  destruct (bool_decide _); [by injection H as <- _|].
  bind_in H. bind_pair H. destruct o as [v|]; injection H as <- _; [|done].
  apply parseValue_flat in E1. destruct Hf as (H1 & H2 & H3 & H4).
  split; [|done]. split_and!; try done. by apply map_Forall_insert_2.
Qed.

Lemma parseElement_builds fuel :
  (∀ p r p',
     parser.parseElement lf fuel p = Some (r, p')
     → if IsOpeningTag (Type_ (parser.curToken p))
       then ∃ e, r = Some e ∧ ElemToken e = parser.curToken p
                 ∧ parsedNode (NodeElement e)
       else r = None ∧ parser.nextToken lf p = Some p')
  ∧ (∀ ot elem p r p',
       parser.parseElementLoop lf fuel ot elem p = Some (r, p')
       → filling elem → filling r ∧ ElemToken r = ElemToken elem).
Proof.
  induction fuel as [|fuel [IHe IHl]]; [by split|]. split.
  - intros p r p' H. simpl in H. destruct (IsOpeningTag _) eqn:Hopen; simpl in H.
    + bind_in H. bind_pair H. apply IHl in E0 as [(H1 & H2 & H3 & H4) Htok].
      2:{ split_and!; try done. }
      exists e. split_and!; [|done|by constructor].
      destruct (parser.isMatchingClose _ _); [bind_in H|]; by injection H as <- _.
    + bind_in H. by injection H as <- <-.
  - intros ot elem p r p' H Hf. simpl in H.
    destruct (_ && _); [|by injection H as <- _].
    destruct (bool_decide _); [|destruct (IsOpeningTag (Type_ (parser.curToken p))) eqn:Hopen].
    + bind_pair H. apply parseProperty_filling in E as (Hf' & Htok & _); [|done].
      apply IHl in H as [? ?]; [|done]. split; [done|congruence].
    + bind_pair H. apply IHe in E. rewrite Hopen in E.
      destruct E as (c & -> & _ & Hc).
      apply IHl in H as [? ?]; [done|].
      destruct Hf as (H1 & H2 & H3 & H4). split_and!; try done.
      apply Forall_app. split; [done|by constructor].
    + bind_in H. by apply IHl in H.
Qed.

Lemma parseSectionLoop_builds fuel :
  ∀ ct cs p r p',
    parser.parseSectionLoop lf fuel ct cs p = Some (r, p')
    → Forall parsedNode cs → Forall parsedNode r.
Proof.
  induction fuel as [|fuel IH]; intros ct cs p r p' H Hcs; [done|]. simpl in H.
  destruct (_ && _); [|by injection H as <- _].
  bind_pair H. apply (proj1 (parseElement_builds fuel)) in E.
  apply IH in H; [done|].
  destruct (IsOpeningTag _).
  - destruct E as (c & -> & _ & Hc). apply Forall_app. split; [done|by constructor].
  - by destruct E as [-> _].
Qed.

Lemma parseDocumentLoop_builds fuel :
  ∀ ss p r p',
    parser.parseDocumentLoop lf fuel ss p = Some (r, p')
    → Forall parsedSection ss → Forall parsedSection r.
Proof.
  induction fuel as [|fuel IH]; intros ss p r p' H Hss; [done|]. simpl in H.
  destruct (bool_decide _); [|by injection H as <- _].
  destruct (IsPageSection _) eqn:Hsec.
  - bind_pair H. apply IH in H; [done|]. apply Forall_app. split; [done|].
    constructor; [|constructor]. unfold parser.parsePageSection in E.
    bind_in E. bind_pair E. apply parseSectionLoop_builds in E1; [|constructor].
    destruct (bool_decide _); [bind_in E|]; injection E as <- _; by split_and!.
  - bind_in H. by apply IH in H.
Qed.

End ParserBuilds.

(** X13. [parseArray] records no error, whatever the tokens of the array are,
    and the array it returns holds strings, numbers and variable references
    only: commas and all other tokens are skipped, and an array that the
    input ends in is returned as it stands. *)
Theorem parseArray_reports_nothing_and_holds_scalars lf fuel p v p' :
  parser.parseArray lf fuel p = Some (v, p')
  → parser.Errors p' = parser.Errors p
    ∧ ∃ values, v = ArrayValue (parser.curToken p) values ∧ Forall scalar values.
Proof. apply parseArray_flat. Qed.

(** X13 on an array with a comma, an identifier and a variable reference. *)
Lemma parseArray_reports_nothing_and_holds_scalars_witness :
  ∃ tok1 tok2 p',
    parser.parseArray 30 30 Cases.atArray
    = Some (ArrayValue (parser.curToken Cases.atArray)
              [NumberValue tok1 "1"; VariableRef tok2 "b"], p')
    ∧ parser.Errors p' = parser.Errors Cases.atArray.
Proof.
  destruct (parser.parseArray 30 30 Cases.atArray) as [[v p']|] eqn:E;
    [|by vm_compute in E].
  destruct (parseArray_reports_nothing_and_holds_scalars _ _ _ _ _ E)
    as (Herr & values & -> & _).
  vm_compute in E. injection E as <- <-. by eexists _, _, _.
Defined.

(** X14. Every element of the document that [ParseDocument] returns carries an
    opening tag as its token and the name of that tag as its tag type; its
    property values are scalars, code blocks and arrays of scalars; its
    children are such elements.  Every section carries a page-section tag
    and the type of that tag, which is "top", "mid" or "bottom". *)
Theorem ParseDocument_builds_tagged_elements lf fuel p doc p' :
  parser.ParseDocument lf fuel p = Some (doc, p')
  → Forall parsedSection (Sections doc)
    ∧ Forall (λ s, SecType s = "top" ∨ SecType s = "mid" ∨ SecType s = "bottom")
             (Sections doc).
Proof.
  unfold parser.ParseDocument. intros H. bind_pair H. injection H as <- _.
  apply parseDocumentLoop_builds in E; [|constructor]. split; [done|].
  simpl. eapply Forall_impl; [done|]. intros s (Hs & -> & _).
  by destruct (Type_ (SecToken s)); auto.
Qed.

(** X14 on the document of [Samples.linked]. *)
Lemma ParseDocument_builds_tagged_elements_witness :
  ∃ doc p',
    parser.ParseDocument 200 200 Cases.linkedParser = Some (doc, p')
    ∧ Forall parsedSection (Sections doc).
Proof.
  destruct (parser.ParseDocument 200 200 Cases.linkedParser) as [[doc p']|] eqn:E;
    [|by vm_compute in E].
  exists doc, p'. split; [done|].
  exact (proj1 (ParseDocument_builds_tagged_elements _ _ _ _ _ E)).
Defined.

(** X15. On a current token that is no opening tag, [parseElement] returns nil
    and consumes that one token, without an error.  On an opening tag it
    returns an element, never nil, whose token is that tag, also where the
    closing tag is missing. *)
Theorem parseElement_is_nil_off_an_opening_tag lf fuel p r p' :
  parser.parseElement lf fuel p = Some (r, p')
  → (IsOpeningTag (Type_ (parser.curToken p)) = false
     → r = None ∧ parser.nextToken lf p = Some p'
       ∧ parser.Errors p' = parser.Errors p)
    ∧ (IsOpeningTag (Type_ (parser.curToken p)) = true
       → ∃ e, r = Some e
              ∧ ElemToken e = parser.curToken p
              ∧ TagType e = GetTagName (Type_ (parser.curToken p))
              ∧ parsedNode (NodeElement e)).
Proof.
  intros H. apply (proj1 (parseElement_builds lf fuel)) in H.
  destruct (IsOpeningTag _).
  - split; [done|]. intros _. destruct H as (e & -> & Htok & He).
    exists e. split_and!; try done.
    inversion He as [e' _ Htag _ _ Heq]. by rewrite Htag, Htok.
  - split; [|done]. intros _. destruct H as [-> Hnext]. split_and!; try done.
    unfold parser.nextToken in Hnext. bind_pair Hnext. by injection Hnext as <-.
Qed.

(** X15 on the property name of [Samples.missingEquals]. *)
Lemma parseElement_is_nil_off_an_opening_tag_witness :
  ∃ p', parser.parseElement 50 50 Samples.atName = Some (None, p')
        ∧ parser.nextToken 50 Samples.atName = Some p'.
Proof.
  destruct (parser.parseElement 50 50 Samples.atName) as [[r p']|] eqn:E;
    [|by vm_compute in E].
  destruct (proj1 (parseElement_is_nil_off_an_opening_tag _ _ _ _ _ E) eq_refl)
    as (-> & Hnext & _).
  by exists p'.
Defined.

Lemma nextToken_errors lf p p' :
  parser.nextToken lf p = Some p'
  → parser.errors p' = parser.errors p ∧ parser.curToken p' = parser.peekToken p.
Proof. unfold parser.nextToken. intros H. bind_pair H. by injection H as <-. Qed.

Lemma parseValue_outcome lf fuel name p r p' :
  parser.parseValue lf fuel name p = Some (r, p')
  → match r with
    | Some v => flat v ∧ parser.errors p' = parser.errors p
    | None =>
        p' = parser.addError ("expected value for property " +:+ name +:+ ", got "
                              +:+ typeString (Type_ (parser.curToken p))) p
    end.
Proof.
  intros H. destruct r as [v|].
  - split; [by eapply parseValue_flat|]. unfold parser.parseValue in H.
    destruct (Type_ (parser.curToken p)); try done;
      try (bind_in H; injection H as _ <-; by apply nextToken_errors in E as [? _]).
    bind_pair H. injection H as _ <-. by apply parseArray_flat in E as [? _].
  - unfold parser.parseValue in H.
    destruct (Type_ (parser.curToken p)); try (by injection H as <-);
      try (bind_in H; done).
    bind_pair H. done.
Qed.

(** X16. [parseProperty] either stores a value or records an error, never
    both: when it records no error, the element has a flat value under the
    name of the property, in place of an earlier one, and its other
    properties are as before; when it records an error, which is one, the
    element is as it was. *)
Theorem parseProperty_stores_or_reports lf fuel (elem : Element) p elem' p' :
  parser.parseProperty lf fuel elem p = Some (elem', p')
  → let name := Literal (parser.curToken p) in
    (parser.Errors p' = parser.Errors p
     ∧ ∃ v, flat v ∧ elem' = parser.setProperty elem name v
            ∧ Properties elem' !! name = Some v
            ∧ ∀ other, other ≠ name
                       → Properties elem' !! other = Properties elem !! other)
    ∨ (elem' = elem
       ∧ ∃ msg, parser.Errors p' = parser.Errors p ++ [msg]).
Proof.
  unfold parser.parseProperty. intros H. cbv zeta. bind_in H.
  apply nextToken_errors in E as [He1 _].
  destruct (bool_decide _).
  { injection H as <- <-. right. split; [done|]. eexists. simpl. by rewrite He1. }
  bind_in H. apply nextToken_errors in E as [He2 _]. bind_pair H.
  apply parseValue_outcome in E. destruct o as [v|]; injection H as <- <-.
  - destruct E as [Hv He3]. left. split; [unfold parser.Errors; congruence|].
    exists v. split_and!; [done|done|apply lookup_insert_eq|].
    intros other Hne. simpl. by apply lookup_insert_ne.
  - right. split; [done|]. subst p2. eexists. unfold parser.Errors. simpl.
    by rewrite He2, He1.
Qed.

(** X16 on the second property of [Samples.missingEquals]. *)
Lemma parseProperty_stores_or_reports_witness :
  ∃ elem' p' tok,
    parser.parseProperty 50 50 Samples.emptyParagraph Samples.afterName
    = Some (elem', p')
    ∧ parser.Errors p' = parser.Errors Samples.afterName
    ∧ Properties elem' !! "b" = Some (StringValue tok "x").
Proof.
  destruct (parser.parseProperty 50 50 Samples.emptyParagraph Samples.afterName)
    as [[elem' p']|] eqn:E; [|by vm_compute in E].
  destruct (parseProperty_stores_or_reports _ _ _ _ _ _ E)
    as [(Herr & v & _ & _ & Hb & _)|(_ & msg & Herr)].
  - vm_compute in E. injection E as <- <-. eexists _, _, _.
    split_and!; reflexivity.
  - vm_compute in E. injection E as <- <-. vm_compute in Herr.
    destruct (parser.errors Samples.afterName); discriminate Herr.
Defined.

Lemma parseElementLoop_stops lf fuel :
  ∀ ot elem p r p',
    parser.parseElementLoop lf fuel ot elem p = Some (r, p')
    → parser.isMatchingClose ot (Type_ (parser.curToken p')) = true
      ∨ Type_ (parser.curToken p') = EOF.
Proof.
  induction fuel as [|fuel IH]; intros ot elem p r p' H; [done|]. simpl in H.
  destruct (parser.isMatchingClose ot _) eqn:Hm; simpl in H.
  { injection H as _ <-. by left. }
  destruct (bool_decide _) eqn:Heof.
  - destruct (bool_decide (_ = IDENT)); [|destruct (IsOpeningTag _)].
    + bind_pair H. by eapply IH.
    + bind_pair H. by eapply IH.
    + bind_in H. by eapply IH.
  - injection H as _ <-. right. apply bool_decide_eq_false in Heof.
    by destruct (decide (Type_ (parser.curToken p) = EOF)).
Qed.

(** ** The closing tag of an element *)


Lemma isMatchingClose_EOF open :
  IsOpeningTag open = true → parser.isMatchingClose open EOF = false.
Proof. by destruct open. Qed.











Lemma parseProperty_same_tag lf fuel (elem : Element) p r p' :
  parser.parseProperty lf fuel elem p = Some (r, p')
  → ElemToken r = ElemToken elem ∧ TagType r = TagType elem.
Proof.
  unfold parser.parseProperty. intros H. cbv zeta in H. bind_in H.
  destruct (bool_decide _); [by injection H as <- _|].
  bind_in H. bind_pair H. destruct o; by injection H as <- _.
Qed.

Lemma parseElementLoop_same_tag lf fuel :
  ∀ ot (elem : Element) p r p',
    parser.parseElementLoop lf fuel ot elem p = Some (r, p')
    → ElemToken r = ElemToken elem ∧ TagType r = TagType elem.
Proof.
  induction fuel as [|fuel IH]; intros ot elem p r p' H; [done|]. simpl in H.
  destruct (_ && _); [|by injection H as <- _].
  destruct (bool_decide (_ = IDENT)); [|destruct (IsOpeningTag _)].
  - bind_pair H. apply parseProperty_same_tag in E as [E1 E2].
    apply IH in H as [H1 H2]. split; congruence.
  - bind_pair H. apply IH in H as [H1 H2]. by destruct o.
  - bind_in H. by eapply IH.
Qed.


(** How a call of [parseElement] that returns an element went: the opening
    tag was passed, the loop ran to a token that closes the element or to
    the end of the input, and there the closing tag was passed or the
    error of the missing closing tag recorded. *)
Lemma parseElement_close lf fuel p (e : Element) p' :
  parser.parseElement lf fuel p = Some (Some e, p')
  → ∃ f p1 p2,
      fuel = S f
      ∧ IsOpeningTag (Type_ (parser.curToken p)) = true
      ∧ parser.nextToken lf p = Some p1
      ∧ parser.parseElementLoop lf f (Type_ (parser.curToken p)) 
          (mkElement (parser.curToken p) (GetTagName (Type_ (parser.curToken p))) ∅ [])
          p1
        = Some (e, p2)
      ∧ ElemToken e = parser.curToken p
      ∧ TagType e = GetTagName (Type_ (parser.curToken p))
      ∧ ((parser.isMatchingClose (Type_ (parser.curToken p))
                                 (Type_ (parser.curToken p2)) = true
          ∧ Type_ (parser.curToken p2) ≠ EOF
          ∧ parser.nextToken lf p2 = Some p')
         ∨ (parser.isMatchingClose (Type_ (parser.curToken p))
                                   (Type_ (parser.curToken p2)) = false
            ∧ Type_ (parser.curToken p2) = EOF
            ∧ p' = parser.addError
                     ("expected closing tag for element " +:+ TagType e
                      +:+ " at line " +:+ showInt (Line (ElemToken e))) p2)).
Proof.
  intros H. destruct fuel as [|f]; [done|]. simpl in H.
  destruct (IsOpeningTag _) eqn:Hopen; simpl in H; [|bind_in H; done].
  bind_in H. bind_pair H. rename p0 into q1, p1 into q2.
  pose proof (parseElementLoop_stops _ _ _ _ _ _ _ E0) as Hstop.
  destruct (parseElementLoop_same_tag _ _ _ _ _ _ _ E0) as [Htok Htag].
  destruct (parser.isMatchingClose _ _) eqn:Hm.
  - bind_in H. injection H as <- <-. exists f, q1, q2.
    split_and!; try done. left. split_and!; try done.
    intros Heof. rewrite Heof, isMatchingClose_EOF in Hm; done.
  - injection H as <- <-. exists f, q1, q2. split_and!; try done. right.
    destruct Hstop as [?|Heof]; [congruence|]. done.
Qed.


(** X17. [parseElement] misses a closing tag at the end of the input only.
    A call that returns an element passes the opening tag and runs its
    loop from there; where the loop stops, either the token is not the end
    of the input and matches the opening tag, and passing it records no
    error, or the token is the end of the input, the parser stays there,
    and the error of the missing closing tag, with the tag name of the
    element and the line of its opening tag, is added to the errors. *)
Theorem parseElement_reports_missing_close_at_end lf fuel p (e : Element) p' :
  parser.parseElement lf fuel p = Some (Some e, p')
  → ∃ f p1 p2,
      fuel = S f
      ∧ parser.nextToken lf p = Some p1
      ∧ parser.parseElementLoop lf f (Type_ (parser.curToken p))
          (mkElement (parser.curToken p) (GetTagName (Type_ (parser.curToken p))) ∅ [])
          p1
        = Some (e, p2)
      ∧ ((Type_ (parser.curToken p2) ≠ EOF
          ∧ parser.isMatchingClose (Type_ (parser.curToken p))
                                   (Type_ (parser.curToken p2)) = true
          ∧ parser.nextToken lf p2 = Some p'
          ∧ parser.Errors p' = parser.Errors p2)
         ∨ (Type_ (parser.curToken p2) = EOF
            ∧ Type_ (parser.curToken p') = EOF
            ∧ parser.Errors p'
              = parser.Errors p2
                ++ ["expected closing tag for element "
                    +:+ GetTagName (Type_ (parser.curToken p))
                    +:+ " at line " +:+ showInt (Line (parser.curToken p))])).
Proof.
  intros H.
  destruct (parseElement_close _ _ _ _ _ H)
    as (f & p1 & p2 & Hf & _ & Hnext & Hloop & Htok & Htag & Hend).
  exists f, p1, p2. split_and!; try done.
  destruct Hend as [(Hm & Hne & Hclose)|(_ & Heof & ->)]; [left|right].
  - split_and!; try done. by apply nextToken_errors in Hclose as [? _].
  - split_and!; try done. unfold parser.Errors, parser.addError. simpl.
    by rewrite Htok, Htag.
Qed.

(** X17 on a paragraph that is not closed. *)
Lemma parseElement_reports_missing_close_at_end_witness :
  ∃ e p' p2,
    parser.parseElement 30 30 Cases.unclosedParser = Some (Some e, p')
    ∧ Type_ (parser.curToken p2) = EOF
    ∧ parser.Errors p2 = []
    ∧ parser.Errors p' = ["expected closing tag for element p at line 1"].
Proof.
  destruct (parser.parseElement 30 30 Cases.unclosedParser) as [[[e|] p']|] eqn:E;
    try (vm_compute in E; discriminate E).
  destruct (parseElement_reports_missing_close_at_end _ _ _ _ _ E)
    as (f & p1 & p2 & Hf & Hnext & Hloop & Hend).
  exists e, p', p2. split; [reflexivity|].
  injection Hf as <-. vm_compute in Hnext. injection Hnext as <-.
  vm_compute in Hloop. injection Hloop as <- <-.
  destruct Hend as [(Hne & _)|(Heof & _ & Herr)].
  - exfalso. apply Hne. reflexivity.
  - split; [exact Heof|]. split; [reflexivity|]. rewrite Herr. reflexivity.
Defined.

(** ** Input without tags *)

Lemma nextToken_tagless lf p p' :
  parser.nextToken lf p = Some p' → tagless p → tagless p'.
Proof.
  unfold parser.nextToken. intros H (Hw & Hin & Hcur & Hpeek & Herr).
  bind_pair H. injection H as <-. rename l into l'.
  unfold lexer.NextToken in E. bind_in E. rename l into ls.
  destruct (readWhile_reads lexer.isSpace eq_refl _ _ _ E0) as [Hr _].
  destruct (scanToken_reads _ _ _ _ E) as (Hr' & Ht & _).
  pose proof (reads_wellFormed _ _ Hw Hr) as Hws.
  pose proof (reads_wellFormed _ _ Hws Hr') as Hw'.
  split_and!; try done.
  - cbn [parser.l]. by rewrite (reads_input _ _ Hr'), (reads_input _ _ Hr).
  - cbn [parser.peekToken]. unfold typeAt in Ht.
    destruct (Ascii.eqb (lexer.ch ls) "[") eqn:Hb.
    + exfalso. destruct Hws as (_ & Hle & Hch). rewrite (reads_input _ _ Hr) in *.
      destruct (decide (lexer.position ls < String.length (lexer.input (parser.l p))))
        as [Hlt|Hge].
      * pose proof (allBytes_byteAt _ _ _ Hin Hlt) as Hnb. simpl in Hnb.
        by rewrite <- Hch, Hb in Hnb.
      * unfold byteAt in Hch. rewrite get_None_ge in Hch by lia. by rewrite Hch in Hb.
    + repeat match type of Ht with
             | (if ?b then _ else _) => destruct b
             end; by rewrite Ht.
Qed.

Lemma parseDocumentLoop_tagless lf fuel :
  ∀ ss p r p',
    parser.parseDocumentLoop lf fuel ss p = Some (r, p')
    → tagless p → r = ss ∧ parser.errors p' = [].
Proof.
  induction fuel as [|fuel IH]; intros ss p r p' H Hp; [done|]. simpl in H.
  destruct (bool_decide _).
  - destruct Hp as (Hw & Hin & Hcur & Hpeek & Herr). rewrite Hcur in H.
    bind_in H. eapply IH; [done|]. eapply nextToken_tagless; [done|]. by split_and!.
  - injection H as <- <-. by destruct Hp as (_ & _ & _ & _ & ?).
Qed.

(** X18. An input without an opening bracket parses to a document without
    sections, and without an error: what stands outside the page sections
    is skipped. *)
Theorem input_without_brackets_gives_empty_document input lf fuel :
  allBytes (λ c, negb (Ascii.eqb c "[")) input = true
  → String.length input < lf → 2 * String.length input + 1 ≤ fuel
  → ∃ p p', parser.New lf (lexer.New input) = Some p
            ∧ parser.ParseDocument lf fuel p = Some (mkDocument [], p')
            ∧ parser.Errors p' = [].
Proof.
  intros Hin Hlf Hfuel.
  destruct (parser_New_total lf input Hlf) as (p & Hnew & Hf & Hw & _).
  destruct (parseDocumentLoop_total lf fuel [] p Hf) as (ss & p' & Hloop & _); [lia|].
  assert (Hp : tagless p).
  { unfold parser.New in Hnew. bind_in Hnew.
    eapply nextToken_tagless; [done|]. eapply nextToken_tagless; [done|].
    split_and!; try done; cbn [parser.l]; [apply New_wellFormed|].
    by rewrite (proj1 (proj2 (New_standsAt input))). }
  destruct (parseDocumentLoop_tagless _ _ _ _ _ _ Hloop Hp) as [-> Herr].
  exists p, p'. split_and!; [done| |done].
  unfold parser.ParseDocument. by rewrite Hloop.
Qed.

(** X18 on a line of properties. *)
Lemma input_without_brackets_gives_empty_document_witness :
  ∃ p p', parser.New 20 (lexer.New "title = 5 ] $x") = Some p
          ∧ parser.ParseDocument 20 40 p = Some (mkDocument [], p')
          ∧ parser.Errors p' = [].
Proof.
  apply input_without_brackets_gives_empty_document;
    [reflexivity|vm_compute; lia..].
Defined.

(** ** Generation without reference chains *)

Lemma bind_returns {A B} (r : option A) (k : A → option B) :
  is_Some r → (∀ a, is_Some (k a)) → is_Some (r ≫= k).
Proof. intros [a ->] Hk. apply Hk. Qed.

Lemma height_in (x : Value) (values : list Value) :
  x ∈ values → height x ≤ foldr (λ x n, height x `max` n) 0 values.
Proof.
  induction values as [|y values IH]; intros Hx; [by apply elem_of_nil in Hx|].
  apply elem_of_cons in Hx as [->|Hx]; simpl; [lia|]. apply IH in Hx. lia.
Qed.

Lemma literal_in (x : Value) (values : list Value) :
  forallb literal values = true → x ∈ values → literal x = true.
Proof.
  intros H Hx. rewrite forallb_forall in H. apply H. by apply list_elem_of_In.
Qed.

Lemma resolveValue_literal g fuel :
  ∀ v, literal v = true → height v ≤ fuel
       → is_Some (generator.resolveValue fuel g v).
Proof.
  induction fuel as [|fuel IH]; intros v Hl Hh.
  - destruct v; simpl in *; try done; lia.
  - destruct v as [| | |tok values|]; simpl in *; try done.
    apply bind_returns; [|done]. apply mapM_is_Some_2, Forall_forall. intros x Hx. simpl.
    apply IH; [by eapply literal_in|]. pose proof (height_in _ _ Hx). lia.
Qed.

Lemma resolveValue_returns g h fuel :
  quiet h (generator.labels g)
  → ∀ v, height v + h ≤ fuel → is_Some (generator.resolveValue fuel g v).
Proof.
  intros Hq. induction fuel as [|fuel IH]; intros v Hh.
  - destruct v as [| |tok name|tok values|]; simpl in *; try done; lia.
  - destruct v as [| |tok name|tok values|]; simpl in *; try done.
    + destruct (generator.labels g !! name) as [e|] eqn:He; [|done].
      destruct (Properties e !! "contains") as [c|] eqn:Hc; [|done].
      destruct (Hq _ _ _ He Hc) as [Hl Hc']. apply resolveValue_literal; [done|lia].
    + apply bind_returns; [|done]. apply mapM_is_Some_2, Forall_forall. intros x Hx. simpl.
      apply IH. pose proof (height_in _ _ Hx). lia.
Qed.

Section Returns.
Variables (H h fuel : nat) (g : generator.Generator) (elem : Element).
Hypothesis Hquiet : quiet h (generator.labels g).
Hypothesis Hshallow : shallow H elem.
Hypothesis Hfuel : H + h ≤ fuel.

Lemma property_returns name v :
  Properties elem !! name = Some v → is_Some (generator.resolveValue fuel g v).
Proof.
  intros Hv. apply (resolveValue_returns g h); [done|].
  pose proof (Hshallow _ _ Hv) as Hle. simpl in Hle. lia.
Qed.

Lemma getStringProp_returns name :
  is_Some (generator.getStringProp fuel g elem name).
Proof.
  unfold generator.getStringProp.
  destruct (Properties elem !! name) eqn:Hv; [by eapply property_returns|done].
Qed.

Lemma items_return tok values name :
  Properties elem !! name = Some (ArrayValue tok values)
  → Forall (λ x, is_Some (generator.resolveValue fuel g x)) values.
Proof.
  intros Hv. apply Forall_forall. intros x Hx.
  apply (resolveValue_returns g h); [done|].
  pose proof (Hshallow _ _ Hv) as Hle. simpl in Hle.
  pose proof (height_in _ _ Hx). lia.
Qed.

End Returns.

Lemma applyFormattingLoop_returns fuel g values :
  Forall (λ x, is_Some (generator.resolveValue fuel g x)) values
  → ∀ content, is_Some (generator.applyFormattingLoop fuel g values content).
Proof.
  induction 1 as [|x values Hx _ IH]; intros content; simpl; [done|].
  apply bind_returns; [done|]. intros ?. apply IH.
Qed.

Lemma generateItems_returns fuel g indent values :
  Forall (λ x, is_Some (generator.resolveValue fuel g x)) values
  → is_Some (generator.generateItems fuel g indent values).
Proof.
  induction 1 as [|x values Hx _ IH]; simpl; [done|].
  apply bind_returns; [done|]. intros ?. by apply bind_returns.
Qed.

Lemma generateChildren_returns gn (cs : list Node) (P : generator.Generator → Prop) :
  Forall (λ node, ∀ g, P g → ∃ s, gn node g = Some (s, g)) cs
  → ∀ g, P g → ∃ s, generator.generateChildren gn cs g = Some (s, g).
Proof.
  induction 1 as [|c rest Hc _ IH]; intros g Hg; simpl; [by eexists|].
  destruct (Hc g Hg) as [s ->]. cbn [mbind option_bind].
  destruct (IH g Hg) as [s' ->]. cbn [mbind option_bind]. by eexists.
Qed.

(** A renderer returns when each of its steps does; [children] is the fact
    about the loop over the children. *)
Ltac returns_with children :=
  first
    [ done
    | solve [auto]
    | apply children; [done|intros [? ?]; returns_with children]
    | apply bind_returns; [returns_with children|intros ?; returns_with children]
    | match goal with
      | |- is_Some (if ?b then _ else _) => destruct b; returns_with children
      end ].

Section ElementReturns.
Variables (H h fuel : nat).
Variable gn : Node → generator.Generator → option (string * generator.Generator).
Hypothesis Hfuel : H + h ≤ fuel.

Lemma generateElement_returns (elem : Element) g :
  quiet h (generator.labels g) → shallow H elem
  → Forall (λ node, ∀ g, quiet h (generator.labels g) → ∃ s, gn node g = Some (s, g))
           (Children elem)
  → is_Some (generator.generateElement fuel gn elem g).
Proof.
  intros Hq Hs Hcs.
  pose proof (getStringProp_returns H h fuel g elem Hq Hs Hfuel) as Hprop.
  assert (Hstyle : is_Some (generator.buildStyleAttr fuel g elem)).
  { unfold generator.buildStyleAttr, generator.buildStyles. returns_with I. }
  assert (Hformat : ∀ content, is_Some (generator.applyFormatting fuel g elem content)).
  { intros content. unfold generator.applyFormatting.
    destruct (Properties elem !! "format_with") as [[| | |tok values|]|] eqn:Hv; try done.
    apply applyFormattingLoop_returns. by eapply items_return. }
  assert (Hkids : ∀ g' (k : string * generator.Generator → option (string * generator.Generator)),
             generator.labels g' = generator.labels g
             → (∀ r, is_Some (k r))
             → is_Some (generator.generateChildren gn (Children elem) g' ≫= k)).
  { intros g' k Hl Hk.
    destruct (generateChildren_returns gn _ _ Hcs g') as [s ->]; [by rewrite Hl|apply Hk]. }
  assert (Hitems : ∀ g' indent,
             generator.labels g' = generator.labels g
             → is_Some (match Properties elem !! "items" with
                        | Some (ArrayValue _ values) =>
                            generator.generateItems fuel g' indent values
                        | _ => Some EmptyString
                        end)).
  { intros g' indent Hl.
    destruct (Properties elem !! "items") as [[| | |tok values|]|] eqn:Hv; try done.
    apply generateItems_returns.
    assert (Hq' : quiet h (generator.labels g')) by by rewrite Hl.
    by eapply (items_return H h fuel g' elem Hq'). }
  unfold generator.generateElement, generator.pure, generator.generateDiv,
    generator.generateParagraph, generator.generateHeading, generator.generateLink,
    generator.generateImage, generator.generateList, generator.generateListItem,
    generator.generateTable, generator.generateRow, generator.generateCell,
    generator.generateForm, generator.generateInput, generator.generateButton,
    generator.generateBold, generator.generateItalic, generator.generateCode.
  repeat match goal with
         | |- is_Some (if String.eqb _ _ then _ else _) => destruct (String.eqb _ _)
         end;
    returns_with Hkids.
Qed.

End ElementReturns.

Lemma shallow_children H (cs : list Node) :
  Forall (shallow H) (concat (map Spec.elementsOf cs)) → Forall (shallowNode H) cs.
Proof.
  induction cs as [|c cs IH]; simpl; [constructor|]. intros Hf.
  apply Forall_app in Hf as [Hc Hcs]. constructor; [done|by apply IH].
Qed.

Lemma generateNode_returns H h fuel (node : Node) :
  H + h ≤ fuel → shallowNode H node
  → ∀ g, quiet h (generator.labels g)
         → ∃ s, generator.generateNode fuel node g = Some (s, g).
Proof.
  intros Hfuel. induction node as [|e IH] using Node_nested_ind; intros Hs g Hq.
  - by eexists.
  - unfold shallowNode in Hs. simpl in Hs. apply Forall_cons in Hs as [He Hcs].
    apply shallow_children in Hcs.
    assert (Hkids : Forall (λ node, ∀ g, quiet h (generator.labels g)
                                         → ∃ s, generator.generateNode fuel node g
                                                = Some (s, g)) (Children e)).
    { apply Forall_forall. intros c Hc. rewrite Forall_forall in IH, Hcs.
      by apply IH, Hcs. }
    destruct (generateElement_returns H h fuel _ Hfuel e g Hq He Hkids) as [[s g'] Hr].
    simpl. rewrite Hr. exists s. f_equal. f_equal.
    by apply (generateNode_state fuel (NodeElement e)) in Hr.
Qed.

Lemma generateSections_returns H h fuel (sections : list PageSection) :
  H + h ≤ fuel
  → Forall (λ s, Forall (shallowNode H) (SecChildren s)) sections
  → ∀ g, quiet h (generator.labels g)
         → is_Some (generator.generateSections fuel sections g).
Proof.
  intros Hfuel. induction 1 as [|sec rest Hsec _ IH]; intros g Hq; simpl; [done|].
  unfold generator.generateSection.
  destruct (generateChildren_returns (generator.generateNode fuel) (SecChildren sec)
              (λ g, quiet h (generator.labels g))) with (g := generator.setIndent g 2)
    as [body Hbody]; [|done|].
  { eapply Forall_impl; [done|]. intros node Hn g' Hq'.
    by eapply generateNode_returns. }
  rewrite Hbody. cbn [mbind option_bind].
  apply bind_returns; [by apply IH|]. by intros [? ?].
Qed.

Lemma findLast_Some {A} (f : A → bool) (xs : list A) (x : A) :
  Spec.findLast f xs = Some x → x ∈ xs ∧ f x = true.
Proof.
  induction xs as [|y xs IH]; [done|]. simpl.
  destruct (Spec.findLast f xs) as [z|].
  - intros Hz. destruct (IH Hz) as [Hin Hf]. split; [by apply elem_of_cons; right|done].
  - destruct (f y) eqn:Hy; [|done]. intros [= <-]. split; [by apply elem_of_cons; left|done].
Qed.

Lemma collectLabels_quiet h (doc : Document) g :
  Forall (λ e : Element, ∀ tok name c,
            Properties e !! "label" = Some (StringValue tok name)
            → Properties e !! "contains" = Some c
            → literal c = true ∧ height c ≤ h)
         (Spec.docElements doc)
  → quiet h (generator.labels g)
  → quiet h (generator.labels (generator.collectLabels doc g)).
Proof.
  intros Hdoc Hg name e c He Hc.
  destruct (collectLabels_registry doc g) as [_ Hl]. rewrite Hl in He.
  unfold Spec.registered in He.
  destruct (Spec.findLast (Spec.declares name) (Spec.docElements doc)) as [e'|] eqn:Hf.
  - injection He as ->. apply findLast_Some in Hf as [Hin Hd].
    rewrite Forall_forall in Hdoc. unfold Spec.declares in Hd.
    destruct (Properties e !! "label") as [[tok v| | | |]|] eqn:Hlabel; try done.
    by eapply Hdoc.
  - by eapply Hg.
Qed.

Lemma Generate_returns H h fuel (doc : Document) g :
  Forall (shallow H) (Spec.docElements doc)
  → Forall (λ e : Element, ∀ tok name c,
              Properties e !! "label" = Some (StringValue tok name)
              → Properties e !! "contains" = Some c
              → literal c = true ∧ height c ≤ h)
           (Spec.docElements doc)
  → quiet h (generator.labels g)
  → H + h ≤ fuel
  → ∃ out g', generator.Generate fuel doc g = Some (out, g').
Proof.
  intros Hdoc Hlabels Hg Hfuel. unfold generator.Generate.
  pose proof (collectLabels_quiet h doc g Hlabels Hg) as Hq.
  destruct (generateSections_returns H h fuel (Sections doc) Hfuel) with
    (g := generator.collectLabels doc g) as [[body g'] Hbody]; [|done|].
  - unfold Spec.docElements in Hdoc. clear -Hdoc.
    induction (Sections doc) as [|sec rest IH]; [constructor|]. simpl in Hdoc.
    apply Forall_app in Hdoc as [Hsec Hrest].
    constructor; [by apply shallow_children|by apply IH].
  - rewrite Hbody. cbn [mbind option_bind]. by eexists _, _.
Qed.

Lemma shallowDoc_shallow H (doc : Document) :
  shallowDoc H doc = true → Forall (shallow H) (Spec.docElements doc).
Proof.
  unfold shallowDoc. rewrite forallb_forall. intros Hdoc. apply Forall_forall.
  intros e He name v Hv. apply list_elem_of_In, Hdoc in He.
  rewrite forallb_forall in He. apply elem_of_map_to_list, list_elem_of_In, He in Hv.
  by apply Nat.leb_le in Hv.
Qed.

Lemma quietLabels_labels h (doc : Document) :
  quietLabels h doc = true
  → Forall (λ e : Element, ∀ tok name c,
              Properties e !! "label" = Some (StringValue tok name)
              → Properties e !! "contains" = Some c
              → literal c = true ∧ height c ≤ h)
           (Spec.docElements doc).
Proof.
  unfold quietLabels. rewrite forallb_forall. intros H. apply Forall_forall.
  intros e He tok name c Hl Hc. apply list_elem_of_In, H in He.
  rewrite Hl, Hc in He. apply andb_true_iff in He as [? Hh].
  by apply Nat.leb_le in Hh.
Qed.

Lemma literalTexts_labels (doc : Document) :
  literalTexts doc = true
  → Forall (λ e : Element, ∀ tok name c,
              Properties e !! "label" = Some (StringValue tok name)
              → Properties e !! "contains" = Some c → literal c = true)
           (Spec.docElements doc).
Proof.
  unfold literalTexts. rewrite forallb_forall. intros H. apply Forall_forall.
  intros e He tok name c Hl Hc. apply list_elem_of_In, H in He.
  by rewrite Hl, Hc in He.
Qed.

(** X19. [Generate] returns, and so does [resolveValue] on every value that is
    not too deep, when no text behind a label holds a variable reference:
    the labelled elements of the document and those of the registry the
    generator starts with.  The depth of the recursion is then at most the
    depth [H] of the property values plus the depth [h] of the labelled
    texts. *)
Theorem Generate_returns_without_reference_chains H h fuel (doc : Document) g :
  shallowDoc H doc = true
  → quietLabels h doc = true
  → quiet h (generator.labels g)
  → H + h ≤ fuel
  → (∃ out g', generator.Generate fuel doc g = Some (out, g'))
    ∧ (∀ v, height v ≤ H
            → is_Some (generator.resolveValue fuel (generator.collectLabels doc g) v)).
Proof.
  intros Hdoc Hlabels Hg Hfuel.
  apply shallowDoc_shallow in Hdoc. apply quietLabels_labels in Hlabels. split.
  - by eapply Generate_returns.
  - intros v Hv. apply (resolveValue_returns _ h); [by apply collectLabels_quiet|lia].
Qed.

(** X19 on the document of [Samples.linked], in which a paragraph refers to
    the label of the heading. *)
Lemma Generate_returns_without_reference_chains_witness :
  ∃ out g',
    generator.Generate 3 (Samples.documentOf Samples.linked) generator.New
    = Some (out, g').
Proof.
  apply (Generate_returns_without_reference_chains 2 1 3
           (Samples.documentOf Samples.linked) generator.New);
    [vm_compute; reflexivity|vm_compute; reflexivity| |lia].
  intros name e c He. simpl in He. by rewrite lookup_empty in He.
Defined.

Lemma scalar_height v : scalar v → height v ≤ 1.
Proof. destruct v; simpl; try done; lia. Qed.

Lemma scalars_height (values : list Value) :
  Forall scalar values → foldr (λ x n, height x `max` n) 0 values ≤ 1.
Proof.
  induction 1 as [|x values Hx _ IH]; simpl; [lia|]. apply scalar_height in Hx. lia.
Qed.

Lemma flat_height v : flat v → height v ≤ 2.
Proof.
  destruct v as [| | |tok values|]; simpl; try lia. intros Hs.
  apply scalars_height in Hs. lia.
Qed.

Lemma scalars_literal_height (values : list Value) :
  Forall scalar values → forallb literal values = true
  → foldr (λ x n, height x `max` n) 0 values = 0.
Proof.
  induction 1 as [|x values Hx _ IH]; simpl; [done|]. intros Hl.
  apply andb_true_iff in Hl as [Hlx Hl]. rewrite IH by done.
  destruct x; simpl in *; done.
Qed.

Lemma flat_literal_height v : flat v → literal v = true → height v ≤ 1.
Proof.
  destruct v as [| | |tok values|]; simpl; try lia. intros Hs Hl.
  by rewrite scalars_literal_height.
Qed.

Lemma parsedNode_shallow (node : Node) :
  parsedNode node
  → Forall (λ e, map_Forall (λ _ v, flat v) (Properties e)) (Spec.elementsOf node).
Proof.
  induction node as [|e IH] using Node_nested_ind; intros Hp; [constructor|].
  inversion Hp as [e' Hopen Htag Hprops Hkids Heq]. subst e'. simpl.
  constructor; [done|]. clear Hp Hopen Htag Hprops.
  induction (Children e) as [|c cs IHcs]; simpl; [constructor|].
  apply Forall_cons in IH as [IHc IH]. apply Forall_cons in Hkids as [Hc Hkids].
  apply Forall_app. split; [by apply IHc|by apply IHcs].
Qed.

Lemma parsed_document_flat (doc : Document) :
  Forall parsedSection (Sections doc)
  → Forall (λ e, map_Forall (λ _ v, flat v) (Properties e)) (Spec.docElements doc).
Proof.
  unfold Spec.docElements. induction 1 as [|sec rest (_ & _ & Hsec) _ IH]; simpl;
    [constructor|].
  apply Forall_app. split; [|done]. clear IH.
  induction Hsec as [|c cs Hc _ IHcs]; simpl; [constructor|].
  apply Forall_app. split; [by apply parsedNode_shallow|done].
Qed.

Lemma parsed_document_returns lf fuel gfuel p (doc : Document) p' :
  parser.ParseDocument lf fuel p = Some (doc, p')
  → Forall (λ e : Element, ∀ tok name c,
              Properties e !! "label" = Some (StringValue tok name)
              → Properties e !! "contains" = Some c → literal c = true)
           (Spec.docElements doc)
  → 3 ≤ gfuel
  → ∃ out g', generator.Generate gfuel doc generator.New = Some (out, g').
Proof.
  intros Hparse Hlabels Hg.
  unfold parser.ParseDocument in Hparse. bind_pair Hparse. injection Hparse as <- _.
  apply parseDocumentLoop_builds in E; [|constructor].
  apply (parsed_document_flat (mkDocument l)) in E.
  apply (Generate_returns 2 1).
  - eapply Forall_impl; [exact E|]. intros e He name v Hv. apply flat_height.
    by eapply He.
  - rewrite Forall_forall in *. intros e Hin tok name c Hl Hc.
    pose proof (Hlabels e Hin tok name c Hl Hc) as Hlit. split; [done|].
    apply flat_literal_height; [|done]. by eapply (E e Hin).
  - intros name e c He. simpl in He. by rewrite lookup_empty in He.
  - lia.
Qed.

(** X20. The document that [ParseDocument] returns is rendered: [Generate]
    returns on it, from a fresh generator and with a recursion of depth 3,
    when no text of a labelled element holds a variable reference.  The
    values of a parsed document are at most two deep, an array of variable
    references, and a labelled text without a reference is at most one
    deep. *)
Theorem parsed_document_is_rendered lf fuel gfuel p (doc : Document) p' :
  parser.ParseDocument lf fuel p = Some (doc, p')
  → literalTexts doc = true
  → 3 ≤ gfuel
  → ∃ out g', generator.Generate gfuel doc generator.New = Some (out, g').
Proof.
  intros Hparse Hlit Hg. apply literalTexts_labels in Hlit.
  by eapply parsed_document_returns.
Qed.

(** X20 on [Samples.linked]. *)
Lemma parsed_document_is_rendered_witness :
  ∃ out g',
    generator.Generate 3 (Samples.documentOf Samples.linked) generator.New
    = Some (out, g').
Proof.
  apply (parsed_document_is_rendered 200 200 3 Cases.linkedParser
           (Samples.documentOf Samples.linked)
           (default Samples.idle
              (snd <$> parser.ParseDocument 200 200 Cases.linkedParser)));
    [vm_compute; reflexivity|vm_compute; reflexivity|lia].
Defined.

(** ** The program *)

Lemma HasSuffix_split (s suffix : string) :
  HasSuffix s suffix = true → ∃ base, s = base +:+ suffix.
Proof.
  unfold HasSuffix. intros H. apply andb_true_iff in H as [Hlen Heq].
  apply Nat.leb_le in Hlen. apply String.eqb_eq in Heq.
  pose proof (substring_split s (String.length s - String.length suffix)) as Hs.
  replace (String.length s - (String.length s - String.length suffix))
    with (String.length suffix) in Hs by lia.
  rewrite Heq in Hs. eexists. apply Hs. lia.
Qed.

Lemma HasSuffix_app (base suffix : string) : HasSuffix (base +:+ suffix) suffix = true.
Proof.
  unfold HasSuffix. rewrite length_append. apply andb_true_iff. split.
  - apply Nat.leb_le. lia.
  - replace (String.length base + String.length suffix - String.length suffix)
      with (String.length base) by lia.
    rewrite substring_app_r. apply String.eqb_refl.
Qed.

(** X21. When [main] writes a file, the name of the input file ends in
    [.lpml], the file was read and parsed without an error, and what is
    written is what [Generate] returned for its document.  The output file
    is the third argument where there is one, whatever its name, and
    otherwise the input file with [.html] in place of [.lpml]. *)
Theorem main_writes_beside_the_input lf fuel gfuel args readFile outputFile html :
  main.main lf fuel gfuel args readFile = Some (main.WriteFile outputFile html)
  → ∃ base content p doc p' g,
      nth 1 args EmptyString = base +:+ ".lpml"
      ∧ outputFile = (if (3 <=? length args)%nat then nth 2 args EmptyString
                      else base +:+ ".html")
      ∧ readFile (base +:+ ".lpml") = Some content
      ∧ parser.New lf (lexer.New content) = Some p
      ∧ parser.ParseDocument lf fuel p = Some (doc, p')
      ∧ parser.Errors p' = []
      ∧ generator.Generate gfuel doc generator.New = Some (html, g).
Proof.
  unfold main.main. intros H.
  destruct (length args <? 2)%nat; [done|].
  destruct (main.checkFileType (nth 1 args EmptyString)) eqn:Hcheck; [|done].
  simpl in H. destruct (HasSuffix_split _ _ Hcheck) as [base Hbase].
  rewrite Hbase in *. rewrite TrimSuffix_app in H.
  destruct (readFile (base +:+ ".lpml")) as [content|] eqn:Hread; [|done].
  bind_in H. bind_pair H.
  destruct (0 <? length (parser.Errors p0))%nat eqn:Herr; [done|].
  bind_pair H. injection H as <- <-.
  exists base, content, p, d, p0, g. split_and!; try done.
  apply Nat.ltb_ge in Herr. destruct (parser.Errors p0); [done|simpl in Herr; lia].
Qed.

(** X21 on the file [page.lpml]. *)
Lemma main_writes_beside_the_input_witness :
  ∃ html,
    main.main 200 200 3 Cases.pageArgs Cases.linkedFile
    = Some (main.WriteFile "page.html" html).
Proof.
  destruct (main.main 200 200 3 Cases.pageArgs Cases.linkedFile)
    as [[| | |errs|outputFile html]|] eqn:E; try (by vm_compute in E).
  destruct (main_writes_beside_the_input _ _ _ _ _ _ _ E)
    as (base & _ & _ & _ & _ & _ & Hbase & -> & _).
  exists html. do 2 f_equal.
  change (nth 1 Cases.pageArgs EmptyString) with ("page" +:+ ".lpml") in Hbase.
  apply (f_equal (λ s, TrimSuffix s ".lpml")) in Hbase.
  rewrite !TrimSuffix_app in Hbase. by rewrite <- Hbase.
Defined.

(** X22. [main] comes to an end on every file that it can read, when no text
    of a labelled element of the parsed document holds a variable
    reference: it prints the usage, stops at one of its errors, prints the
    parsing errors, or writes the output file. *)
Theorem main_ends_when_labelled_texts_are_literal lf fuel gfuel args readFile :
  (∀ content, readFile (nth 1 args EmptyString) = Some content
              → String.length content < lf ∧ 2 * String.length content + 1 ≤ fuel)
  → 3 ≤ gfuel
  → (∀ content p doc p',
       readFile (nth 1 args EmptyString) = Some content
       → parser.New lf (lexer.New content) = Some p
       → parser.ParseDocument lf fuel p = Some (doc, p')
       → literalTexts doc = true)
  → ∃ outcome, main.main lf fuel gfuel args readFile = Some outcome.
Proof.
  intros Hfuel Hg Hlit. unfold main.main.
  destruct (length args <? 2)%nat; [by eexists|].
  destruct (negb _); [by eexists|].
  destruct (readFile (nth 1 args EmptyString)) as [content|] eqn:Hread; [|by eexists].
  destruct (Hfuel content eq_refl) as [Hlf Hpf].
  destruct (parser_New_total lf content Hlf) as (p & Hnew & Hf & Hw & _).
  rewrite Hnew. cbn [mbind option_bind].
  destruct (parseDocumentLoop_total lf fuel [] p Hf) as (ss & p' & Hloop & _); [lia|].
  assert (Hparse : parser.ParseDocument lf fuel p = Some (mkDocument ss, p')).
  { unfold parser.ParseDocument. by rewrite Hloop. }
  rewrite Hparse. cbn [mbind option_bind].
  destruct (0 <? length (parser.Errors p'))%nat; [by eexists|].
  pose proof (Hlit _ _ _ _ eq_refl Hnew Hparse) as Hdoc.
  apply literalTexts_labels in Hdoc.
  destruct (parsed_document_returns lf fuel gfuel p _ p' Hparse Hdoc Hg)
    as (out & g' & ->).
  by eexists.
Qed.

(** X22 on the file [page.lpml]. *)
Lemma main_ends_when_labelled_texts_are_literal_witness :
  ∃ outcome, main.main 300 600 3 Cases.pageArgs Cases.linkedFile = Some outcome.
Proof.
  apply main_ends_when_labelled_texts_are_literal; [|lia|].
  - intros content [= <-]. vm_compute. lia.
  - intros content p doc p' [= <-] Hp Hd.
    vm_compute in Hp. injection Hp as <-.
    vm_compute in Hd. injection Hd as <- _. reflexivity.
Defined.

(** ** Escaping and friendly names *)

(** X23. [escapeHTML] works byte by byte: the escaping of a concatenation is
    the concatenation of the escapings.  Its result holds no <, > or double
    quote and is never shorter than its argument; a text without &, <, >
    and double quote is left as it is.  Escaping twice differs from
    escaping once: an ampersand becomes [&amp;amp;]. *)
Theorem escapeHTML_leaves_no_markup :
  (∀ a b, generator.escapeHTML (a +:+ b)
          = generator.escapeHTML a +:+ generator.escapeHTML b)
  ∧ (∀ s, allBytes (λ c, negb (Ascii.eqb c "<") && negb (Ascii.eqb c ">")
                         && negb (Ascii.eqb c DQUOTE))
                   (generator.escapeHTML s) = true)
  ∧ (∀ s, allBytes (λ c, negb (isMarkup c)) s = true → generator.escapeHTML s = s)
  ∧ (∀ s, String.length s ≤ String.length (generator.escapeHTML s))
  ∧ generator.escapeHTML (generator.escapeHTML "&") = "&amp;amp;".
Proof.
  split_and!.
  - intros a b. rewrite !escapeHTML_escapeBytes. apply mapBytes_app.
  - intros s. rewrite escapeHTML_escapeBytes. unfold Spec.escapeBytes.
    induction s as [|c s IH]; [done|]. simpl. rewrite allBytes_app, IH, andb_true_r.
    unfold Spec.escapeByte.
    destruct (Ascii.eqb c "&") eqn:H1; [done|].
    destruct (Ascii.eqb c "<") eqn:H2; [done|].
    destruct (Ascii.eqb c ">") eqn:H3; [done|].
    destruct (Ascii.eqb c DQUOTE) eqn:H4; [done|].
    simpl. by rewrite H2, H3, H4.
  - intros s. rewrite escapeHTML_escapeBytes. unfold Spec.escapeBytes.
    induction s as [|c s IH]; [done|]. simpl. intros H.
    apply andb_true_iff in H as [Hc Hs]. rewrite IH by done.
    unfold isMarkup in Hc. unfold Spec.escapeByte.
    destruct (Ascii.eqb c "&"); [done|]. destruct (Ascii.eqb c "<"); [done|].
    destruct (Ascii.eqb c ">"); [done|]. by destruct (Ascii.eqb c DQUOTE).
  - intros s. rewrite escapeHTML_escapeBytes. unfold Spec.escapeBytes.
    induction s as [|c s IH]; [done|]. simpl. rewrite length_append.
    assert (Hone : 1 ≤ String.length (Spec.escapeByte c)).
    { unfold Spec.escapeByte.
      repeat match goal with |- context [if ?b then _ else _] => destruct b end;
        simpl; lia. }
    simpl in *. lia.
  - reflexivity.
Qed.

